(** * td_v2: incremental sparse time-series store

    A shallow embedding of the ingestion scripts of the repository
    (art_coin.py, art_dat.py, augment_dat_with_mnav.py, fs_etf.py) and the
    properties of their table, resume, key-resolution, merge, derivation
    and persistence logic.

    Conventions of the embedding:
    - Python [str] is [string] (byte strings; the texts handled by the
      scripts are ASCII: tickers, metric names, ISO dates).
    - Python [float] is [spec_float] at binary64 (precision 53, emax 1024),
      with the IEEE operations of the Standard Library's [SpecFloat].
    - Python [dict] is stdpp's [gmap]; a dict whose iteration order is
      observed (API payloads) is an association list.
    - [None] is [option]'s [None]; a raised exception is an explicit error
      result.
    - What the scripts call from outside is a parameter: the API client,
      and [datetime.fromisoformat], of which only the reading of calendar
      texts is assumed.

    Part I holds the definitions, Part II the properties. *)

From Stdlib Require Import ZArith Lia Bool List Ascii String.
From Stdlib Require Import Floats.SpecFloat.
From stdpp Require Import base option gmap list strings sorting.

Local Open Scope string_scope.
Local Open Scope list_scope.

(** * Part I: the model *)

(** ** Python floats *)

Abbreviation float := spec_float.

Definition prec64 : Z := 53.
Definition emax64 : Z := 1024.

Definition fmul : float -> float -> float := SFmul prec64 emax64.
Definition fdiv : float -> float -> float := SFdiv prec64 emax64.
Definition feqb : float -> float -> bool := SFeqb.

(** [float(n)] for an integer literal. *)
Definition float_of_Z (n : Z) : float := binary_normalize prec64 emax64 n 0 false.

Definition fzero : float := S754_zero false.

Definition is_nan (x : float) : bool :=
  match x with S754_nan => true | _ => false end.

(** Exceptions that escape a script. *)
Inductive exn : Type :=
| ValueError
| OverflowError
| RuntimeError
| TransportError.

Inductive result (A : Type) : Type :=
| Ok (a : A)
| Raise (e : exn).
Arguments Ok {A} a.
Arguments Raise {A} e.

Definition rbind {A B : Type} (r : result A) (k : A -> result B) : result B :=
  match r with
  | Ok a => k a
  | Raise e => Raise e
  end.

Notation "x <- r ;; k" := (rbind r (fun x => k))
  (at level 100, r at next level, right associativity).

(** ** Strings *)

Module Str.

Definition is_upper (c : ascii) : bool :=
  let n := nat_of_ascii c in (65 <=? n)%nat && (n <=? 90)%nat.

Definition is_lower (c : ascii) : bool :=
  let n := nat_of_ascii c in (97 <=? n)%nat && (n <=? 122)%nat.

Definition is_digit (c : ascii) : bool :=
  let n := nat_of_ascii c in (48 <=? n)%nat && (n <=? 57)%nat.

Definition lower_ascii (c : ascii) : ascii :=
  if is_upper c then ascii_of_nat (nat_of_ascii c + 32) else c.

Definition upper_ascii (c : ascii) : ascii :=
  if is_lower c then ascii_of_nat (nat_of_ascii c - 32) else c.

Fixpoint map (f : ascii -> ascii) (s : string) : string :=
  match s with
  | EmptyString => EmptyString
  | String c s' => String (f c) (map f s')
  end.

Fixpoint filter (p : ascii -> bool) (s : string) : string :=
  match s with
  | EmptyString => EmptyString
  | String c s' => if p c then String c (filter p s') else filter p s'
  end.

(** [s.lower()] and [s.upper()] on ASCII text: the letters A-Z and a-z are
    mapped and every other byte is left as it is. (A string is the bytes of
    its text. Python also maps the letters outside ASCII; what is stated of
    the mapping itself is stated for ASCII text.) *)
Definition lower : string -> string := map lower_ascii.
Definition upper : string -> string := map upper_ascii.

(** ASCII text: every byte is below 128. *)
Definition is_ascii_char (c : ascii) : bool := (nat_of_ascii c <? 128)%nat.

Fixpoint is_ascii (s : string) : bool :=
  match s with
  | EmptyString => true
  | String c s' => is_ascii_char c && is_ascii s'
  end.

(** Python truthiness of a string: [bool(s)]. *)
Definition truthy (s : string) : bool :=
  match s with EmptyString => false | _ => true end.

(** [max(a, b)] on strings: the later argument wins only when strictly
    greater. *)
Definition max (a b : string) : string := if String.ltb a b then b else a.

(** [sep.join(parts)]. *)
Fixpoint join (sep : string) (parts : list string) : string :=
  match parts with
  | [] => ""
  | [p] => p
  | p :: rest => (p ++ sep ++ join sep rest)%string
  end.

End Str.

(** ** Calendar dates ([datetime]) *)

Module Dates.

Local Open Scope Z_scope.

Record date : Type := mkdate { year : Z; month : Z; day : Z }.

Definition is_leap (y : Z) : bool :=
  (y mod 4 =? 0) && (negb (y mod 100 =? 0) || (y mod 400 =? 0)).

Definition days_in_month (y m : Z) : Z :=
  if m =? 2 then (if is_leap y then 29 else 28)
  else if (m =? 4) || (m =? 6) || (m =? 9) || (m =? 11) then 30
  else 31.

(** The dates [datetime] can hold: years 1 to 9999. *)
Definition valid (d : date) : bool :=
  (1 <=? year d) && (year d <=? 9999) &&
  (1 <=? month d) && (month d <=? 12) &&
  (1 <=? day d) && (day d <=? days_in_month (year d) (month d)).

Definition digit_val (c : ascii) : option Z :=
  if Str.is_digit c then Some (Z.of_nat (nat_of_ascii c) - 48) else None.

Definition digit_char (n : Z) : ascii := ascii_of_nat (Z.to_nat (48 + n mod 10)).

Definition num2 (a b : ascii) : option Z :=
  match digit_val a, digit_val b with
  | Some x, Some y => Some (10 * x + y)
  | _, _ => None
  end.

Definition num4 (a b c d : ascii) : option Z :=
  match num2 a b, num2 c d with
  | Some x, Some y => Some (100 * x + y)
  | _, _ => None
  end.

Definition pad2 (n : Z) : string :=
  String (digit_char (n / 10)) (String (digit_char n) "").

Definition pad4 (n : Z) : string :=
  String (digit_char (n / 1000)) (String (digit_char (n / 100))
    (String (digit_char (n / 10)) (String (digit_char n) ""))).

(** The day a calendar text [YYYY-MM-DD] names, the inverse of [isoformat];
    [None] for every other text. *)
Definition parse_calendar (s : string) : option date :=
  match list_ascii_of_string s with
  | [y1; y2; y3; y4; "-"%char; m1; m2; "-"%char; d1; d2] =>
      match num4 y1 y2 y3 y4, num2 m1 m2, num2 d1 d2 with
      | Some y, Some m, Some d =>
          let r := mkdate y m d in if valid r then Some r else None
      | _, _, _ => None
      end
  | _ => None
  end.

(** [d + timedelta(days=1)]; [None] is the [OverflowError] past 9999-12-31. *)
Definition add_one_day (d : date) : option date :=
  if day d <? days_in_month (year d) (month d) then
    Some (mkdate (year d) (month d) (day d + 1))
  else if month d <? 12 then Some (mkdate (year d) (month d + 1) 1)
  else if year d <? 9999 then Some (mkdate (year d + 1) 1 1)
  else None.

(** [d.isoformat()]. *)
Definition isoformat (d : date) : string :=
  (pad4 (year d) ++ "-" ++ pad2 (month d) ++ "-" ++ pad2 (day d))%string.

(** Chronological order. *)
Definition ordinal_key (d : date) : Z := (year d * 100 + month d) * 100 + day d.
Definition le (a b : date) : Prop := ordinal_key a <= ordinal_key b.

(** [datetime.fromisoformat] is a function of the Python library, and the
    texts it reads have grown with the versions (3.11 added the basic and
    the week forms, and a time of day may follow the date). The scripts are
    modelled over any such function, given as the day of the value it
    returns, [None] standing for its [ValueError]. What every version does,
    and all that is assumed of it: a calendar text [YYYY-MM-DD] of a day
    [datetime] can hold is read as that day. *)
Definition reads_calendar (fromisoformat : string -> option date) : Prop :=
  forall d, valid d = true -> fromisoformat (isoformat d) = Some d.

(** The text [s] is the calendar form of the day [d]. *)
Definition calendar_text (s : string) (d : date) : Prop :=
  valid d = true /\ s = isoformat d.

End Dates.

(** ** The sparse table: [{(date, metric): {ENTITY: value}}] *)

Abbreviation row := (gmap string float).
Abbreviation table := (gmap (string * string) (gmap string float)).

(** One fetched point [{"date": d, "val": v}] and a fetched payload
    [{ENTITY: [point, ...]}] in iteration order. *)
Abbreviation point := (string * float)%type.
Abbreviation payload := (list (string * list (string * float))).

(** [d[k] = v] on a dict whose order is observed: an existing key keeps its
    place, a new key goes last. *)
Fixpoint dict_set {V : Type} (k : string) (v : V) (d : list (string * V))
    : list (string * V) :=
  match d with
  | [] => [(k, v)]
  | (k', v') :: rest =>
      if String.eqb k' k then (k, v) :: rest else (k', v') :: dict_set k v rest
  end.

Fixpoint dict_get {V : Type} (k : string) (d : list (string * V)) : option V :=
  match d with
  | [] => None
  | (k', v') :: rest => if String.eqb k' k then Some v' else dict_get k rest
  end.

(** Order of texts, as [sorted] uses it. *)
Definition str_le (a b : string) : Prop := String.leb a b = true.

#[global]
Instance str_le_dec : RelDecision str_le.
Proof. intros a b. unfold str_le. apply _. Defined.

(** ** The text form of a float: [f"{v:.10f}"] and [float(text)] *)

Module Num.

Local Open Scope Z_scope.

(** The quotient of [a] by [b] rounded to the nearest integer, a tie going
    to the even one ([0 <= a], [0 < b]). *)
Definition rhe_div (a b : Z) : Z :=
  let q := a / b in
  let r := a mod b in
  if 2 * r <? b then q
  else if b <? 2 * r then q + 1
  else if Z.even q then q else q + 1.

(** [str(n)] for a natural number: its decimal digits, at least one. *)
Fixpoint digits_fuel (fuel : nat) (n : Z) (acc : list ascii) : list ascii :=
  match fuel with
  | O => acc
  | S fuel' =>
      let acc' := Dates.digit_char n :: acc in
      if n <? 10 then acc' else digits_fuel fuel' (n / 10) acc'
  end.

Definition digits (n : Z) : list ascii :=
  digits_fuel (S (Z.to_nat (Z.log2 n))) n [].

(** The [k] low decimal digits of [n], zero-padded. *)
Fixpoint digits_fixed (k : nat) (n : Z) : list ascii :=
  match k with
  | O => []
  | S k' => digits_fixed k' (n / 10) ++ [Dates.digit_char n]
  end.

Definition sign_chars (neg : bool) : list ascii :=
  if neg then ["-"%char] else [].

(** The number of 1e-10 steps nearest to the magnitude [m * 2^e]. *)
Definition steps (m : positive) (e : Z) : Z :=
  if 0 <=? e then Z.pos m * 2 ^ e * 10 ^ 10
  else rhe_div (Z.pos m * 10 ^ 10) (2 ^ (- e)).

(** [f"{v:.10f}"]: the value rounded (correctly, ties to even) to ten
    fractional digits; the sign is kept when the digits are all zero. *)
Definition fmt10_chars (v : float) : list ascii :=
  match v with
  | S754_nan => list_ascii_of_string "nan"
  | S754_infinity neg => sign_chars neg ++ list_ascii_of_string "inf"
  | S754_zero neg => sign_chars neg ++ list_ascii_of_string "0.0000000000"
  | S754_finite neg m e =>
      let n := steps m e in
      sign_chars neg ++ digits (n / 10 ^ 10) ++ ["."%char] ++ digits_fixed 10 (n mod 10 ^ 10)
  end.

Definition fmt10 (v : float) : string := string_of_list_ascii (fmt10_chars v).

(** The double nearest to [num / den] (ties to even), with the sign
    [neg]. Exponents are counted from the least one, -1074: [binade] is
    the exponent of the binade [num / den] lies in, [mantissa] the quotient
    rounded at that exponent; a mantissa that rounds up to 2^53 moves to the
    next binade, and one past the greatest exponent gives infinity. *)
Definition binade (num den : Z) : Z :=
  Z.max 0 (Z.log2 (num * 2 ^ 1074 / den) - 52).

Definition mantissa (num den : Z) : Z :=
  rhe_div (num * 2 ^ 1074) (den * 2 ^ binade num den).

Definition nearest_double (neg : bool) (num den : Z) : float :=
  let '(m, g) :=
    if mantissa num den =? 2 ^ 53 then (2 ^ 52, binade num den + 1)
    else (mantissa num den, binade num den) in
  if m =? 0 then S754_zero neg
  else if 2045 <? g then S754_infinity neg
  else S754_finite neg (Z.to_pos m) (g - 1074).

Definition split_sign (l : list ascii) : bool * list ascii :=
  match l with
  | c :: r =>
      if Ascii.eqb c "-"%char then (true, r)
      else if Ascii.eqb c "+"%char then (false, r)
      else (false, l)
  | [] => (false, [])
  end.

(** The text up to the first point, and the text after it when there is
    one. *)
Fixpoint split_point (l : list ascii) : list ascii * option (list ascii) :=
  match l with
  | [] => ([], None)
  | c :: r =>
      if Ascii.eqb c "."%char then ([], Some r)
      else let '(a, b) := split_point r in (c :: a, b)
  end.

Fixpoint num_of (acc : Z) (l : list ascii) : option Z :=
  match l with
  | [] => Some acc
  | c :: r =>
      match Dates.digit_val c with
      | Some d => num_of (10 * acc + d) r
      | None => None
      end
  end.

(** [float(text)] on the plain decimal texts and the names of the
    non-finite values, which are all that a written table holds; [None] is
    the [ValueError]. (Exponent forms, digit-group underscores and
    surrounding blanks, which [float] also reads, are not part of the
    model.) *)
Definition float_of_chars (l : list ascii) : option float :=
  let '(neg, body) := split_sign l in
  let low := List.map Str.lower_ascii body in
  if decide (low = list_ascii_of_string "nan") then Some S754_nan
  else if decide (low = list_ascii_of_string "inf") then Some (S754_infinity neg)
  else if decide (low = list_ascii_of_string "infinity") then Some (S754_infinity neg)
  else
    let '(ip, fp) := split_point body in
    let fp := default [] fp in
    match ip ++ fp with
    | [] => None
    | ds =>
        match num_of 0 ds with
        | Some n => Some (nearest_double neg n (10 ^ Z.of_nat (length fp)))
        | None => None
        end
    end.

Definition float_of_string (s : string) : option float :=
  float_of_chars (list_ascii_of_string s).

(** A finite double in multiples of the least positive one, 2^-1074. *)
Definition units (x : float) : option Z :=
  match x with
  | S754_zero _ => Some 0
  | S754_finite neg m e =>
      if -1074 <=? e then Some ((if neg then -1 else 1) * (Z.pos m * 2 ^ (e + 1074)))
      else None
  | _ => None
  end.

(** [abs(a - b) <= 10^-k] in exact arithmetic; it fails when either value
    is NaN or infinite, as the comparison of floats does. *)
Definition within (k : Z) (a b : float) : bool :=
  match units a, units b with
  | Some ua, Some ub => Z.abs (ua - ub) * 10 ^ k <=? 2 ^ 1074
  | _, _ => false
  end.

(** The doubles: the values of [spec_float] a Python float can hold. *)
Definition is_double (x : float) : bool := valid_binary prec64 emax64 x.

Definition is_finite (x : float) : bool :=
  match x with
  | S754_zero _ | S754_finite _ _ _ => true
  | _ => false
  end.

End Num.

(** ** The table file: [csv.DictReader] and [csv.writer] *)

(** A file is held as the records the [csv] module writes and reads back;
    a record is the list of its fields. *)
Module Csv.

(** [dict(zip(fieldnames, row))] of a [DictReader]: a row shorter than the
    header has [None] under the names left over. *)
Definition dict_row (fieldnames row : list string) : list (string * option string) :=
  zip fieldnames (List.map Some row)
  ++ List.map (fun k => (k, None)) (drop (length row) fieldnames).

(** [row.get(name)]: the binding written last wins. *)
Definition last_binding (name : string) (acc : option string)
    (kv : string * option string) : option string :=
  if decide (kv.1 = name) then kv.2 else acc.

Definition row_get (fieldnames row : list string) (name : string) : option string :=
  foldl (last_binding name) None (dict_row fieldnames row).

(** The value a cell text stands for: [None], an empty text, ["NaN"] and a
    text [float] rejects stand for no value. *)
Definition read_cell (val : option string) : option float :=
  match val with
  | Some s =>
      if decide (s = "") then None
      else if decide (s = "NaN") then None
      else Num.float_of_string s
  | None => None
  end.

(** The [for t in token_cols] loop; the value is stored under [store t]. *)
Definition read_cells (store : string -> string) (fieldnames token_cols row : list string)
    (rowmap : gmap string float) : gmap string float :=
  foldl (fun rm t =>
           match read_cell (row_get fieldnames row t) with
           | Some x => <[store t := x]> rm
           | None => rm
           end) rowmap token_cols.

(** The body of the [for row in rdr] loop. (A blank record has no date and
    is passed over here as the reader passes over it.) *)
Definition read_row (store : string -> string) (fieldnames token_cols : list string)
    (t : table) (row : list string) : table :=
  match row_get fieldnames row "date", row_get fieldnames row "metric" with
  | Some d, Some m =>
      if Str.truthy d && Str.truthy m then
        <[(d, m) := read_cells store fieldnames token_cols row (default ∅ (t !! (d, m)))]> t
      else t
  | _, _ => t
  end.

(** Reading a file: [None] is a path that does not exist, the first record
    is the header. *)
Definition read (store : string -> string) (file : option (list (list string)))
    : table * list string :=
  match file with
  | None => (∅, [])
  | Some [] => (∅, [])
  | Some (fieldnames :: rows) =>
      let token_cols :=
        List.filter (fun c => negb (bool_decide (c ∈ ["date"; "metric"]))) fieldnames in
      (foldl (read_row store fieldnames token_cols) ∅ rows, token_cols)
  end.

(** [existing = set(); for _, row in table.items(): existing.update(row.keys())]. *)
Definition existing_tokens (t : table) : gset string :=
  ⋃ (dom <$> (map_to_list t).*2).

(** The columns after date and metric: the requested names, then the
    other names of the table in sorted order. *)
Definition header_tokens (t : table) (names : list string) : list string :=
  names ++ merge_sort str_le
             (List.filter (fun x => negb (bool_decide (x ∈ names)))
                          (elements (existing_tokens t))).

(** [f"{v:.10f}"], or the empty text for no value. *)
Definition render (v : option float) : string :=
  match v with
  | Some x => Num.fmt10 x
  | None => ""
  end.

Definition table_record (t : table) (columns : list string) (k : string * string)
    : list string :=
  k.1 :: k.2 :: List.map (fun c => render (default ∅ (t !! k) !! c)) columns.

(** The order of the rows, from a comparison of keys. *)
Definition sorted_by (leb : string * string -> string * string -> bool)
    (a b : string * string) : Prop := leb a b = true.

#[global]
Instance sorted_by_dec (leb : string * string -> string * string -> bool) :
  RelDecision (sorted_by leb).
Proof. intros a b. unfold sorted_by. apply _. Defined.

(** The records written: the header, then one record per key in the order
    of [leb]. *)
Definition write (leb : string * string -> string * string -> bool)
    (t : table) (names : list string) : list (list string) :=
  let columns := header_tokens t names in
  ("date" :: "metric" :: columns)
  :: List.map (table_record t columns) (merge_sort (sorted_by leb) (map_to_list t).*1).

(** The value a stored one comes back as after it was written and read. *)
Definition reload (v : float) : option float := read_cell (Some (Num.fmt10 v)).

End Csv.

(** ** Writing a file *)

Module Persist.

(** The files of the output directory, each with the records it holds, and
    the steps of a write as the file system sees them. *)
Abbreviation files := (gmap string (list (list string))).

Inductive op : Type :=
| Truncate (path : string)
| Append (path : string) (record : list string)
| Replace (src dst : string).

Definition step (s : files) (o : op) : files :=
  match o with
  | Truncate p => <[p := []]> s
  | Append p r => <[p := default [] (s !! p) ++ [r]]> s
  | Replace a b =>
      match s !! a with
      | Some c => <[b := c]> (delete a s)
      | None => s
      end
  end.

Definition exec (s : files) (ops : list op) : files := foldl step s ops.

(** [with path.open("w") as f: ... w.writerow(...)], the writer of
    art_coin.py and art_dat.py: the destination is emptied when it is
    opened, and the records are written into it one by one. *)
Definition open_and_write (path : string) (records : list (list string)) : list op :=
  Truncate path :: List.map (Append path) records.

(** [MAP_PATH.write_text(text)]. *)
Definition write_text (path text : string) : list op :=
  open_and_write path [[text]].

(** [atomic_write_csv] of fs_etf.py: the records go into a fresh file
    [tmp] of the same directory, which then replaces the destination. *)
Definition atomic_write_csv (tmp path : string) (records : list (list string)) : list op :=
  open_and_write tmp records ++ [Replace tmp path].

(** The files when a write stops after its first [n] steps. *)
Definition stopped_after (n : nat) (s : files) (ops : list op) : files :=
  exec s (take n ops).

End Persist.

(** ** art_coin.py: the token table *)

Module ArtCoin.

Definition EARLIEST : string := "1970-01-01".

(** *** ResumePolicy *)

(** [metric_max_date]: the greatest date text among the metric's rows. *)
Definition metric_max_date (t : table) (metric : string) : option string :=
  let dates := (filter (fun k : string * string => k.2 = metric) (map_to_list t).*1).*1 in
  match dates with
  | [] => None
  | d :: rest => Some (foldl Str.max d rest)
  end.

(** [any(m == metric and t in row and isinstance(row[t], float) ...)]:
    every stored value is a float. *)
Definition has_any (t : table) (metric tok : string) : bool :=
  existsb (fun kr : (string * string) * row =>
             bool_decide (kr.1.2 = metric) && bool_decide (is_Some (kr.2 !! tok)))
          (map_to_list t).

Definition tokens_missing (t : table) (metric : string) (tokens_upper : list string)
    : list string :=
  List.filter (fun tok => negb (has_any t metric tok)) tokens_upper.

Section Resume.

(** [datetime.fromisoformat]: the day of the parsed value. *)
Variable fromisoformat : string -> option Dates.date.

(** ["1970-01-01" if existing_max is None else
    (datetime.fromisoformat(existing_max) + timedelta(days=1)).date().isoformat()]:
    a time of day in the parsed value does not change the date of the
    sum. *)
Definition start_default (existing_max : option string) : result string :=
  match existing_max with
  | None => Ok EARLIEST
  | Some s =>
      match fromisoformat s with
      | None => Raise ValueError
      | Some d =>
          match Dates.add_one_day d with
          | None => Raise OverflowError
          | Some d' => Ok (Dates.isoformat d')
          end
      end
  end.

Definition effective_start (t : table) (metric : string) (tokens_upper : list string)
    : result string :=
  let existing_max := metric_max_date t metric in
  start <- start_default existing_max ;;
  match existing_max with
  | Some _ =>
      match tokens_missing t metric tokens_upper with
      | [] => Ok start
      | _ :: _ => Ok EARLIEST
      end
  | None => Ok start
  end.

End Resume.

(** *** The fetch collaborator *)

(** A raw point of the response: either field may be missing. *)
Record raw_point : Type := mkraw { pt_date : option string; pt_val : option float }.

(** What [client.fetch_metrics] gives: it raises, or its response does not
    serialize to a dict, or it carries [symbols], each symbol's entry mapping
    a metric name to its series (an entry that is no dict, or a series that
    is no list, is an absent one). *)
Inductive response : Type :=
| Fails
| Unserializable
| Symbols (symbols : list (string * gmap string (list raw_point))).

(** One request to the client: metric, symbols, start and end date. *)
Record request : Type :=
  mkreq { rq_metric : string; rq_symbols : string; rq_start : string; rq_end : string }.

(** [chunk(lst, n)]. *)
Fixpoint chunk_fuel {A : Type} (fuel : nat) (lst : list A) (n : nat) : list (list A) :=
  match fuel, lst with
  | _, [] => []
  | O, _ => []
  | S fuel', _ => take n lst :: chunk_fuel fuel' (drop n lst) n
  end.

Definition chunk {A : Type} (lst : list A) (n : nat) : list (list A) :=
  chunk_fuel (length lst) lst n.

(** [{str(k).lower(): v for k, v in symbols.items()}]. *)
Definition symbols_l {V : Type} (symbols : list (string * V)) : gmap string V :=
  foldl (fun m kv => <[Str.lower kv.1 := kv.2]> m) ∅ symbols.

(** The points of a series that carry both a date and a value. *)
Definition clean_series (series : list raw_point) : list point :=
  omap (fun pt => match pt_date pt, pt_val pt with
                  | Some d, Some v => Some (d, v)
                  | _, _ => None
                  end) series.

Section Fetch.

Variable fromisoformat : string -> option Dates.date.
Variable client : request -> response.

(** The body of the [for tok in batch] loop. *)
Definition batch_series (metric : string)
    (syms : gmap string (gmap string (list raw_point)))
    (acc : payload) (tok : string) : payload :=
  let out :=
    match syms !! Str.lower tok with
    | Some asset =>
        match asset !! metric with
        | Some series => clean_series series
        | None => []
        end
    | None => []
    end in
  dict_set (Str.upper tok) out acc.

Fixpoint fetch_batches (metric : string) (start end_ : string)
    (batches : list (list string)) (acc : payload) : result payload :=
  match batches with
  | [] => Ok acc
  | batch :: rest =>
      match client (mkreq metric (Str.join "," batch) start end_) with
      | Fails => Raise TransportError
      | Unserializable => Raise RuntimeError
      | Symbols symbols =>
          fetch_batches metric start end_ rest
            (foldl (batch_series metric (symbols_l symbols)) acc batch)
      end
  end.

Definition fetch_metric_for_tokens (metric : string) (tokens : list string)
    (start end_ : string) : result payload :=
  fetch_batches metric start end_ (chunk tokens 100) [].

(** The requests [fetch_metric_for_tokens] sends, in order, up to the first
    failure. *)
Fixpoint requests_of (metric : string) (start end_ : string)
    (batches : list (list string)) : list request :=
  match batches with
  | [] => []
  | batch :: rest =>
      let rq := mkreq metric (Str.join "," batch) start end_ in
      rq :: match client rq with
            | Symbols _ => requests_of metric start end_ rest
            | _ => []
            end
  end.

(** *** MergeEngine *)

(** [rowmap = table.get(key, {}); rowmap[tok] = val; table[key] = rowmap]. *)
Definition upsert (t : table) (d metric tok : string) (v : float) : table :=
  <[(d, metric) := <[tok := v]> (default ∅ (t !! (d, metric)))]> t.

Definition merge_series (metric tok : string) (t : table) (series : list point) : table :=
  foldl (fun t pt => upsert t pt.1 metric tok pt.2) t series.

Definition merge (t : table) (metric : string) (series_by_token : payload) : table :=
  foldl (fun t ts => merge_series metric ts.1 t ts.2) t series_by_token.

(** *** The run *)

(** What a run leaves behind: the table it wrote (when it reached the
    write) and the requests it sent. *)
Record outcome : Type :=
  mkoutcome { written : option table; sent : list request; raised : option exn }.

(** The [for metric in METRICS] loop: an exception leaves the loop and the
    function. *)
Fixpoint run_metrics (today : string) (tokens_upper : list string)
    (metrics : list string) (t : table) (log : list request)
    : result table * list request :=
  match metrics with
  | [] => (Ok t, log)
  | metric :: rest =>
      match effective_start fromisoformat t metric tokens_upper with
      | Raise e => (Raise e, log)
      | Ok start =>
          let log' := log ++ requests_of metric start today (chunk tokens_upper 100) in
          match fetch_metric_for_tokens metric tokens_upper start today with
          | Raise e => (Raise e, log')
          | Ok series_by_token =>
              run_metrics today tokens_upper rest (merge t metric series_by_token) log'
          end
      end
  end.

(** [run()]: load, loop, and only then write. *)
Definition run (TOKENS METRICS : list string) (existing : table) (today : string)
    : outcome :=
  let tokens_upper := List.map Str.upper TOKENS in
  match run_metrics today tokens_upper METRICS existing [] with
  | (Ok t, log) => mkoutcome (Some t) log None
  | (Raise e, log) => mkoutcome None log (Some e)
  end.

End Fetch.

(** *** Vocabulary of the properties *)

(** The series has a row; an entity has a value somewhere under the
    series; the table holds a value at (date, series, entity). *)
Definition has_rows (t : table) (series : string) : Prop :=
  exists d, is_Some (t !! (d, series)).

Definition has_value (t : table) (series tok : string) : Prop :=
  exists d r, t !! (d, series) = Some r /\ is_Some (r !! tok).

Definition cell (t : table) (d series tok : string) : option float :=
  r ← t !! (d, series); r !! tok.

(** [max(dates)]: a date text of the series that no date text of the series
    exceeds, in the order of texts. *)
Definition greatest_text (t : table) (series dmax : string) : Prop :=
  is_Some (t !! (dmax, series)) /\
  forall d, is_Some (t !! (d, series)) -> String.ltb dmax d = false.

(** Every row of the series is dated by a calendar text [YYYY-MM-DD], and
    [D] is the latest of those days. *)
Definition latest_date (t : table) (series : string) (D : Dates.date) : Prop :=
  (exists d, is_Some (t !! (d, series)) /\ Dates.calendar_text d D) /\
  (forall d, is_Some (t !! (d, series)) ->
     exists D', Dates.calendar_text d D' /\ Dates.le D' D).

(** The payload supplies a value for the entity on the date. *)
Definition supplies (p : payload) (tok d : string) : Prop :=
  exists series v, (tok, series) ∈ p /\ (d, v) ∈ series.

(** *** The table file *)

(** [read_existing_table]: the value of column [t] is stored under
    [t.upper()]. *)
Definition read_existing_table (file : option (list (list string))) : table * list string :=
  Csv.read Str.upper file.

(** [metric_rank.get(m, len(METRICS))], with
    [metric_rank = {m: i for i, m in enumerate(METRICS)}]. *)
Definition metric_rank (METRICS : list string) (m : string) : nat :=
  foldl (fun r im => if decide (im.2 = m) then im.1 else r)
        (length METRICS) (imap pair METRICS).

(** The sort key [(x[0], metric_key(x[1]))], compared as tuples. *)
Definition key_leb (METRICS : list string) (a b : string * string) : bool :=
  match String.compare a.1 b.1 with
  | Lt => true
  | Gt => false
  | Eq =>
      match Nat.compare (metric_rank METRICS a.2) (metric_rank METRICS b.2) with
      | Lt => true
      | Gt => false
      | Eq => String.leb a.2 b.2
      end
  end.

(** [write_table]: the columns are the requested tokens in upper case, then
    the other tokens of the table. *)
Definition write_table (METRICS : list string) (t : table) (tokens : list string)
    : list (list string) :=
  Csv.write (key_leb METRICS) t (List.map Str.upper tokens).

(** A stored name that [upper()] leaves as it is. *)
Definition is_upper_name (s : string) : Prop := Str.upper s = s.


End ArtCoin.

(** The scenario of the specification: an empty table, series "price",
    and a fetch that returns two points for ETH and one for BTC. *)
Module Scenario.

Definition fetched : payload :=
  [("ETH", [("2024-01-01", float_of_Z 100); ("2024-01-02", float_of_Z 110)]);
   ("BTC", [("2024-01-01", float_of_Z 40000)])].

Definition merged : table := ArtCoin.merge ∅ "price" fetched.

(** A client that serves "price" and whose response for any other metric
    does not serialize. *)
Definition price_only_client (rq : ArtCoin.request) : ArtCoin.response :=
  if String.eqb (ArtCoin.rq_metric rq) "price" then
    ArtCoin.Symbols
      [("eth", {[ "price" := [ArtCoin.mkraw (Some "2024-01-01") (Some (float_of_Z 100))] ]})]
  else ArtCoin.Unserializable.

(** A reading of dates that knows, besides the calendar texts, the week
    text "2024-W01-1" the way Python 3.11 reads it: the Monday of the first
    ISO week of 2024, the first of January. *)
Definition week_reader (s : string) : option Dates.date :=
  match Dates.parse_calendar s with
  | Some d => Some d
  | None => if String.eqb s "2024-W01-1" then Some (Dates.mkdate 2024 1 1) else None
  end.

End Scenario.

(** ** KeyResolver (art_dat.py) *)

Module KeyResolver.

(** [norm(s) = re.sub(r"[^a-z0-9]", "", s.lower())]. *)
Definition norm (s : string) : string :=
  Str.filter (fun c => Str.is_lower c || Str.is_digit c) (Str.lower s).

(** [{norm(k): k for k in keys}]: a later key with the same normal form
    replaces an earlier one. *)
Definition avail_norm_of (keys : list string) : gmap string string :=
  foldl (fun m k => <[norm k := k]> m) ∅ keys.

(** [available_norm_by_sym], for the symbols of the run, from the keys
    each symbol advertises ([list_supported_metrics] returns [[]] when the
    enumeration is not permitted or fails). *)
Definition available_norm_by_sym
    (available_by_sym : gmap string (list string)) (symbols : list string)
    : gmap string (gmap string string) :=
  foldl (fun acc sym =>
           <[sym := avail_norm_of (default [] (available_by_sym !! sym))]> acc)
        ∅ symbols.

(** The [for cand in candidates] loop. *)
Fixpoint first_available (avail_norm : gmap string string)
    (candidates : list string) : option string :=
  match candidates with
  | [] => None
  | cand :: rest =>
      match avail_norm !! norm cand with
      | Some k => Some k
      | None => first_available avail_norm rest
      end
  end.

Definition choose_key_from_candidates
    (by_sym : gmap string (gmap string string))
    (sym : string) (candidates : list string) (prior : option string)
    : option string :=
  let avail_norm := default ∅ (by_sym !! sym) in
  let kept :=
    match prior with
    | Some p => if Str.truthy p then avail_norm !! norm p else None
    | None => None
    end in
  match kept with
  | Some k => Some k
  | None =>
      match first_available avail_norm candidates with
      | Some k => Some k
      | None => head candidates
      end
  end.

(** Candidate lists of the script ([SINGLE_LABEL_KEYS],
    [COMPOSITE_LABEL_KEYS]). *)
Definition NET_ASSET_VALUE : list string := ["NAV"; "netassetvalue"].
Definition PRICE : list string := ["PRICE"; "equityprice"; "stockprice"].
Definition NUMBER_OF_SHARES : list string :=
  ["NUM_OF_SHARES"; "SHARES_OUTSTANDING"; "OUTSTANDING_SHARES"; "SHARES_OUT";
   "sharesoutstanding"; "shares_outstanding"].
Definition MC_NAV : list string :=
  ["M_NAV"; "MC_NAV"; "MC/NAV"; "MARKET_CAP_NAV"; "market_cap_nav"; "mcnav"; "mnav"].

(** A symbol that advertises a price key and two spellings of the net
    asset value. *)
Definition advertised : gmap string (list string) :=
  {[ "EQ-MSTR" := ["nav"; "PRICE"; "NetAssetValue"]; "EQ-SBET" := ["PRICE"] ]}.

Definition by_sym_example : gmap string (gmap string string) :=
  available_norm_by_sym advertised ["EQ-MSTR"; "EQ-SBET"].

End KeyResolver.

(** ** art_dat.py: the equities table and its derived metric *)

Module ArtDat.

Definition SHARES_LABEL : string := "Number of Shares Outstanding".
Definition PRICE_LABEL : string := "Price".
Definition NAV_LABEL : string := "Net Asset Value".
Definition MNAV : string := "mNAV".

(** [mapping[sym][label]]: the resolved key, or [None]. *)
Abbreviation keymap := (gmap string (gmap string (option string))).

Definition mapped (mapping : keymap) (sym label : string) : option string :=
  m ← mapping !! sym; k ← m !! label; k.

(** [sorted({d for (d, m) in table.keys()})]. *)
Definition all_dates (t : table) : list string :=
  merge_sort str_le (remove_dups (map_to_list t).*1.*1).

(** [get_cell(d, key, sym)]: a missing or empty key gives [None]. *)
Definition get_cell (t : table) (d : string) (key : option string) (sym : string)
    : option float :=
  match key with
  | Some k => if Str.truthy k then r ← t !! (d, k); r !! sym else None
  | None => None
  end.

(** [if cur is not None: last_val = cur]. *)
Definition carry (get : string -> option float) (last_val : option float) (d : string)
    : option float :=
  match get d with Some cur => Some cur | None => last_val end.

(** One step of the scan: update [last_val], then
    [ffilled_shares[(d, sym)] = last_val]. *)
Definition ffill_step (get : string -> option float) (sym : string)
    (st : option float * gmap (string * string) (option float)) (d : string)
    : option float * gmap (string * string) (option float) :=
  let last_val := carry get st.1 d in
  (last_val, <[(d, sym) := last_val]> st.2).

Definition ffill_symbol (get : string -> option float) (sym : string)
    (dates : list string) (acc : gmap (string * string) (option float))
    : gmap (string * string) (option float) :=
  (foldl (ffill_step get sym) (None, acc) dates).2.

Definition ffilled_shares (t : table) (mapping : keymap) (symbols : list string)
    : gmap (string * string) (option float) :=
  foldl (fun acc sym =>
           ffill_symbol (fun d => get_cell t d (mapped mapping sym SHARES_LABEL) sym)
                        sym (all_dates t) acc)
        ∅ symbols.

(** [ffilled_shares.get((d, sym))]. *)
Definition ffilled (ff : gmap (string * string) (option float)) (d sym : string)
    : option float :=
  v ← ff !! (d, sym); v.

(** The guarded ratio: [nav not in (None, 0.0)] compares with [==], so both
    zeros are excluded and a NaN is not. *)
Definition mnav_cell (t : table) (mapping : keymap)
    (ff : gmap (string * string) (option float)) (d sym : string) : option float :=
  match get_cell t d (mapped mapping sym PRICE_LABEL) sym,
        ffilled ff d sym,
        get_cell t d (mapped mapping sym NAV_LABEL) sym with
  | Some price, Some shares, Some nav =>
      if feqb nav fzero then None else Some (fdiv (fmul price shares) nav)
  | _, _, _ => None
  end.

Definition mnav_row (t : table) (mapping : keymap)
    (ff : gmap (string * string) (option float)) (symbols : list string) (d : string)
    : row :=
  foldl (fun r sym => match mnav_cell t mapping ff d sym with
                      | Some v => <[sym := v]> r
                      | None => r
                      end) ∅ symbols.

(** Step 1 of the final rows: the computed mNAV; a date with no value gets
    no row. *)
Definition mnav_rows (t : table) (mapping : keymap) (symbols : list string) : table :=
  let ff := ffilled_shares t mapping symbols in
  foldl (fun final_rows d =>
           let r := mnav_row t mapping ff symbols d in
           if decide (r = ∅) then final_rows else <[(d, MNAV) := r]> final_rows)
        ∅ (all_dates t).

(** The value a scan carries after going through [dates]. *)
Definition carried (get : string -> option float) (dates : list string) : option float :=
  foldl (carry get) None dates.

(** The forward-filled view of the shares of a symbol on a date. *)
Definition shares_view (t : table) (mapping : keymap) (symbols : list string)
    (d sym : string) : option float :=
  ffilled (ffilled_shares t mapping symbols) d sym.

(** The shares of a symbol reported on the date itself. *)
Definition shares_on (t : table) (mapping : keymap) (sym d : string) : option float :=
  get_cell t d (mapped mapping sym SHARES_LABEL) sym.

(** The scenario of the specification: five consecutive days with a price
    and a net asset value of 50 000 000 each day, and shares reported on the
    second day (10) and the fifth (12) only. *)
Definition example_mapping : keymap :=
  {[ "EQ-MSTR" := {[ PRICE_LABEL := Some "PRICE"; SHARES_LABEL := Some "NUM_OF_SHARES";
                     NAV_LABEL := Some "NAV" ]} ]}.

Definition example_days : list string :=
  ["2024-01-01"; "2024-01-02"; "2024-01-03"; "2024-01-04"; "2024-01-05"].

Definition example_table : table :=
  let with_daily :=
    foldl (fun t d =>
             ArtCoin.upsert (ArtCoin.upsert t d "PRICE" "EQ-MSTR" (float_of_Z 100))
                            d "NAV" "EQ-MSTR" (float_of_Z 50000000))
          ∅ example_days in
  ArtCoin.upsert (ArtCoin.upsert with_daily "2024-01-02" "NUM_OF_SHARES" "EQ-MSTR" (float_of_Z 10))
                 "2024-01-05" "NUM_OF_SHARES" "EQ-MSTR" (float_of_Z 12).

(** The derivation scenario: price 100, shares 1 000 000 last reported three
    days before today, net asset value as given. *)
Definition ratio_table (nav : option float) : table :=
  let t1 := ArtCoin.upsert ∅ "2024-01-02" "NUM_OF_SHARES" "EQ-MSTR" (float_of_Z 1000000) in
  let t2 := ArtCoin.upsert t1 "2024-01-05" "PRICE" "EQ-MSTR" (float_of_Z 100) in
  match nav with
  | Some n => ArtCoin.upsert t2 "2024-01-05" "NAV" "EQ-MSTR" n
  | None => t2
  end.

(** *** The table file *)

(** [read_table]: the value of column [c] is stored under [c]. *)
Definition read_table (file : option (list (list string))) : table * list string :=
  Csv.read id file.

(** The sort key [(x[0], x[1])]. *)
Definition key_leb (a b : string * string) : bool :=
  match String.compare a.1 b.1 with
  | Lt => true
  | Gt => false
  | Eq => String.leb a.2 b.2
  end.

Definition write_table (t : table) (symbols : list string) : list (list string) :=
  Csv.write key_leb t symbols.

(** *** The rows of the labels *)

(** The value steps 2 and 3 of the final rows take for a label, a date and
    a symbol: the one under the key the symbol's mapping gives the label. *)
Definition label_cell (t : table) (mapping : keymap) (label d sym : string)
    : option float :=
  get_cell t d (mapped mapping sym label) sym.

(** The [for sym in symbols] loop on the row [final_rows.get((d, label), {})]. *)
Definition label_row (t : table) (mapping : keymap) (label : string)
    (symbols : list string) (d : string) (row0 : row) : row :=
  foldl (fun r sym => match label_cell t mapping label d sym with
                      | Some v => <[sym := v]> r
                      | None => r
                      end) row0 symbols.

(** The [for d in all_dates] loop of one label; a row that stays empty is
    not stored. *)
Definition label_rows (t : table) (mapping : keymap) (symbols : list string)
    (final_rows : table) (label : string) : table :=
  foldl (fun fr d =>
           let r := label_row t mapping label symbols d (default ∅ (fr !! (d, label))) in
           if decide (r = ∅) then fr else <[(d, label) := r]> fr)
        final_rows (all_dates t).

Definition COMPOSITES : list string := ["MC / Nav"; "FDMC / NAV"].

(** The labels of step 3: those of [UI_LABELS] that are neither the
    computed one nor a composite. *)
Definition singles (UI_LABELS : list string) : list string :=
  List.filter (fun l => negb (bool_decide (l ∈ [MNAV; "MC / Nav"; "FDMC / NAV"]))) UI_LABELS.

(** [final_rows] as it is written: the computed mNAV, then the composites,
    then the singles. *)
Definition final_rows (t : table) (mapping : keymap) (symbols UI_LABELS : list string)
    : table :=
  foldl (label_rows t mapping symbols) (mnav_rows t mapping symbols)
        (COMPOSITES ++ singles UI_LABELS).


End ArtDat.

(** ** augment_dat_with_mnav.py: the pandas recomputation of mNAV *)

Module Augment.

(** A block of the frame after [to_num], [groupby("date").last()] and
    [reindex]: date, then ticker, to value; a missing cell is NaN. *)
Abbreviation frame := (gmap string (gmap string float)).

Definition at_ (f : frame) (d tick : string) : float :=
  default S754_nan (r ← f !! d; r !! tick).

(** [idx = price.index.union(shares.index).union(nav.index)]. *)
Definition idx (price shares nav : frame) : gset string :=
  dom price ∪ dom shares ∪ dom nav.

(** [mnav = (price * shares) / nav], cell by cell. *)
Definition mnav_at (price shares nav : frame) (d tick : string) : float :=
  fdiv (fmul (at_ price d tick) (at_ shares d tick)) (at_ nav d tick).

(** The cell written for the date and ticker: [pd.notna(row[t])] keeps every
    value that is not NaN. *)
Definition emitted (price shares nav : frame) (d tick : string) : option float :=
  if decide (d ∈ idx price shares nav) then
    let v := mnav_at price shares nav d tick in
    if is_nan v then None else Some v
  else None.

(** A day on which MSTR has price 100 and 1 000 000 shares, with the net
    asset value as given. *)
Definition one_day (v : float) : frame := {[ "2024-01-05" := {[ "MSTR" := v ]} ]}.

End Augment.

(** ** fs_etf.py: the scraped ETF flows *)

Module Etf.

Local Open Scope Z_scope.

(** A scraped series: one row per scraped day (a day number) with the sum
    of the day's fund flows. *)
Abbreviation series := (list (Z * float)).

Fixpoint lookup_day (rows : series) (d : Z) : option float :=
  match rows with
  | [] => None
  | (d', v) :: rest => if decide (d' = d) then Some v else lookup_day rest d
  end.

(** [.fillna(0.0)] on a reindexed cell: a day that is not in the frame, or
    holds NaN, becomes 0.0. *)
Definition fillna0 (v : option float) : float :=
  match v with
  | Some x => if is_nan x then fzero else x
  | None => fzero
  end.

(** [df["date"].min()] and [.max()]; [None] on an empty frame (NaT). *)
Definition date_min (rows : series) : option Z :=
  match rows.*1 with
  | [] => None
  | d :: rest => Some (foldl Z.min d rest)
  end.

Definition date_max (rows : series) : option Z :=
  match rows.*1 with
  | [] => None
  | d :: rest => Some (foldl Z.max d rest)
  end.

(** [pd.date_range(lo, hi, freq="D")]. *)
Definition date_range (lo hi : Z) : list Z := seqZ lo (hi - lo + 1).

(** [df.set_index("date").reindex(full).fillna(0.0)]: a frame with a
    repeated date cannot be reindexed. *)
Definition reindex_fill (rows : series) (full : list Z) : result series :=
  if decide (NoDup rows.*1)
  then Ok (List.map (fun d => (d, fillna0 (lookup_day rows d))) full)
  else Raise ValueError.

Definition daily_frame (rows : series) : result series :=
  match date_min rows, date_max rows with
  | Some lo, Some hi => reindex_fill rows (date_range lo hi)
  | _, _ => Raise ValueError
  end.

(** The [daily] frame of [build_and_write]: both assets on the union of
    their ranges, one row (date, BTC, ETH) per day. *)
Definition daily (btc eth : series) : result (list (Z * float * float)) :=
  btc_daily <- daily_frame btc ;;
  eth_daily <- daily_frame eth ;;
  match date_min btc_daily, date_min eth_daily, date_max btc_daily, date_max eth_daily with
  | Some b0, Some e0, Some b1, Some e1 =>
      let full_dates := date_range (Z.min b0 e0) (Z.max b1 e1) in
      btc_full <- reindex_fill btc_daily full_dates ;;
      eth_full <- reindex_fill eth_daily full_dates ;;
      Ok (zip_with (fun b e => (b.1, b.2, e.2)) btc_full eth_full)
  | _, _, _, _ => Raise ValueError
  end.



(** Two scraped tables: BTC on days 10 and 12, ETH on days 11 and 14. *)
Definition btc_example : series := [(10, float_of_Z 5); (12, float_of_Z (-3))].
Definition eth_example : series := [(11, float_of_Z 7); (14, float_of_Z 2)].

End Etf.

(** ** Vocabulary of the further properties *)

Module Supplied.

(** The value of the last point of a series on a date, and the value a
    payload supplies last for an entity on a date (entities in the order of
    the payload, points in the order of the series). *)
Definition last_point (series : list point) (d : string) : option float :=
  foldl (fun acc pt => if decide (pt.1 = d) then Some pt.2 else acc) None series.

Definition last_supplied (p : payload) (tok d : string) : option float :=
  foldl (fun acc ts =>
           if decide (ts.1 = tok) then
             match last_point ts.2 d with
             | Some v => Some v
             | None => acc
             end
           else acc) None p.

End Supplied.

Module Records.

(** The key of a written record: its first two fields. *)
Definition key_of (record : list string) : string * string :=
  (hd "" record, hd "" (tl record)).

End Records.

(** * Part II: properties *)

(** ** Strings and their order *)

Module StrFacts.

Lemma ascii_compare_refl (c : ascii) : Ascii.compare c c = Eq.
Proof. unfold Ascii.compare. apply N.compare_refl. Qed.

Lemma compare_refl (s : string) : String.compare s s = Eq.
Proof. induction s as [|c s IH]; simpl; [done|]. by rewrite ascii_compare_refl. Qed.

Lemma compare_lt_trans (a b c : string) :
  String.compare a b = Lt -> String.compare b c = Lt -> String.compare a c = Lt.
Proof.
  revert b c. induction a as [|x a IH]; intros [|y b] [|z c]; simpl; try done.
  unfold Ascii.compare.
  destruct (N.compare_spec (N_of_ascii x) (N_of_ascii y)) as [Hxy|Hxy|Hxy]; try done;
  destruct (N.compare_spec (N_of_ascii y) (N_of_ascii z)) as [Hyz|Hyz|Hyz]; try done;
  intros H1 H2.
  - rewrite Hxy, Hyz, N.compare_refl. eauto.
  - rewrite Hxy. by apply N.compare_lt_iff in Hyz as ->.
  - rewrite <- Hyz. by apply N.compare_lt_iff in Hxy as ->.
  - assert (N_of_ascii x < N_of_ascii z)%N as Hxz by lia.
    by apply N.compare_lt_iff in Hxz as ->.
Qed.

Lemma ltb_irrefl (s : string) : String.ltb s s = false.
Proof. unfold String.ltb. by rewrite compare_refl. Qed.

Lemma ltb_trans (a b c : string) :
  String.ltb a b = true -> String.ltb b c = true -> String.ltb a c = true.
Proof.
  unfold String.ltb. intros H1 H2.
  destruct (String.compare a b) eqn:E1; try done.
  destruct (String.compare b c) eqn:E2; try done.
  by rewrite (compare_lt_trans _ _ _ E1 E2).
Qed.

(** Not below: [ltb a b = false] reads [b <= a]. *)
Lemma not_ltb_trans (a b c : string) :
  String.ltb a b = false -> String.ltb b c = false -> String.ltb a c = false.
Proof.
  unfold String.ltb. intros H1 H2.
  destruct (String.compare a c) eqn:E; try done.
  destruct (String.compare a b) eqn:E1; try done.
  - apply String.compare_eq_iff in E1 as ->. by rewrite E in H2.
  - destruct (String.compare b c) eqn:E2; try done.
    + apply String.compare_eq_iff in E2 as ->. by rewrite E in E1.
    + rewrite String.compare_antisym in E1, E2.
      destruct (String.compare b a) eqn:E1'; try done.
      destruct (String.compare c b) eqn:E2'; try done.
      pose proof (compare_lt_trans _ _ _ E2' E1') as Hca.
      rewrite String.compare_antisym, Hca in E. done.
Qed.

Lemma ltb_antisym (a b : string) :
  String.ltb a b = false -> String.ltb b a = false -> a = b.
Proof.
  unfold String.ltb. intros H1 H2. rewrite String.compare_antisym in H2.
  destruct (String.compare a b) eqn:E; try done.
  by apply String.compare_eq_iff.
Qed.

Lemma max_cases (a b : string) :
  (Str.max a b = a /\ String.ltb a b = false) \/ (Str.max a b = b /\ String.ltb a b = true).
Proof. unfold Str.max. destruct (String.ltb a b); auto. Qed.

(** [max] over a non-empty list returns an element no other exceeds. *)
Lemma foldl_max_spec (rest : list string) (d : string) :
  let m := foldl Str.max d rest in
  m ∈ d :: rest /\ forall x, x ∈ d :: rest -> String.ltb m x = false.
Proof.
  revert d. induction rest as [|y rest IH]; intros d; simpl.
  - split; [set_solver|]. intros x Hx. apply list_elem_of_singleton in Hx as ->.
    apply ltb_irrefl.
  - destruct (IH (Str.max d y)) as [Hin Hmax]. split.
    + destruct (max_cases d y) as [[-> _]|[-> _]]; set_solver.
    + intros x Hx.
      assert (String.ltb (foldl Str.max (Str.max d y) rest) (Str.max d y) = false) as Hm
        by (apply Hmax; left).
      apply elem_of_cons in Hx as [->|Hx].
      * destruct (max_cases d y) as [[E _]|[E Hlt]]; rewrite E in Hm |- *; [done|].
        eapply not_ltb_trans; [exact Hm|].
        unfold String.ltb in *. rewrite String.compare_antisym.
        by destruct (String.compare d y).
      * apply elem_of_cons in Hx as [->|Hx]; [|apply Hmax; by right].
        destruct (max_cases d y) as [[E Hlt]|[E _]]; rewrite E in Hm |- *; [|done].
        eapply not_ltb_trans; [exact Hm|done].
Qed.

End StrFacts.
(** ** Calendar dates *)

Module DatesFacts.

Import Dates.
Local Open Scope Z_scope.

Lemma digit_val_range (c : ascii) (x : Z) :
  digit_val c = Some x -> 0 <= x <= 9 /\ digit_char x = c.
Proof.
  unfold digit_val, digit_char, Str.is_digit.
  destruct (_ && _) eqn:E; [|done]. intros [= <-].
  apply andb_true_iff in E as [E1 E2].
  apply Nat.leb_le in E1, E2. split; [lia|].
  rewrite Z.mod_small by lia.
  replace (Z.to_nat (48 + (Z.of_nat (nat_of_ascii c) - 48))) with (nat_of_ascii c) by lia.
  apply ascii_nat_embedding.
Qed.

Lemma nat_of_digit_char (x : Z) :
  nat_of_ascii (digit_char x) = Z.to_nat (48 + x mod 10).
Proof.
  unfold digit_char. apply nat_ascii_embedding.
  pose proof (Z.mod_pos_bound x 10). lia.
Qed.

Lemma digit_val_digit_char (x : Z) : digit_val (digit_char x) = Some (x mod 10).
Proof.
  unfold digit_val, Str.is_digit. rewrite nat_of_digit_char.
  pose proof (Z.mod_pos_bound x 10 ltac:(lia)).
  destruct (_ && _) eqn:E.
  - f_equal. lia.
  - apply andb_false_iff in E as [E|E]; apply Nat.leb_gt in E; lia.
Qed.

Lemma ascii_compare_digit_char (x y : Z) :
  Ascii.compare (digit_char x) (digit_char y) = Z.compare (x mod 10) (y mod 10).
Proof.
  unfold Ascii.compare.
  pose proof (Z.mod_pos_bound x 10 ltac:(lia)).
  pose proof (Z.mod_pos_bound y 10 ltac:(lia)).
  assert (forall z, N_of_ascii (digit_char z) = Z.to_N (48 + z mod 10)) as HN.
  { intros z. pose proof (Z.mod_pos_bound z 10 ltac:(lia)).
    unfold digit_char, ascii_of_nat. rewrite N_ascii_embedding; lia. }
  rewrite !HN.
  destruct (Z.compare_spec (x mod 10) (y mod 10)) as [E|E|E].
  - rewrite E. apply N.compare_refl.
  - apply N.compare_lt_iff. lia.
  - apply N.compare_gt_iff. lia.
Qed.

Lemma valid_bounds (d : date) :
  valid d = true ->
  1 <= year d <= 9999 /\ 1 <= month d <= 12 /\
  1 <= day d <= days_in_month (year d) (month d) /\ day d <= 31.
Proof.
  unfold valid. rewrite !andb_true_iff, !Z.leb_le. intros [[[[[? ?] ?] ?] ?] ?].
  repeat split; try lia.
  unfold days_in_month in *.
  repeat case_match; lia.
Qed.

Lemma num2_pad (n : Z) :
  0 <= n <= 99 -> num2 (digit_char (n / 10)) (digit_char n) = Some n.
Proof.
  intros Hn. unfold num2. rewrite !digit_val_digit_char. f_equal.
  rewrite (Z.mod_small (n / 10)) by (split; [apply Z.div_pos; lia | apply Z.div_lt_upper_bound; lia]).
  pose proof (Z.div_mod n 10 ltac:(lia)). lia.
Qed.

Lemma num4_pad (n : Z) :
  0 <= n <= 9999 ->
  num4 (digit_char (n / 1000)) (digit_char (n / 100))
       (digit_char (n / 10)) (digit_char n) = Some n.
Proof.
  intros Hn. unfold num4, num2. rewrite !digit_val_digit_char. f_equal.
  Z.div_mod_to_equations. lia.
Qed.

(** Reading back a printed date gives the date. *)
Lemma parse_calendar_isoformat (d : date) :
  valid d = true -> parse_calendar (isoformat d) = Some d.
Proof.
  intros Hv. pose proof (valid_bounds d Hv) as (Hy & Hm & Hd & Hd').
  unfold parse_calendar, isoformat, pad4, pad2. simpl.
  rewrite num4_pad, !num2_pad by lia.
  destruct d as [y m dd]; simpl in *. by rewrite Hv.
Qed.

Lemma num2_inv (a b : ascii) (n : Z) :
  num2 a b = Some n -> 0 <= n <= 99 /\ digit_char (n / 10) = a /\ digit_char n = b.
Proof.
  unfold num2. destruct (digit_val a) as [x|] eqn:Ea; [|done].
  destruct (digit_val b) as [y|] eqn:Eb; [|done]. intros [= <-].
  apply digit_val_range in Ea as [Hx <-], Eb as [Hy <-].
  split; [lia|]. unfold digit_char. split; do 2 f_equal; Z.div_mod_to_equations; lia.
Qed.

Lemma num4_inv (a b c d : ascii) (n : Z) :
  num4 a b c d = Some n ->
  0 <= n <= 9999 /\ digit_char (n / 1000) = a /\ digit_char (n / 100) = b /\
  digit_char (n / 10) = c /\ digit_char n = d.
Proof.
  unfold num4. destruct (num2 a b) as [x|] eqn:Ea; [|done].
  destruct (num2 c d) as [y|] eqn:Eb; [|done]. intros [= <-].
  unfold num2 in Ea, Eb.
  destruct (digit_val a) as [xa|] eqn:Ea1; [|done].
  destruct (digit_val b) as [xb|] eqn:Ea2; [|done].
  destruct (digit_val c) as [xc|] eqn:Eb1; [|done].
  destruct (digit_val d) as [xd|] eqn:Eb2; [|done].
  injection Ea as <-. injection Eb as <-.
  apply digit_val_range in Ea1 as [? <-], Ea2 as [? <-], Eb1 as [? <-], Eb2 as [? <-].
  split; [lia|]. unfold digit_char.
  repeat split; do 2 f_equal; Z.div_mod_to_equations; lia.
Qed.

(** A text that reads as a date is that date's printed form. *)
Lemma isoformat_parse_calendar (s : string) (d : date) :
  parse_calendar s = Some d -> isoformat d = s /\ valid d = true.
Proof.
  unfold parse_calendar. intros H.
  rewrite <- (string_of_list_ascii_of_string s).
  destruct (list_ascii_of_string s) as [|y1 [|y2 [|y3 [|y4 [|c1 [|m1 [|m2 [|c2 [|d1 [|d2 [|? ?]]]]]]]]]]];
    try done.
  all: repeat match type of H with
       | match ?c with Ascii _ _ _ _ _ _ _ _ => _ end = _ => destruct c as [[] [] [] [] [] [] [] []]; try done
       end.
  destruct (num4 y1 y2 y3 y4) as [y|] eqn:Ey; [|done].
  destruct (num2 m1 m2) as [m|] eqn:Em; [|done].
  destruct (num2 d1 d2) as [dd|] eqn:Ed; [|done].
  destruct (valid (mkdate y m dd)) eqn:Ev; [|done].
  injection H as <-. split; [|done].
  apply num4_inv in Ey as (_ & <- & <- & <- & <-).
  apply num2_inv in Em as (_ & <- & <-).
  apply num2_inv in Ed as (_ & <- & <-).
  reflexivity.
Qed.

(** The calendar texts are the texts [parse_calendar] reads, and it is a
    reader as [reads_calendar] asks for. *)
Lemma calendar_text_parse (s : string) (d : date) :
  calendar_text s d <-> parse_calendar s = Some d.
Proof.
  unfold calendar_text. split.
  - intros [Hv ->]. by apply parse_calendar_isoformat.
  - intros H. by apply isoformat_parse_calendar in H as [<- ?].
Qed.

Lemma parse_calendar_reads : reads_calendar parse_calendar.
Proof. intros d Hv. by apply parse_calendar_isoformat. Qed.

(** On printed dates the order of texts is the order of days. *)
Lemma compare_isoformat (a b : date) :
  valid a = true -> valid b = true ->
  String.compare (isoformat a) (isoformat b) = Z.compare (ordinal_key a) (ordinal_key b).
Proof.
  intros Ha Hb.
  pose proof (valid_bounds a Ha) as (Hya & Hma & Hda & Hda').
  pose proof (valid_bounds b Hb) as (Hyb & Hmb & Hdb & Hdb').
  unfold isoformat, pad4, pad2, ordinal_key. simpl.
  destruct a as [ya ma da], b as [yb mb db]; simpl in *.
  rewrite !ascii_compare_digit_char.
  repeat match goal with
  | |- context [Z.compare (?x mod 10) (?y mod 10)] =>
      destruct (Z.compare_spec (x mod 10) (y mod 10))
  end.
  all: symmetry; first [apply Z.compare_eq_iff | apply Z.compare_lt_iff | apply Z.compare_gt_iff].
  all: Z.div_mod_to_equations; lia.
Qed.

Lemma ltb_isoformat (a b : date) :
  valid a = true -> valid b = true ->
  String.ltb (isoformat a) (isoformat b) = false -> le b a.
Proof.
  intros Ha Hb. unfold String.ltb, le. rewrite compare_isoformat by done.
  destruct (Z.compare_spec (ordinal_key a) (ordinal_key b)); try done; lia.
Qed.

(** [add_one_day] keeps dates valid and moves to the next day, never
    skipping one: no valid date lies strictly between. *)
Lemma add_one_day_valid (d d' : date) :
  valid d = true -> add_one_day d = Some d' -> valid d' = true.
Proof.
  intros Hv. pose proof (valid_bounds d Hv) as (Hy & Hm & Hd & _).
  unfold add_one_day. destruct d as [y m dd]; simpl in *.
  repeat case_match; try done; intros [= <-]; unfold valid; simpl;
    rewrite !andb_true_iff, !Z.leb_le; repeat split; try lia.
  all: unfold days_in_month; repeat case_match; lia.
Qed.

Lemma add_one_day_next (d d' : date) :
  valid d = true -> add_one_day d = Some d' ->
  ordinal_key d < ordinal_key d' /\
  forall x, valid x = true -> ordinal_key d < ordinal_key x -> ordinal_key d' <= ordinal_key x.
Proof.
  intros Hv. pose proof (valid_bounds d Hv) as (Hy & Hm & Hd & Hd').
  unfold add_one_day, ordinal_key. destruct d as [y m dd]; simpl in *.
  repeat case_match; try done; intros [= <-]; simpl; (split; [lia|]);
    intros x Hx; pose proof (valid_bounds x Hx) as (Hyx & Hmx & Hdx & Hdx'); 
    destruct x as [yx mx dx]; simpl in *; intros Hlt.
  - lia.
  - assert (dd = days_in_month y m) as -> by lia.
    destruct (decide (yx = y /\ mx = m)) as [[-> ->]|Hne]; lia.
  - assert (dd = days_in_month y m) as -> by lia.
    assert (m = 12) as -> by lia.
    destruct (decide (yx = y /\ mx = 12)) as [[-> ->]|Hne]; lia.
Qed.

Lemma add_one_day_overflow (d : date) :
  valid d = true -> add_one_day d = None -> d = mkdate 9999 12 31.
Proof.
  intros Hv. pose proof (valid_bounds d Hv) as (Hy & Hm & Hd & Hd').
  unfold add_one_day. destruct d as [y m dd]; simpl in *.
  repeat case_match; try done. intros _.
  assert (m = 12) as -> by lia. assert (y = 9999) as -> by lia.
  f_equal. change (days_in_month 9999 12) with 31 in *. lia.
Qed.

End DatesFacts.

(** ** MergeEngine (art_coin.py) *)

Module MergeFacts.

Import ArtCoin.

Lemma cell_upsert (t : table) (d m tok : string) (v : float) (d' s tok' : string) :
  cell (upsert t d m tok v) d' s tok' =
  if decide (d = d' /\ m = s /\ tok = tok') then Some v else cell t d' s tok'.
Proof.
  unfold cell, upsert. destruct (decide ((d, m) = (d', s))) as [[= <- <-]|Hk].
  - rewrite lookup_insert_eq. simpl.
    destruct (decide (tok = tok')) as [<-|Ht].
    + rewrite lookup_insert_eq. by rewrite decide_True.
    + rewrite lookup_insert_ne by done. rewrite decide_False by naive_solver.
      by destruct (t !! (d, m)).
  - rewrite lookup_insert_ne by done. rewrite decide_False; [done|].
    intros (-> & -> & _). done.
Qed.

Section Frame.

Variables (metric d s tok : string).

Lemma merge_series_cell (tok0 : string) (series : list point) (t : table) (v' : float) :
  cell (merge_series metric tok0 t series) d s tok = Some v' ->
  cell t d s tok = Some v' \/ (s = metric /\ tok0 = tok /\ (d, v') ∈ series).
Proof.
  revert t. induction series as [|[d0 v0] series IH]; intros t; simpl; [auto|].
  intros H. apply IH in H as [H|(-> & -> & Hin)].
  - rewrite cell_upsert in H. simpl in H. case_decide as Hd.
    + destruct Hd as (-> & -> & ->). injection H as ->. right. repeat split. by left.
    + by left.
  - right. repeat split. by right.
Qed.

Lemma merge_series_frame (tok0 : string) (series : list point) (t : table) :
  ~ (s = metric /\ tok0 = tok /\ exists v', (d, v') ∈ series) ->
  cell (merge_series metric tok0 t series) d s tok = cell t d s tok.
Proof.
  revert t. induction series as [|[d0 v0] series IH]; intros t Hno; simpl; [done|].
  rewrite IH.
  - rewrite cell_upsert. simpl. case_decide as Hd; [|done].
    destruct Hd as (-> & -> & ->). destruct Hno. repeat split. exists v0. by left.
  - intros (-> & -> & v' & Hin). apply Hno. repeat split. exists v'. by right.
Qed.

Lemma merge_series_keeps (tok0 : string) (series : list point) (t : table) :
  is_Some (cell t d s tok) -> is_Some (cell (merge_series metric tok0 t series) d s tok).
Proof.
  revert t. induction series as [|[d0 v0] series IH]; intros t H; simpl; [done|].
  apply IH. rewrite cell_upsert. by case_decide.
Qed.

Lemma merge_cell (p : payload) (t : table) (v' : float) :
  cell (merge t metric p) d s tok = Some v' ->
  cell t d s tok = Some v' \/
  (s = metric /\ exists series, (tok, series) ∈ p /\ (d, v') ∈ series).
Proof.
  unfold merge. revert t. induction p as [|[tok0 series] p IH]; intros t; simpl; [auto|].
  intros H. apply IH in H as [H|(-> & series' & Hin & Hd)].
  - apply merge_series_cell in H as [H|(-> & -> & Hin)]; [by left|].
    right. split; [done|]. exists series. split; [by left|done].
  - right. split; [done|]. exists series'. split; [by right|done].
Qed.

Lemma merge_frame (p : payload) (t : table) :
  ~ (s = metric /\ supplies p tok d) ->
  cell (merge t metric p) d s tok = cell t d s tok.
Proof.
  unfold merge, supplies. revert t.
  induction p as [|[tok0 series] p IH]; intros t Hno; simpl; [done|].
  rewrite IH.
  - apply merge_series_frame. intros (-> & -> & v' & Hin). apply Hno.
    split; [done|]. exists series, v'. split; [by left|done].
  - intros (-> & series' & v' & Hin & Hd). apply Hno.
    split; [done|]. exists series', v'. split; [by right|done].
Qed.

Lemma merge_keeps (p : payload) (t : table) :
  is_Some (cell t d s tok) -> is_Some (cell (merge t metric p) d s tok).
Proof.
  unfold merge. revert t. induction p as [|[tok0 series] p IH]; intros t H; simpl; [done|].
  apply IH. by apply merge_series_keeps.
Qed.

End Frame.

(** The rows of another series are not touched. *)
Lemma merge_other_series (metric d s : string) (p : payload) (t : table) :
  s <> metric -> merge t metric p !! (d, s) = t !! (d, s).
Proof.
  intros Hs. unfold merge. revert t.
  induction p as [|[tok0 series] p IH]; intros t; simpl; [done|].
  rewrite IH. unfold merge_series. clear IH. revert t.
  induction series as [|[d0 v0] series IH]; intros t; simpl; [done|].
  rewrite IH. unfold upsert. simpl. apply lookup_insert_ne. congruence.
Qed.

(** A merge creates rows only on the dates it was given. *)
Lemma merge_rows (metric d s : string) (p : payload) (t : table) :
  is_Some (merge t metric p !! (d, s)) ->
  is_Some (t !! (d, s)) \/
  (s = metric /\ exists tok series v, (tok, series) ∈ p /\ (d, v) ∈ series).
Proof.
  unfold merge. revert t. induction p as [|[tok0 series] p IH]; intros t; simpl; [auto|].
  intros H. apply IH in H as [H|(-> & tok & series' & v & Hin & Hd)].
  - assert (forall ser t0, is_Some (merge_series metric tok0 t0 ser !! (d, s)) ->
              is_Some (t0 !! (d, s)) \/ (s = metric /\ exists v, (d, v) ∈ ser)) as Hser.
    { clear. induction ser as [|[d0 v0] ser IH]; intros t0; simpl; [auto|].
      intros H. apply IH in H as [H|(-> & v & Hin)].
      - unfold upsert in H. simpl in H.
        apply lookup_insert_is_Some in H as [[= <- <-]|[_ H]]; [|by left].
        right. split; [done|]. exists v0. by left.
      - right. split; [done|]. exists v. by right. }
    apply Hser in H as [H|(-> & v & Hin)]; [by left|].
    right. split; [done|]. exists tok0, series, v. split; [by left|done].
  - right. split; [done|]. exists tok, series', v. split; [by right|done].
Qed.

(** C8. A value present after merging [A] is still present after merging
    [B] on top: it is unchanged unless [B] supplies a value at that very
    (date, series, entity), and then the cell holds a value [B] supplied. *)
Theorem merge_additive (t : table) (mA mB : string) (A B : payload)
    (d s tok : string) (v : float) :
  cell (merge t mA A) d s tok = Some v ->
  is_Some (cell (merge (merge t mA A) mB B) d s tok) /\
  (~ (s = mB /\ supplies B tok d) ->
     cell (merge (merge t mA A) mB B) d s tok = Some v) /\
  (forall v', cell (merge (merge t mA A) mB B) d s tok = Some v' ->
     v' = v \/ (s = mB /\ exists series, (tok, series) ∈ B /\ (d, v') ∈ series)).
Proof.
  intros Hv. split; [|split].
  - apply merge_keeps. by rewrite Hv.
  - intros Hno. by rewrite merge_frame.
  - intros v' H. apply merge_cell in H as [H|H]; [|by right].
    left. congruence.
Qed.

(** An instance: a later payload for ETH leaves the BTC value of the
    scenario in place. *)
Lemma merge_additive_witness :
  cell (merge Scenario.merged "price" [("ETH", [("2024-01-02", float_of_Z 120)])])
       "2024-01-01" "price" "BTC" = Some (float_of_Z 40000).
Proof.
  refine (proj1 (proj2 (merge_additive ∅ "price" "price" Scenario.fetched
            [("ETH", [("2024-01-02", float_of_Z 120)])]
            "2024-01-01" "price" "BTC" (float_of_Z 40000) _)) _).
  - vm_compute. reflexivity.
  - intros [_ (series & v' & Hin & _)].
    apply list_elem_of_singleton in Hin. discriminate Hin.
Defined.

End MergeFacts.

(** ** ResumePolicy (art_coin.py) *)

Module ResumeFacts.

Import ArtCoin.

Lemma has_any_spec (t : table) (metric tok : string) :
  has_any t metric tok = true <-> has_value t metric tok.
Proof.
  unfold has_any, has_value. rewrite existsb_exists. split.
  - intros [[[d m] r] [Hin H]]. apply list_elem_of_In, elem_of_map_to_list in Hin.
    apply andb_true_iff in H as [H1 H2].
    apply bool_decide_eq_true in H1, H2. simpl in *. subst m. eauto.
  - intros (d & r & Hr & Htok). exists ((d, metric), r). split.
    + by apply list_elem_of_In, elem_of_map_to_list.
    + simpl. by rewrite !bool_decide_eq_true_2.
Qed.

Lemma metric_dates_spec (t : table) (metric d : string) :
  d ∈ (filter (fun k : string * string => k.2 = metric) (map_to_list t).*1).*1
  <-> is_Some (t !! (d, metric)).
Proof.
  rewrite list_elem_of_fmap. split.
  - intros [[d' m] [-> Hin]]. apply list_elem_of_filter in Hin as [Hm Hin].
    simpl in *. subst m. apply list_elem_of_fmap in Hin as [[k r] [-> Hin]].
    apply elem_of_map_to_list in Hin. simpl. eauto.
  - intros [r Hr]. exists (d, metric). split; [done|].
    apply list_elem_of_filter. split; [done|].
    apply list_elem_of_fmap. exists ((d, metric), r). split; [done|].
    by apply elem_of_map_to_list.
Qed.

Lemma metric_max_date_None (t : table) (metric : string) :
  metric_max_date t metric = None <-> ~ has_rows t metric.
Proof.
  unfold metric_max_date, has_rows.
  pose proof (metric_dates_spec t metric) as Hspec.
  destruct ((filter _ _).*1) as [|d rest].
  - split; [|done]. intros _ [d Hd]. apply Hspec in Hd. by apply elem_of_nil in Hd.
  - split; [done|]. intros H. destruct H. exists d. apply Hspec. by left.
Qed.

(** The text [max] returns is a date of the series that no other date of
    the series exceeds. *)
Lemma metric_max_date_Some (t : table) (metric dmax : string) :
  metric_max_date t metric = Some dmax ->
  is_Some (t !! (dmax, metric)) /\
  forall d, is_Some (t !! (d, metric)) -> String.ltb dmax d = false.
Proof.
  unfold metric_max_date.
  pose proof (metric_dates_spec t metric) as Hspec.
  destruct ((filter _ _).*1) as [|d rest]; [done|]. intros [= <-].
  destruct (StrFacts.foldl_max_spec rest d) as [Hin Hmax]. split.
  - by apply Hspec.
  - intros d' Hd'. apply Hmax. by apply Hspec.
Qed.

(** The greatest date text is what [max] returns. *)
Lemma greatest_text_max (t : table) (metric dmax : string) :
  greatest_text t metric dmax -> metric_max_date t metric = Some dmax.
Proof.
  intros [Hrow Hmax].
  destruct (metric_max_date t metric) as [a|] eqn:E.
  - apply metric_max_date_Some in E as [Ha Hmax'].
    f_equal. apply StrFacts.ltb_antisym; auto.
  - apply metric_max_date_None in E. destruct E. by exists dmax.
Qed.

(** With calendar dates throughout, that text is the latest day. *)
Lemma metric_max_date_latest (t : table) (metric : string) (D : Dates.date) :
  latest_date t metric D -> metric_max_date t metric = Some (Dates.isoformat D).
Proof.
  intros [(d0 & Hd0 & Hv & ->) Hall].
  destruct (metric_max_date t metric) as [dmax|] eqn:E.
  - apply metric_max_date_Some in E as [Hrow Hmax].
    destruct (Hall dmax Hrow) as (Dm & [Hvm ->] & Hle).
    specialize (Hmax _ Hd0).
    apply DatesFacts.ltb_isoformat in Hmax; [|done..].
    unfold Dates.le in *.
    assert (String.compare (Dates.isoformat Dm) (Dates.isoformat D) = Eq) as Heq.
    { rewrite DatesFacts.compare_isoformat by done. apply Z.compare_eq_iff. lia. }
    apply String.compare_eq_iff in Heq. by rewrite Heq.
  - apply metric_max_date_None in E. destruct E. by exists (Dates.isoformat D).
Qed.

Lemma tokens_missing_nil (t : table) (metric : string) (tokens : list string) :
  tokens_missing t metric tokens = [] <-> forall tok, tok ∈ tokens -> has_value t metric tok.
Proof.
  unfold tokens_missing. induction tokens as [|x l IH]; simpl.
  - split; [|done]. intros _ tok H. by apply elem_of_nil in H.
  - destruct (has_any t metric x) eqn:E; simpl.
    + rewrite IH. apply has_any_spec in E. split.
      * intros H tok [->|Hin]%elem_of_cons; auto.
      * intros H tok Hin. apply H. by right.
    + split; [done|]. intros H. assert (has_value t metric x) as Hx by (apply H; left).
      apply has_any_spec in Hx. congruence.
Qed.

(** *** The start date is decided by the rows of its series alone *)

Lemma metric_max_date_ext (t1 t2 : table) (metric : string) :
  (forall d, t1 !! (d, metric) = t2 !! (d, metric)) ->
  metric_max_date t1 metric = metric_max_date t2 metric.
Proof.
  intros H.
  destruct (metric_max_date t1 metric) as [a|] eqn:E1,
           (metric_max_date t2 metric) as [b|] eqn:E2; [| | |done].
  - apply metric_max_date_Some in E1 as [Ha Hmax1], E2 as [Hb Hmax2].
    rewrite H in Ha. rewrite <- H in Hb.
    f_equal. apply StrFacts.ltb_antisym; auto.
  - apply metric_max_date_Some in E1 as [Ha _]. apply metric_max_date_None in E2.
    destruct E2. exists a. by rewrite <- H.
  - apply metric_max_date_Some in E2 as [Hb _]. apply metric_max_date_None in E1.
    destruct E1. exists b. by rewrite H.
Qed.

Lemma has_any_ext (t1 t2 : table) (metric tok : string) :
  (forall d, t1 !! (d, metric) = t2 !! (d, metric)) ->
  has_any t1 metric tok = has_any t2 metric tok.
Proof.
  intros H. apply Bool.eq_true_iff_eq. rewrite !has_any_spec. unfold has_value.
  split; intros (d & r & Hr & Htok); exists d, r.
  - by rewrite <- H.
  - by rewrite H.
Qed.

Lemma effective_start_ext (fromisoformat : string -> option Dates.date)
    (t1 t2 : table) (metric : string) (tokens : list string) :
  (forall d, t1 !! (d, metric) = t2 !! (d, metric)) ->
  effective_start fromisoformat t1 metric tokens
    = effective_start fromisoformat t2 metric tokens.
Proof.
  intros H. unfold effective_start, tokens_missing.
  rewrite (metric_max_date_ext t1 t2) by done.
  rewrite (List.filter_ext _ (fun tok => negb (has_any t2 metric tok))); [done|].
  intros tok. by rewrite (has_any_ext t1 t2).
Qed.

(** *** The requests of a run *)

Lemma requests_of_range (client : request -> response) (metric start end_ : string)
    (batches : list (list string)) (rq : request) :
  rq ∈ requests_of client metric start end_ batches ->
  rq_metric rq = metric /\ rq_start rq = start /\ rq_end rq = end_.
Proof.
  induction batches as [|b rest IH]; simpl; [by intros ?%elem_of_nil|].
  intros [->|Hin]%elem_of_cons; [done|].
  destruct (client _); try by apply elem_of_nil in Hin. auto.
Qed.

(** The first request for a series asks for its first hundred symbols. *)
Lemma requests_of_first (client : request -> response) (metric start end_ : string)
    (tokens : list string) :
  tokens <> [] ->
  mkreq metric (Str.join "," (take 100 tokens)) start end_
    ∈ requests_of client metric start end_ (chunk tokens 100).
Proof.
  destruct tokens as [|x l]; [done|]. intros _.
  unfold chunk. cbn [length chunk_fuel requests_of]. by left.
Qed.

Section Requests.

Variable fromisoformat : string -> option Dates.date.
Variable client : request -> response.
Variables (today : string) (tokens : list string).

Lemma run_metrics_end_date (metrics : list string) (t : table) (log : list request) :
  (forall rq, rq ∈ log -> rq_end rq = today) ->
  forall rq, rq ∈ (run_metrics fromisoformat client today tokens metrics t log).2 ->
    rq_end rq = today.
Proof.
  revert t log. induction metrics as [|m rest IH]; intros t log Hlog; simpl; [done|].
  destruct (effective_start fromisoformat t m tokens) as [start|e]; simpl; [|done].
  assert (forall rq, rq ∈ log ++ requests_of client m start today (chunk tokens 100) ->
                     rq_end rq = today) as Hlog'.
  { intros rq [H|H]%elem_of_app; [auto|]. by apply requests_of_range in H as (_ & _ & ?). }
  destruct (fetch_metric_for_tokens client m tokens start today); simpl; [|done].
  by apply IH.
Qed.

(** The log only grows. *)
Lemma run_metrics_log (metrics : list string) (t : table) (log : list request)
    (rq : request) :
  rq ∈ log -> rq ∈ (run_metrics fromisoformat client today tokens metrics t log).2.
Proof.
  revert t log. induction metrics as [|m rest IH]; intros t log Hrq; simpl; [done|].
  destruct (effective_start fromisoformat t m tokens) as [start|e]; simpl; [|done].
  destruct (fetch_metric_for_tokens client m tokens start today); simpl.
  - apply IH, elem_of_app. by left.
  - apply elem_of_app. by left.
Qed.

(** Every request carries the start date computed for its series from the
    table the run loaded: the merges of the series before it leave the rows
    of the series as they were. *)
Lemma run_metrics_start (metrics : list string) (t : table) (log : list request)
    (rq : request) :
  NoDup metrics ->
  rq ∈ (run_metrics fromisoformat client today tokens metrics t log).2 ->
  rq ∈ log \/
  (rq_metric rq ∈ metrics /\
   effective_start fromisoformat t (rq_metric rq) tokens = Ok (rq_start rq)).
Proof.
  revert t log. induction metrics as [|m rest IH]; intros t log Hnd; simpl; [auto|].
  apply NoDup_cons in Hnd as [Hm Hnd].
  destruct (effective_start fromisoformat t m tokens) as [start|e] eqn:Es; simpl; [|auto].
  assert (rq ∈ log ++ requests_of client m start today (chunk tokens 100) ->
          rq ∈ log \/
          (rq_metric rq ∈ m :: rest /\
           effective_start fromisoformat t (rq_metric rq) tokens = Ok (rq_start rq))) as Hlog.
  { intros [H|H]%elem_of_app; [auto|].
    apply requests_of_range in H as (-> & -> & _). right. split; [by left|done]. }
  destruct (fetch_metric_for_tokens client m tokens start today) as [p|e]; simpl; [|done].
  intros H. apply (IH _ _ Hnd) in H as [H|[Hin Hstart]]; [auto|].
  right. split; [by right|]. rewrite <- Hstart. symmetry.
  apply effective_start_ext. intros d. apply MergeFacts.merge_other_series.
  intros E. by rewrite E in Hin.
Qed.

(** A loop that ran to its end has asked for every series, from the start
    date of the series. *)
Lemma run_metrics_requested (metrics : list string) (t t' : table)
    (log log' : list request) (m : string) :
  NoDup metrics -> tokens <> [] ->
  run_metrics fromisoformat client today tokens metrics t log = (Ok t', log') ->
  m ∈ metrics ->
  exists start, effective_start fromisoformat t m tokens = Ok start /\
    mkreq m (Str.join "," (take 100 tokens)) start today ∈ log'.
Proof.
  intros Hnd Htok. revert t log.
  induction metrics as [|m0 rest IH]; intros t log; simpl; [by intros _ ?%elem_of_nil|].
  apply NoDup_cons in Hnd as [Hm0 Hnd].
  destruct (effective_start fromisoformat t m0 tokens) as [start0|e] eqn:Es; [|done].
  destruct (fetch_metric_for_tokens client m0 tokens start0 today) as [p|e]; [|done].
  intros Hrun [->|Hin]%elem_of_cons.
  - exists start0. split; [done|].
    replace log' with
      (run_metrics fromisoformat client today tokens rest (merge t m0 p)
         (log ++ requests_of client m0 start0 today (chunk tokens 100))).2
      by (by rewrite Hrun).
    apply run_metrics_log, elem_of_app. right. by apply requests_of_first.
  - destruct (IH Hnd _ _ Hrun Hin) as (start & Hstart & Hrq).
    exists start. split; [|done]. rewrite <- Hstart. symmetry.
    apply effective_start_ext. intros d. apply MergeFacts.merge_other_series.
    intros ->. done.
Qed.

End Requests.

(** C1. The fetch range of a series, for every reading of dates that reads
    the calendar texts. When the series has no rows the start date is
    1970-01-01. When its rows are all dated by calendar texts, [D] being the
    latest day, and [D] has a next day [D']: the start date is [D'] if every
    requested entity has a value under the series, and 1970-01-01 if some
    requested entity has none. Whatever the date texts are, the greatest of
    them decides: no start date is computed when it does not read as a date
    ([ValueError]) or reads as a day with no next day ([OverflowError]), and
    otherwise the start date is the next day of the day it reads as, or
    1970-01-01 if some requested entity has no value. Every request of a run
    ends today; and in a run over series that are listed once, every request
    for the series carries the start date so computed from the table the run
    loaded, and a run that reaches its write has sent such a request. *)
Theorem resume_start_date (fromisoformat : string -> option Dates.date)
    (t : table) (series : string) :
  Dates.reads_calendar fromisoformat ->
  (forall tokens,
     (~ has_rows t series -> effective_start fromisoformat t series tokens = Ok EARLIEST) /\
     (forall D D', latest_date t series D -> Dates.add_one_day D = Some D' ->
        ((forall tok, tok ∈ tokens -> has_value t series tok) ->
           effective_start fromisoformat t series tokens = Ok (Dates.isoformat D')) /\
        ((exists tok, tok ∈ tokens /\ ~ has_value t series tok) ->
           effective_start fromisoformat t series tokens = Ok EARLIEST)) /\
     (forall dmax, greatest_text t series dmax ->
        match fromisoformat dmax with
        | None => effective_start fromisoformat t series tokens = Raise ValueError
        | Some D =>
            match Dates.add_one_day D with
            | None => effective_start fromisoformat t series tokens = Raise OverflowError
            | Some D' =>
                ((forall tok, tok ∈ tokens -> has_value t series tok) ->
                   effective_start fromisoformat t series tokens = Ok (Dates.isoformat D')) /\
                ((exists tok, tok ∈ tokens /\ ~ has_value t series tok) ->
                   effective_start fromisoformat t series tokens = Ok EARLIEST)
            end
        end)) /\
  (forall client TOKENS METRICS today,
     let tokens := List.map Str.upper TOKENS in
     let o := run fromisoformat client TOKENS METRICS t today in
     (forall rq, rq ∈ sent o -> rq_end rq = today) /\
     (NoDup METRICS ->
        (forall rq, rq ∈ sent o -> rq_metric rq = series ->
           effective_start fromisoformat t series tokens = Ok (rq_start rq)) /\
        (series ∈ METRICS -> TOKENS <> [] -> is_Some (written o) ->
           exists start, effective_start fromisoformat t series tokens = Ok start /\
             mkreq series (Str.join "," (take 100 tokens)) start today ∈ sent o))).
Proof.
  intros Hcal.
  assert (forall tokens dmax D D',
            metric_max_date t series = Some dmax -> fromisoformat dmax = Some D ->
            Dates.add_one_day D = Some D' ->
            ((forall tok, tok ∈ tokens -> has_value t series tok) ->
               effective_start fromisoformat t series tokens = Ok (Dates.isoformat D')) /\
            ((exists tok, tok ∈ tokens /\ ~ has_value t series tok) ->
               effective_start fromisoformat t series tokens = Ok EARLIEST)) as Hnext.
  { intros tokens dmax D D' Hmax HD Hnext.
    unfold effective_start. rewrite Hmax. simpl. rewrite HD, Hnext. simpl. split.
    - intros Hall. apply tokens_missing_nil in Hall. by rewrite Hall.
    - intros (tok & Hin & Hno).
      destruct (tokens_missing t series tokens) eqn:E; [|done].
      destruct Hno. eapply tokens_missing_nil; eauto. }
  split; [intros tokens; split; [|split]|].
  - intros Hnone. apply metric_max_date_None in Hnone.
    unfold effective_start. by rewrite Hnone.
  - intros D D' Hlatest. apply Hnext with (dmax := Dates.isoformat D).
    + by apply metric_max_date_latest.
    + apply Hcal. by destruct Hlatest as [(d0 & _ & ? & _) _].
  - intros dmax Hmax. apply greatest_text_max in Hmax.
    destruct (fromisoformat dmax) as [D|] eqn:HD.
    + destruct (Dates.add_one_day D) as [D'|] eqn:HD'; [by eapply Hnext|].
      unfold effective_start. rewrite Hmax. simpl. by rewrite HD, HD'.
    + unfold effective_start. rewrite Hmax. simpl. by rewrite HD.
  - intros client TOKENS METRICS today tokens o. subst o tokens. unfold run.
    pose proof (run_metrics_end_date fromisoformat client today
                  (List.map Str.upper TOKENS) METRICS t []) as Hend.
    pose proof (fun rq => run_metrics_start fromisoformat client today
                  (List.map Str.upper TOKENS) METRICS t [] rq) as Hstart.
    pose proof (fun t' log' => run_metrics_requested fromisoformat client today
                  (List.map Str.upper TOKENS) METRICS t t' [] log' series) as Hreq.
    destruct (run_metrics _ _ _ _ _ _ _) as [[t'|e] log]; simpl in *.
    + split; [intros rq Hin; apply Hend; [by intros ? ?%elem_of_nil|done]|].
      intros Hnd. split.
      * intros rq Hin <-.
        destruct (Hstart rq Hnd Hin) as [H|[_ H]]; [by apply elem_of_nil in H|done].
      * intros Hin Htok _. apply (Hreq t' log); try done.
        by destruct TOKENS.
    + split; [intros rq Hin; apply Hend; [by intros ? ?%elem_of_nil|done]|].
      intros Hnd. split.
      * intros rq Hin <-.
        destruct (Hstart rq Hnd Hin) as [H|[_ H]]; [by apply elem_of_nil in H|done].
      * by intros _ _ [? ?].
Qed.

Lemma scenario_latest_date :
  latest_date Scenario.merged "price" (Dates.mkdate 2024 1 2).
Proof.
  split.
  - exists "2024-01-02". split; [vm_compute; eauto | by split].
  - intros d H.
    destruct (MergeFacts.merge_rows "price" d "price" Scenario.fetched ∅ H)
      as [H'|(_ & tok & series & v & Hin & Hd)]; clear H; [rename H' into H|].
    + rewrite lookup_empty in H. by destruct H.
    + unfold Scenario.fetched in Hin.
      repeat (apply elem_of_cons in Hin as [[= -> ->]|Hin]);
        [..|by apply elem_of_nil in Hin];
        repeat (apply elem_of_cons in Hd as [[= -> ->]|Hd]);
        try (by apply elem_of_nil in Hd);
        eexists; (split; [apply DatesFacts.calendar_text_parse; reflexivity
                         | vm_compute; discriminate]).
Qed.

(** An instance, with the reader of calendar texts: with ETH and BTC
    requested the scenario resumes on 2024-01-03, and that is the start date
    of the request the run sends; with USDC added it starts over from
    1970-01-01. *)
Lemma resume_start_date_witness :
  effective_start Dates.parse_calendar Scenario.merged "price" ["ETH"; "BTC"]
    = Ok "2024-01-03" /\
  effective_start Dates.parse_calendar Scenario.merged "price" ["ETH"; "BTC"; "USDC"]
    = Ok "1970-01-01" /\
  mkreq "price" "ETH,BTC" "2024-01-03" "2024-01-05"
    ∈ sent (run Dates.parse_calendar Scenario.price_only_client ["eth"; "btc"] ["price"]
              Scenario.merged "2024-01-05").
Proof.
  destruct (resume_start_date Dates.parse_calendar Scenario.merged "price"
              DatesFacts.parse_calendar_reads) as [Hstart Hrun].
  assert (effective_start Dates.parse_calendar Scenario.merged "price" ["ETH"; "BTC"]
            = Ok "2024-01-03") as Hresume.
  { refine (proj1 (proj1 (proj2 (Hstart ["ETH"; "BTC"]))
              (Dates.mkdate 2024 1 2) (Dates.mkdate 2024 1 3) scenario_latest_date eq_refl) _).
    intros tok Htok. apply has_any_spec.
    repeat (apply elem_of_cons in Htok as [->|Htok]); [..|by apply elem_of_nil in Htok];
      vm_compute; reflexivity. }
  split; [exact Hresume|]. split.
  - refine (proj2 (proj1 (proj2 (Hstart ["ETH"; "BTC"; "USDC"]))
              (Dates.mkdate 2024 1 2) (Dates.mkdate 2024 1 3) scenario_latest_date eq_refl) _).
    clear Hrun Hresume. exists "USDC". split; [by do 2 right; left|].
    intros H. apply has_any_spec in H. vm_compute in H. discriminate H.
  - destruct (Hrun Scenario.price_only_client ["eth"; "btc"] ["price"] "2024-01-05")
      as [_ Hreq].
    destruct (proj2 (Hreq (NoDup_singleton "price"))) as (start & Hs & Hin).
    + by left.
    + discriminate.
    + vm_compute. eexists. reflexivity.
    + change (List.map Str.upper ["eth"; "btc"]) with ["ETH"; "BTC"] in Hs, Hin.
      rewrite Hresume in Hs. injection Hs as <-. exact Hin.
Defined.

(** C1 as stated fails on a table whose latest date has no next day to
    resume from. The table dated "2024-1-9" has a row of the series and a
    value for ETH, and no start date is computed, with BTC requested or
    without: reading the date raises [ValueError] and the run ends before
    its first request. On the table dated 9999-12-31 the next day does not
    exist and [OverflowError] is raised. *)
Lemma resume_start_date_counterexample :
  let t : table := {[ ("2024-1-9", "price") := {[ "ETH" := float_of_Z 100 ]} ]} in
  let t' : table := {[ ("9999-12-31", "price") := {[ "ETH" := float_of_Z 100 ]} ]} in
  (has_any t "price" "ETH" = true /\ has_any t "price" "BTC" = false /\
   effective_start Dates.parse_calendar t "price" ["ETH"] = Raise ValueError /\
   effective_start Dates.parse_calendar t "price" ["ETH"; "BTC"] = Raise ValueError /\
   run Dates.parse_calendar Scenario.price_only_client ["ETH"] ["price"] t "2024-01-10"
     = mkoutcome None [] (Some ValueError)) /\
  (has_any t' "price" "ETH" = true /\ has_any t' "price" "BTC" = false /\
   effective_start Dates.parse_calendar t' "price" ["ETH"] = Raise OverflowError /\
   effective_start Dates.parse_calendar t' "price" ["ETH"; "BTC"] = Raise OverflowError).
Proof. vm_compute. repeat split. Qed.

(** Where other texts are read as dates, the greatest date text need not be
    the latest day. The week text is greater than every calendar text of
    its year: with rows dated "2024-W01-1" and "2024-03-01" the start date
    is 2024-01-02. *)
Lemma resume_week_text :
  let t : table := {[ ("2024-W01-1", "price") := {[ "ETH" := float_of_Z 100 ]};
                      ("2024-03-01", "price") := {[ "ETH" := float_of_Z 110 ]} ]} in
  Dates.reads_calendar Scenario.week_reader /\
  metric_max_date t "price" = Some "2024-W01-1" /\
  effective_start Scenario.week_reader t "price" ["ETH"] = Ok "2024-01-02".
Proof.
  split; [|by vm_compute].
  intros d Hv. unfold Scenario.week_reader.
  by rewrite DatesFacts.parse_calendar_isoformat.
Qed.

End ResumeFacts.


(** ** KeyResolver (art_dat.py) *)

Module KeyResolverFacts.

Import KeyResolver.

Lemma foldl_norm_lookup (keys : list string) (m0 : gmap string string) (n k : string) :
  foldl (fun m k => <[norm k := k]> m) m0 keys !! n = Some k ->
  (k ∈ keys /\ norm k = n) \/ m0 !! n = Some k.
Proof.
  revert m0. induction keys as [|x keys IH]; intros m0; simpl; [auto|].
  intros H. apply IH in H as [[Hin Hn]|H].
  - left. split; [by right|done].
  - destruct (decide (norm x = n)) as [<-|Hne].
    + rewrite lookup_insert_eq in H. injection H as ->. left. split; [by left|done].
    + rewrite lookup_insert_ne in H by done. by right.
Qed.

Lemma foldl_norm_is_Some (keys : list string) (m0 : gmap string string) (n : string) :
  (is_Some (m0 !! n) \/ exists k, k ∈ keys /\ norm k = n) ->
  is_Some (foldl (fun m k => <[norm k := k]> m) m0 keys !! n).
Proof.
  revert m0. induction keys as [|x keys IH]; intros m0; simpl.
  - intros [H|(k & Hin & _)]; [done|]. by apply elem_of_nil in Hin.
  - intros [H|(k & Hin & Hn)]; apply IH.
    + left. destruct (decide (norm x = n)) as [<-|Hne].
      * rewrite lookup_insert_eq. eauto.
      * by rewrite lookup_insert_ne.
    + apply elem_of_cons in Hin as [->|Hin].
      * left. rewrite <- Hn, lookup_insert_eq. eauto.
      * right. eauto.
Qed.

(** The normalised index holds exactly the advertised keys. *)
Lemma avail_norm_of_Some (keys : list string) (n k : string) :
  avail_norm_of keys !! n = Some k -> k ∈ keys /\ norm k = n.
Proof.
  intros H. apply foldl_norm_lookup in H as [H|H]; [done|].
  by rewrite lookup_empty in H.
Qed.

Lemma avail_norm_of_is_Some (keys : list string) (n : string) :
  is_Some (avail_norm_of keys !! n) <-> exists k, k ∈ keys /\ norm k = n.
Proof.
  split.
  - intros [k Hk]. exists k. by apply avail_norm_of_Some.
  - intros H. apply foldl_norm_is_Some. by right.
Qed.

Lemma avail_norm_of_nil (n : string) : avail_norm_of [] !! n = None.
Proof. apply lookup_empty. Qed.

Lemma first_available_None (avail_norm : gmap string string) (candidates : list string) :
  (forall c, c ∈ candidates -> avail_norm !! norm c = None) ->
  first_available avail_norm candidates = None.
Proof.
  induction candidates as [|c l IH]; simpl; [done|]. intros H.
  rewrite (H c) by (by left). apply IH. intros c' Hc'. apply H. by right.
Qed.

Lemma first_available_Some (avail_norm : gmap string string) (candidates : list string)
    (k : string) :
  first_available avail_norm candidates = Some k ->
  exists c, c ∈ candidates /\ avail_norm !! norm c = Some k.
Proof.
  induction candidates as [|c l IH]; simpl; [done|].
  destruct (avail_norm !! norm c) as [k'|] eqn:E.
  - intros [= <-]. exists c. split; [by left|done].
  - intros H. destruct (IH H) as (c' & Hin & Hc'). exists c'. split; [by right|done].
Qed.

(** What [resolve] returns is never the empty text when neither the
    candidates nor the advertised keys contain it. *)
Lemma choose_key_nonempty (by_sym : gmap string (gmap string string))
    (sym : string) (available candidates : list string) (prior : option string) (K : string) :
  by_sym !! sym = Some (avail_norm_of available) ->
  "" ∉ available -> "" ∉ candidates ->
  choose_key_from_candidates by_sym sym candidates prior = Some K -> K <> "".
Proof.
  intros Hsym Ha Hc. unfold choose_key_from_candidates. rewrite Hsym. simpl.
  intros H ->.
  assert (forall n, avail_norm_of available !! n = Some "" -> False) as Hno.
  { intros n Hn. apply avail_norm_of_Some in Hn as [Hin _]. done. }
  destruct prior as [p|]; [destruct (Str.truthy p)|].
  1: destruct (avail_norm_of available !! norm p) as [k|] eqn:E;
       [injection H as ->; eauto|].
  all: destruct (first_available _ candidates) as [k|] eqn:E1;
    [injection H as ->; apply first_available_Some in E1 as (c & _ & Hk); eauto|].
  all: destruct candidates as [|c l]; [done|]; injection H as ->; apply Hc; by left.
Qed.

(** C3, as the code has it. When neither the prior choice nor any candidate
    normalises to an advertised key, [resolve] returns the first candidate,
    whatever is known of the advertised keys; it returns null exactly when
    the candidate list is empty. *)
Theorem resolve_unmatched_takes_first_candidate
    (by_sym : gmap string (gmap string string))
    (sym : string) (candidates : list string) (prior : option string) :
  (forall p, prior = Some p -> default ∅ (by_sym !! sym) !! norm p = None) ->
  (forall c, c ∈ candidates -> default ∅ (by_sym !! sym) !! norm c = None) ->
  choose_key_from_candidates by_sym sym candidates prior = head candidates /\
  (choose_key_from_candidates by_sym sym candidates prior = None <-> candidates = []).
Proof.
  intros Hp Hc.
  assert (choose_key_from_candidates by_sym sym candidates prior = head candidates) as E.
  { unfold choose_key_from_candidates.
    rewrite (first_available_None _ _ Hc).
    destruct prior as [p|]; [|done].
    rewrite (Hp p eq_refl). by destruct (Str.truthy p). }
  split; [done|]. rewrite E. by destruct candidates.
Qed.

(** C3 as stated fails: EQ-SBET advertises a non-empty key set, no
    candidate for the net asset value matches it, and the call returns the
    first candidate, not null. *)
Lemma resolve_null_case_counterexample :
  by_sym_example !! "EQ-SBET" = Some (avail_norm_of ["PRICE"]) /\
  ["PRICE"] <> @nil string /\
  (forall c, c ∈ NET_ASSET_VALUE -> avail_norm_of ["PRICE"] !! norm c = None) /\
  choose_key_from_candidates by_sym_example "EQ-SBET" NET_ASSET_VALUE None = Some "NAV" /\
  choose_key_from_candidates by_sym_example "EQ-SBET" NET_ASSET_VALUE None <> None.
Proof.
  split; [vm_compute; reflexivity|]. split; [done|]. split.
  - intros c Hc. unfold NET_ASSET_VALUE in Hc.
    repeat (apply elem_of_cons in Hc as [->|Hc]); [..|by apply elem_of_nil in Hc];
      vm_compute; reflexivity.
  - split; [vm_compute; reflexivity | vm_compute; discriminate].
Qed.

(** An instance: a stale prior and no matching candidate. *)
Lemma resolve_unmatched_witness :
  choose_key_from_candidates by_sym_example "EQ-SBET" NET_ASSET_VALUE (Some "OLD_NAV")
  = Some "NAV".
Proof.
  refine (proj1 (resolve_unmatched_takes_first_candidate by_sym_example "EQ-SBET"
                   NET_ASSET_VALUE (Some "OLD_NAV") _ _)).
  - intros p [= <-]. vm_compute. reflexivity.
  - intros c Hc. unfold NET_ASSET_VALUE in Hc.
    repeat (apply elem_of_cons in Hc as [->|Hc]); [..|by apply elem_of_nil in Hc];
      vm_compute; reflexivity.
Defined.

(** C9. A prior choice [K] that still normalises to an advertised key is
    kept, whatever the candidates: the call returns an advertised key with
    the normal form of [K], and [K] itself when [K] is the one advertised key
    of that normal form. *)
Theorem key_stability (by_sym : gmap string (gmap string string))
    (sym : string) (available candidates : list string) (K : string) :
  by_sym !! sym = Some (avail_norm_of available) ->
  K <> "" ->
  (exists k, k ∈ available /\ norm k = norm K) ->
  exists k', choose_key_from_candidates by_sym sym candidates (Some K) = Some k' /\
             k' ∈ available /\ norm k' = norm K /\
             (K ∈ available ->
              (forall k, k ∈ available -> norm k = norm K -> k = K) -> k' = K).
Proof.
  intros Hsym HK Hav.
  apply avail_norm_of_is_Some in Hav as [k' Hk'].
  exists k'. unfold choose_key_from_candidates. rewrite Hsym. simpl.
  destruct K as [|c K]; [done|]. simpl. rewrite Hk'.
  apply avail_norm_of_Some in Hk' as [Hin Hn].
  repeat split; try done. intros _ Huniq. by apply Huniq.
Qed.

(** An instance: EQ-MSTR advertises "nav", which the first candidate "NAV"
    matches, and still the prior choice "NetAssetValue" is returned. *)
Lemma key_stability_witness :
  first_available (avail_norm_of ["nav"; "PRICE"; "NetAssetValue"]) NET_ASSET_VALUE
    = Some "nav" /\
  choose_key_from_candidates by_sym_example "EQ-MSTR" NET_ASSET_VALUE (Some "NetAssetValue")
    = Some "NetAssetValue".
Proof.
  split; [vm_compute; reflexivity|].
  destruct (key_stability by_sym_example "EQ-MSTR" ["nav"; "PRICE"; "NetAssetValue"]
              NET_ASSET_VALUE "NetAssetValue") as (k' & E & _ & _ & Hsame).
  - vm_compute. reflexivity.
  - discriminate.
  - exists "NetAssetValue". split; [set_solver | reflexivity].
  - rewrite E. f_equal. apply Hsame; [set_solver|].
    intros k Hk. repeat (apply elem_of_cons in Hk as [->|Hk]);
      [..|by apply elem_of_nil in Hk]; vm_compute; congruence.
Defined.

End KeyResolverFacts.

(** ** IngestionOrchestrator (art_coin.py) *)

Module RunFacts.

Import ArtCoin.

Section Run.

Variable fromisoformat : string -> option Dates.date.
Variable client : request -> response.
Variables (today : string) (tokens_upper : list string).

Lemma run_metrics_app (pre rest : list string) (t : table) (log : list request) :
  run_metrics fromisoformat client today tokens_upper (pre ++ rest) t log =
  match run_metrics fromisoformat client today tokens_upper pre t log with
  | (Ok t1, log1) => run_metrics fromisoformat client today tokens_upper rest t1 log1
  | (Raise e, log1) => (Raise e, log1)
  end.
Proof.
  revert t log. induction pre as [|m pre IH]; intros t log; simpl; [done|].
  destruct (effective_start fromisoformat t m tokens_upper) as [start|e]; [|done].
  destruct (fetch_metric_for_tokens client m tokens_upper start today); [|done].
  apply IH.
Qed.

(** The requests of a loop are requests for the series it went through. *)
Lemma run_metrics_sent (metrics : list string) (t : table) (log : list request)
    (rq : request) :
  rq ∈ (run_metrics fromisoformat client today tokens_upper metrics t log).2 ->
  rq ∈ log \/ rq_metric rq ∈ metrics.
Proof.
  revert t log. induction metrics as [|m rest IH]; intros t log; simpl; [auto|].
  destruct (effective_start fromisoformat t m tokens_upper) as [start|e]; simpl; [|auto].
  assert (forall rq, rq ∈ log ++ requests_of client m start today (chunk tokens_upper 100) ->
            rq ∈ log \/ rq_metric rq = m) as Hlog.
  { intros rq' [H|H]%elem_of_app; [auto|].
    apply ResumeFacts.requests_of_range in H as (-> & _); auto. }
  destruct (fetch_metric_for_tokens client m tokens_upper start today); simpl.
  - intros H. apply IH in H as [H|H]; [|right; by right].
    apply Hlog in H as [H| ->]; [by left|right; by left].
  - intros H. apply Hlog in H as [H| ->]; [by left|right; by left].
Qed.

End Run.

(** The table is written exactly when nothing was raised. *)
Lemma run_written_iff (fromisoformat : string -> option Dates.date)
    (client : request -> response) (TOKENS METRICS : list string)
    (existing : table) (today : string) :
  written (run fromisoformat client TOKENS METRICS existing today) = None <->
  is_Some (raised (run fromisoformat client TOKENS METRICS existing today)).
Proof.
  unfold run. destruct (run_metrics _ _ _ _ _ _ _) as [[t|e] log]; simpl.
  - split; [done|]. by intros [? ?].
  - split; [eauto|done].
Qed.

(** C5, as the code has it. The loop over the series has no handler: when
    the fetch of one series raises, after the series before it were fetched
    and merged, the run ends there. The table is not written, so what the
    earlier series obtained is not persisted, and no request is sent for a
    later series. *)
Theorem run_aborts_at_failed_series (fromisoformat : string -> option Dates.date)
    (client : request -> response)
    (TOKENS pre post : list string) (m : string) (existing t1 : table)
    (log1 : list request) (today start : string) (e : exn) :
  run_metrics fromisoformat client today (List.map Str.upper TOKENS) pre existing [] = (Ok t1, log1) ->
  effective_start fromisoformat t1 m (List.map Str.upper TOKENS) = Ok start ->
  fetch_metric_for_tokens client m (List.map Str.upper TOKENS) start today = Raise e ->
  let o := run fromisoformat client TOKENS (pre ++ m :: post) existing today in
  written o = None /\ raised o = Some e /\
  (forall rq, rq ∈ sent o -> rq_metric rq ∈ pre ++ [m]).
Proof.
  intros Hpre Hstart Hfetch o. subst o. unfold run.
  rewrite run_metrics_app, Hpre. simpl. rewrite Hstart, Hfetch. simpl.
  repeat split. intros rq [H|H]%elem_of_app.
  - destruct (run_metrics_sent fromisoformat client today (List.map Str.upper TOKENS)
                pre existing [] rq)
      as [H'|H'].
    + by rewrite Hpre.
    + by apply elem_of_nil in H'.
    + apply elem_of_app. by left.
  - apply ResumeFacts.requests_of_range in H as (-> & _). apply elem_of_app. right. by left.
Qed.

(** C5 as stated fails: the fetch of "price" succeeds, the response for
    "mc" does not serialize, and the run writes nothing; with "mc" first,
    "price" is not even requested. *)
Lemma run_isolation_counterexample :
  fetch_metric_for_tokens Scenario.price_only_client "price" ["ETH"] "1970-01-01" "2024-01-02"
    = Ok [("ETH", [("2024-01-01", float_of_Z 100)])] /\
  written (run Dates.parse_calendar Scenario.price_only_client ["ETH"] ["price"; "mc"] ∅ "2024-01-02") = None /\
  raised (run Dates.parse_calendar Scenario.price_only_client ["ETH"] ["price"; "mc"] ∅ "2024-01-02")
    = Some RuntimeError /\
  run Dates.parse_calendar Scenario.price_only_client ["ETH"] ["mc"; "price"] ∅ "2024-01-02"
    = mkoutcome None [mkreq "mc" "ETH" "1970-01-01" "2024-01-02"] (Some RuntimeError).
Proof. vm_compute. repeat split. Qed.

(** An instance: the run of the counterexample. *)
Lemma run_aborts_witness :
  written (run Dates.parse_calendar Scenario.price_only_client ["ETH"] (["price"] ++ "mc" :: ["tvl"]) ∅ "2024-01-02")
    = None.
Proof.
  refine (proj1 (run_aborts_at_failed_series Dates.parse_calendar
            Scenario.price_only_client ["ETH"]
            ["price"] ["tvl"] "mc" ∅
            (merge ∅ "price" [("ETH", [("2024-01-01", float_of_Z 100)])])
            [mkreq "price" "ETH" "1970-01-01" "2024-01-02"]
            "2024-01-02" "1970-01-01" RuntimeError _ _ _));
    vm_compute; reflexivity.
Defined.

End RunFacts.

(** ** DerivationEngine (art_dat.py) *)

Module DeriveFacts.

Import ArtDat.

#[local]
Instance str_le_total : Total str_le.
Proof. intros a b. unfold str_le. apply String.leb_total. Qed.

Lemma all_dates_NoDup (t : table) : NoDup (all_dates t).
Proof.
  unfold all_dates. rewrite merge_sort_Permutation. apply NoDup_remove_dups.
Qed.

Lemma all_dates_elem (t : table) (d : string) :
  d ∈ all_dates t <-> exists m, is_Some (t !! (d, m)).
Proof.
  unfold all_dates. rewrite merge_sort_Permutation, elem_of_remove_dups.
  rewrite list_elem_of_fmap. split.
  - intros [[d' m] [-> Hin]]. apply list_elem_of_fmap in Hin as [[k r] [Hk Hin]].
    simpl in Hk. subst k. apply elem_of_map_to_list in Hin. simpl.
    exists m. by exists r.
  - intros [m [r Hr]]. exists (d, m). split; [done|].
    apply list_elem_of_fmap. exists ((d, m), r). split; [done|].
    by apply elem_of_map_to_list.
Qed.

(** The scan goes through the dates in ascending order. *)
Lemma all_dates_sorted (t : table) : Sorted str_le (all_dates t).
Proof. unfold all_dates. apply Sorted_merge_sort, _. Qed.

Section Scan.

Variables (get : string -> option float) (sym : string).

Lemma foldl_ffill_fst (dates : list string) (last : option float)
    (acc : gmap (string * string) (option float)) :
  (foldl (ffill_step get sym) (last, acc) dates).1 = foldl (carry get) last dates.
Proof.
  revert last acc. induction dates as [|d l IH]; intros last acc; simpl; [done|].
  apply IH.
Qed.

Lemma foldl_ffill_other (dates : list string) (last : option float)
    (acc : gmap (string * string) (option float)) (d sym' : string) :
  sym' <> sym \/ d ∉ dates ->
  (foldl (ffill_step get sym) (last, acc) dates).2 !! (d, sym') = acc !! (d, sym').
Proof.
  revert last acc. induction dates as [|x l IH]; intros last acc H; simpl; [done|].
  unfold ffill_step at 2. simpl. rewrite IH.
  - apply lookup_insert_ne. intros [= -> ->]. destruct H as [H|H]; [done|].
    apply H. by left.
  - destruct H as [H|H]; [by left|right]. intros Hin. apply H. by right.
Qed.

Lemma foldl_ffill_at (pre post : list string) (d : string) (last : option float)
    (acc : gmap (string * string) (option float)) :
  d ∉ post ->
  (foldl (ffill_step get sym) (last, acc) (pre ++ d :: post)).2 !! (d, sym)
  = Some (foldl (carry get) last (pre ++ [d])).
Proof.
  intros Hpost. rewrite !foldl_app. simpl.
  destruct (foldl (ffill_step get sym) (last, acc) pre) as [last1 acc1] eqn:E.
  unfold ffill_step at 2. simpl.
  rewrite foldl_ffill_other by (by right). rewrite lookup_insert_eq.
  by rewrite <- (foldl_ffill_fst pre last acc), E.
Qed.

Lemma carry_all_None (l : list string) (last : option float) :
  (forall x, x ∈ l -> get x = None) -> foldl (carry get) last l = last.
Proof.
  revert last. induction l as [|x l IH]; intros last H; simpl; [done|].
  rewrite IH by (intros y Hy; apply H; by right).
  unfold carry. by rewrite (H x) by (by left).
Qed.

Lemma carried_snoc (pre : list string) (d : string) :
  carried get (pre ++ [d]) = carry get (carried get pre) d.
Proof. unfold carried. by rewrite foldl_app. Qed.

End Scan.

(** The stored view of a listed symbol on a date of the table is what the
    scan carries on reaching that date. *)
Lemma shares_view_carried (t : table) (mapping : keymap) (symbols : list string)
    (sym d : string) (pre post : list string) :
  sym ∈ symbols -> all_dates t = pre ++ d :: post ->
  shares_view t mapping symbols d sym = carried (shares_on t mapping sym) (pre ++ [d]).
Proof.
  intros Hsym Hdates. unfold shares_view, ffilled, ffilled_shares.
  assert (d ∉ post) as Hpost.
  { pose proof (all_dates_NoDup t) as Hnd. rewrite Hdates in Hnd.
    apply NoDup_app in Hnd as (_ & _ & Hnd). by apply NoDup_cons in Hnd as [? _]. }
  induction symbols as [|x l IH] using rev_ind; [by apply elem_of_nil in Hsym|].
  rewrite foldl_app. simpl. destruct (decide (x = sym)) as [->|Hne].
  - unfold ffill_symbol. rewrite Hdates, foldl_ffill_at by done. done.
  - unfold ffill_symbol. rewrite foldl_ffill_other by (by left).
    apply IH. apply elem_of_app in Hsym as [H|H]; [done|].
    apply list_elem_of_singleton in H. congruence.
Qed.

(** C7. The forward-filled view of the shares, scanning the dates of the
    table in ascending order: a date with a value of its own shows it; a date
    without one shows the last value seen before it; and no value is shown
    before the first one was seen. *)
Theorem forward_fill_view (t : table) (mapping : keymap) (symbols : list string)
    (sym d : string) (pre post : list string) :
  sym ∈ symbols -> all_dates t = pre ++ d :: post ->
  Sorted str_le (all_dates t) /\
  (forall v, shares_on t mapping sym d = Some v ->
     shares_view t mapping symbols d sym = Some v) /\
  (forall pre' d' mid v,
     shares_on t mapping sym d = None ->
     pre = pre' ++ d' :: mid ->
     shares_on t mapping sym d' = Some v ->
     (forall x, x ∈ mid -> shares_on t mapping sym x = None) ->
     shares_view t mapping symbols d sym = Some v) /\
  (shares_on t mapping sym d = None ->
   (forall x, x ∈ pre -> shares_on t mapping sym x = None) ->
   shares_view t mapping symbols d sym = None).
Proof.
  intros Hsym Hdates. split; [apply all_dates_sorted|].
  rewrite (shares_view_carried t mapping symbols sym d pre post Hsym Hdates).
  rewrite carried_snoc. split; [|split].
  - intros v Hv. unfold carry. by rewrite Hv.
  - intros pre' d' mid v Hd -> Hd' Hmid. unfold carry. rewrite Hd.
    unfold carried. rewrite foldl_app. simpl.
    rewrite carry_all_None by done. unfold carry. by rewrite Hd'.
  - intros Hd Hpre. unfold carry. rewrite Hd.
    unfold carried. by rewrite carry_all_None.
Qed.

(** The example of the specification: shares [None, 10, None, None, 12] on
    five consecutive days are viewed as [None, 10, 10, 10, 12]. *)
Lemma forward_fill_example :
  all_dates example_table = example_days /\
  List.map (shares_on example_table example_mapping "EQ-MSTR") example_days
    = [None; Some (float_of_Z 10); None; None; Some (float_of_Z 12)] /\
  List.map (fun d => shares_view example_table example_mapping ["EQ-MSTR"] d "EQ-MSTR")
           example_days
    = [None; Some (float_of_Z 10); Some (float_of_Z 10); Some (float_of_Z 10);
       Some (float_of_Z 12)].
Proof. vm_compute. repeat split. Qed.

(** An instance: on the fourth day of the example the view shows the 10
    reported on the second day. *)
Lemma forward_fill_view_witness :
  shares_view example_table example_mapping ["EQ-MSTR"] "2024-01-04" "EQ-MSTR"
  = Some (float_of_Z 10).
Proof.
  refine (proj1 (proj2 (proj2 (forward_fill_view example_table example_mapping ["EQ-MSTR"]
            "EQ-MSTR" "2024-01-04" ["2024-01-01"; "2024-01-02"; "2024-01-03"] ["2024-01-05"]
            _ _))) ["2024-01-01"] "2024-01-02" ["2024-01-03"] (float_of_Z 10) _ _ _ _).
  - set_solver.
  - vm_compute. reflexivity.
  - vm_compute. reflexivity.
  - reflexivity.
  - vm_compute. reflexivity.
  - intros x Hx. apply list_elem_of_singleton in Hx as ->. vm_compute. reflexivity.
Defined.

(** *** The guarded ratio *)

Lemma mnav_row_lookup (t : table) (mapping : keymap)
    (ff : gmap (string * string) (option float)) (symbols : list string) (d sym : string) :
  mnav_row t mapping ff symbols d !! sym =
  if decide (sym ∈ symbols) then mnav_cell t mapping ff d sym else None.
Proof.
  unfold mnav_row.
  assert (forall l (r0 : row),
            foldl (fun r sym => match mnav_cell t mapping ff d sym with
                                | Some v => <[sym := v]> r
                                | None => r
                                end) r0 l !! sym =
            if decide (sym ∈ l)
            then match mnav_cell t mapping ff d sym with
                 | Some v => Some v
                 | None => r0 !! sym
                 end
            else r0 !! sym) as H.
  { induction l as [|x l IH]; intros r0; cbn [foldl].
    - destruct (decide (sym ∈ [])) as [Hin|Hin]; [by apply elem_of_nil in Hin|done].
    - rewrite IH.
      assert ((match mnav_cell t mapping ff d x with
               | Some v => <[x := v]> r0
               | None => r0
               end) !! sym =
              if decide (x = sym)
              then match mnav_cell t mapping ff d sym with
                   | Some v => Some v
                   | None => r0 !! sym
                   end
              else r0 !! sym) as ->.
      { destruct (decide (x = sym)) as [->|Hx].
        - destruct (mnav_cell t mapping ff d sym); [by rewrite lookup_insert_eq|done].
        - destruct (mnav_cell t mapping ff d x); [by rewrite lookup_insert_ne|done]. }
      destruct (decide (sym ∈ l)) as [Hin|Hin];
        destruct (decide (sym ∈ x :: l)) as [Hin'|Hin'];
        destruct (decide (x = sym)) as [Hx|Hx];
        try (destruct (mnav_cell t mapping ff d sym); done).
      + destruct Hin'. by right.
      + destruct Hin'. by right.
      + apply elem_of_cons in Hin' as [?|?]; congruence.
      + destruct Hin'. subst x. by left. }
  rewrite H, lookup_empty. case_decide; [|done]. by destruct (mnav_cell _ _ _ _ _).
Qed.

Lemma mnav_rows_cell (t : table) (mapping : keymap) (symbols : list string)
    (d sym : string) :
  ArtCoin.cell (mnav_rows t mapping symbols) d MNAV sym =
  if decide (d ∈ all_dates t /\ sym ∈ symbols)
  then mnav_cell t mapping (ffilled_shares t mapping symbols) d sym
  else None.
Proof.
  unfold mnav_rows, ArtCoin.cell.
  set (ff := ffilled_shares t mapping symbols).
  assert (forall l (fr : table),
            foldl (fun final_rows d0 =>
                     let r := mnav_row t mapping ff symbols d0 in
                     if decide (r = ∅) then final_rows else <[(d0, MNAV) := r]> final_rows)
                  fr l !! (d, MNAV) =
            if decide (d ∈ l /\ mnav_row t mapping ff symbols d <> ∅)
            then Some (mnav_row t mapping ff symbols d)
            else fr !! (d, MNAV)) as H.
  { induction l as [|x l IH]; intros fr; cbn [foldl].
    - destruct (decide (d ∈ [] /\ mnav_row t mapping ff symbols d <> ∅)) as [Hin|Hin]; [|done].
      destruct Hin as [Hin _]. by apply elem_of_nil in Hin.
    - rewrite IH. cbv zeta.
      destruct (decide (d ∈ l /\ mnav_row t mapping ff symbols d <> ∅)) as [[Hin Hne]|Hno];
        destruct (decide (d ∈ x :: l /\ mnav_row t mapping ff symbols d <> ∅))
          as [[Hin' Hne']|Hno']; try done.
      + destruct Hno'. split; [by right|done].
      + apply elem_of_cons in Hin' as [->|Hin']; [|destruct Hno; done].
        rewrite decide_False by done. by rewrite lookup_insert_eq.
      + destruct (decide (mnav_row t mapping ff symbols x = ∅)) as [He|He]; [done|].
        destruct (decide (x = d)) as [->|Hxd].
        * destruct Hno'. split; [by left|done].
        * rewrite lookup_insert_ne; [done|]. congruence. }
  rewrite H, lookup_empty. simpl.
  destruct (decide (d ∈ all_dates t /\ mnav_row t mapping ff symbols d <> ∅)) as [[Hd Hne]|Hno];
    simpl.
  - rewrite mnav_row_lookup. destruct (decide (sym ∈ symbols)).
    + rewrite decide_True; done.
    + rewrite decide_False; [done|]. by intros [_ ?].
  - destruct (decide (d ∈ all_dates t /\ sym ∈ symbols)) as [[Hd Hs]|?]; [|done].
    destruct (decide (mnav_row t mapping ff symbols d = ∅)) as [He|He];
      [|destruct Hno; done].
    pose proof (mnav_row_lookup t mapping ff symbols d sym) as Hl.
    rewrite He, lookup_empty, decide_True in Hl by done. done.
Qed.

(** In art_dat.py the derived cell exists exactly when the price of the day,
    a forward-filled number of shares and a net asset value that is not zero
    are all there, and then holds price times shares over net asset value. *)
Lemma mnav_guard (t : table) (mapping : keymap) (symbols : list string)
    (d sym : string) (v : float) :
  ArtCoin.cell (mnav_rows t mapping symbols) d MNAV sym = Some v <->
  d ∈ all_dates t /\ sym ∈ symbols /\
  exists price shares nav,
    get_cell t d (mapped mapping sym PRICE_LABEL) sym = Some price /\
    shares_view t mapping symbols d sym = Some shares /\
    get_cell t d (mapped mapping sym NAV_LABEL) sym = Some nav /\
    feqb nav fzero = false /\
    v = fdiv (fmul price shares) nav.
Proof.
  rewrite mnav_rows_cell. unfold mnav_cell, shares_view. split.
  - case_decide as Hd; [|done]. destruct Hd as [Hd Hs].
    destruct (get_cell t d (mapped mapping sym PRICE_LABEL) sym) as [p|]; [|done].
    destruct (ffilled _ d sym) as [s|]; [|done].
    destruct (get_cell t d (mapped mapping sym NAV_LABEL) sym) as [n|]; [|done].
    destruct (feqb n fzero) eqn:E; [done|]. intros [= <-].
    split; [done|]. split; [done|]. by exists p, s, n.
  - intros (Hd & Hs & p & s & n & -> & -> & -> & -> & ->).
    by rewrite decide_True.
Qed.

(** The scenario of the specification in art_dat.py: price 100, shares
    1 000 000 carried over three days, net asset value 50 000 000 give 2.0;
    a net asset value of zero, or none, gives no cell. *)
Lemma mnav_scenario :
  ArtCoin.cell (mnav_rows (ratio_table (Some (float_of_Z 50000000))) example_mapping ["EQ-MSTR"])
               "2024-01-05" MNAV "EQ-MSTR" = Some (float_of_Z 2) /\
  mnav_rows (ratio_table (Some fzero)) example_mapping ["EQ-MSTR"] = ∅ /\
  mnav_rows (ratio_table (Some (S754_zero true))) example_mapping ["EQ-MSTR"] = ∅ /\
  mnav_rows (ratio_table None) example_mapping ["EQ-MSTR"] = ∅.
Proof. vm_compute. repeat split. Qed.

End DeriveFacts.

(** ** The pandas recomputation (augment_dat_with_mnav.py) *)

Module AugmentFacts.

Import Augment.

(** What the script writes is every ratio that is not NaN. *)
Lemma emitted_spec (price shares nav : frame) (d tick : string) (v : float) :
  emitted price shares nav d tick = Some v <->
  d ∈ idx price shares nav /\ v = mnav_at price shares nav d tick /\ is_nan v = false.
Proof.
  unfold emitted. case_decide as Hd.
  - destruct (is_nan (mnav_at price shares nav d tick)) eqn:E; split.
    + done.
    + intros (_ & -> & H). congruence.
    + intros [= <-]. done.
    + intros (_ & -> & _). done.
  - split; [done|]. by intros [? _].
Qed.

(** C6 at the failing input. With price 100, shares 1 000 000 and a net
    asset value of zero the script writes a cell holding infinity, where
    art_dat.py writes none; a missing net asset value gives no cell. *)
Theorem augment_zero_nav_emits_infinity :
  emitted (one_day (float_of_Z 100)) (one_day (float_of_Z 1000000)) (one_day fzero)
          "2024-01-05" "MSTR" = Some (S754_infinity false) /\
  emitted (one_day (float_of_Z 100)) (one_day (float_of_Z 1000000)) ∅
          "2024-01-05" "MSTR" = None /\
  emitted (one_day (float_of_Z 100)) (one_day (float_of_Z 1000000))
          (one_day (float_of_Z 50000000)) "2024-01-05" "MSTR" = Some (float_of_Z 2).
Proof. vm_compute. repeat split. Qed.

End AugmentFacts.

(** ** The ETF flows (fs_etf.py) *)

Module EtfFacts.

Import Etf.
Local Open Scope Z_scope.

















Lemma etf_example :
  daily btc_example eth_example =
  Ok [(10, float_of_Z 5, fzero); (11, fzero, float_of_Z 7); (12, float_of_Z (-3), fzero);
      (13, fzero, fzero); (14, fzero, float_of_Z 2)].
Proof. vm_compute. reflexivity. Qed.

End EtfFacts.

Module NumFacts.

Import Num.
Local Open Scope Z_scope.

(** *** Rounding a quotient *)

Lemma rhe_div_floor (a b : Z) :
  0 < b -> rhe_div a b = a / b \/ rhe_div a b = a / b + 1.
Proof. intros Hb. unfold rhe_div. repeat case_match; auto. Qed.

Lemma rhe_div_half (a b : Z) : 0 < b -> 2 * Z.abs (rhe_div a b * b - a) <= b.
Proof.
  intros Hb. unfold rhe_div.
  pose proof (Z.div_mod a b ltac:(lia)) as Hdm.
  pose proof (Z.mod_pos_bound a b Hb) as Hr.
  set (q := a / b) in *. set (r := a mod b) in *.
  assert (q * b = b * q) as Hc by lia.
  destruct (Z.ltb_spec (2 * r) b); [lia|].
  destruct (Z.ltb_spec b (2 * r)); [lia|].
  destruct (Z.even q); lia.
Qed.

(** No integer is nearer to the quotient than the rounded one. *)
Lemma rhe_div_nearest (a b k : Z) :
  0 < b -> Z.abs (rhe_div a b * b - a) <= Z.abs (k * b - a).
Proof.
  intros Hb. pose proof (rhe_div_half a b Hb) as Hh.
  pose proof (Z.div_mod a b ltac:(lia)) as Hdm.
  pose proof (Z.mod_pos_bound a b Hb) as Hr.
  destruct (rhe_div_floor a b Hb) as [E|E]; rewrite E in *;
    set (q := a / b) in *; set (r := a mod b) in *;
    assert (q * b = b * q) as Hc by lia.
  - destruct (Z_le_gt_dec k q) as [Hk|Hk].
    + assert (0 <= (q - k) * b) by (apply Z.mul_nonneg_nonneg; lia). lia.
    + assert (0 <= (k - q - 1) * b) by (apply Z.mul_nonneg_nonneg; lia). lia.
  - destruct (Z_le_gt_dec k q) as [Hk|Hk].
    + assert (0 <= (q - k) * b) by (apply Z.mul_nonneg_nonneg; lia). lia.
    + assert (0 <= (k - q - 1) * b) by (apply Z.mul_nonneg_nonneg; lia). lia.
Qed.

Lemma rhe_div_ge (a b k : Z) : 0 < b -> k * b <= a -> k <= rhe_div a b.
Proof.
  intros Hb Hk. assert (k <= a / b) by (apply Z.div_le_lower_bound; lia).
  destruct (rhe_div_floor a b Hb); lia.
Qed.

Lemma rhe_div_nonneg (a b : Z) : 0 <= a -> 0 < b -> 0 <= rhe_div a b.
Proof. intros Ha Hb. apply rhe_div_ge; lia. Qed.


(** *** The nearest double *)

Lemma binade_nonneg (num den : Z) : 0 <= binade num den.
Proof. unfold binade. lia. Qed.

(** Above the least binade the quotient is at least 2^52 steps of the
    binade. *)
Lemma binade_lower (num den : Z) :
  0 < den -> 0 < binade num den ->
  2 ^ 52 * (den * 2 ^ binade num den) <= num * 2 ^ 1074.
Proof.
  intros Hd Hg. unfold binade in *. set (D := num * 2 ^ 1074) in *.
  set (t := D / den) in *.
  assert (0 < t) as Ht.
  { destruct (Z_lt_le_dec 0 t) as [|Hle]; [done|].
    rewrite (Z.log2_nonpos t Hle) in Hg. lia. }
  pose proof (Z.log2_spec t Ht) as [Hlo _].
  pose proof (Z.mul_div_le D den Hd) as Hmul. fold t in Hmul.
  replace (Z.max 0 (Z.log2 t - 52)) with (Z.log2 t - 52) by lia.
  assert (2 ^ 52 * 2 ^ (Z.log2 t - 52) = 2 ^ Z.log2 t) as Hp.
  { rewrite <- Z.pow_add_r by lia. f_equal. lia. }
  set (G := 2 ^ (Z.log2 t - 52)) in *.
  assert (2 ^ 52 * (den * G) = den * (2 ^ 52 * G)) as -> by ring.
  rewrite Hp. etrans; [|exact Hmul]. apply Z.mul_le_mono_nonneg_l; lia.
Qed.

Lemma mantissa_normal (num den : Z) :
  0 < den -> 0 < binade num den -> 2 ^ 52 <= mantissa num den.
Proof.
  intros Hd Hg. unfold mantissa. apply rhe_div_ge.
  - pose proof (Z.pow_pos_nonneg 2 (binade num den) ltac:(lia) ltac:(lia)). lia.
  - by apply binade_lower.
Qed.

Lemma mantissa_nonneg (num den : Z) : 0 <= num -> 0 < den -> 0 <= mantissa num den.
Proof.
  intros Hn Hd. unfold mantissa. apply rhe_div_nonneg; [lia|].
  pose proof (Z.pow_pos_nonneg 2 (binade num den) ltac:(lia) (binade_nonneg num den)). lia.
Qed.

(** No double is nearer to [num / den] than the rounded mantissa at its
    binade: a double [mv * 2^ev] (exponent counted from -1074) is a multiple
    of the binade's step, or lies below the binade. Both sides are scaled by
    [den * 2^1074]. *)
Lemma mantissa_nearest (num den mv ev : Z) :
  0 < den -> 0 < mv < 2 ^ 53 -> 0 <= ev ->
  Z.abs (mantissa num den * 2 ^ binade num den * den - num * 2 ^ 1074)
    <= Z.abs (mv * 2 ^ ev * den - num * 2 ^ 1074).
Proof.
  intros Hd Hm He.
  pose proof (binade_nonneg num den) as Hg0.
  pose proof (Z.pow_pos_nonneg 2 (binade num den) ltac:(lia) Hg0) as Hgp.
  assert (0 < den * 2 ^ binade num den) as Hb by lia.
  destruct (Z_le_gt_dec (binade num den) ev) as [Hge|Hlt].
  - pose proof (rhe_div_nearest (num * 2 ^ 1074) (den * 2 ^ binade num den)
                  (mv * 2 ^ (ev - binade num den)) Hb) as Hn.
    fold (mantissa num den) in Hn.
    assert (2 ^ ev = 2 ^ (ev - binade num den) * 2 ^ binade num den) as ->.
    { rewrite <- Z.pow_add_r by lia. f_equal. lia. }
    set (g := 2 ^ binade num den) in *. set (h := 2 ^ (ev - binade num den)) in *.
    replace (mantissa num den * g * den) with (mantissa num den * (den * g)) by ring.
    replace (mv * (h * g) * den) with (mv * h * (den * g)) by ring.
    exact Hn.
  - pose proof (binade_lower num den Hd ltac:(lia)) as Hlow.
    pose proof (rhe_div_nearest (num * 2 ^ 1074) (den * 2 ^ binade num den) (2 ^ 52) Hb) as Hn.
    fold (mantissa num den) in Hn.
    assert (2 ^ 53 * 2 ^ ev <= 2 ^ 52 * 2 ^ binade num den) as Hpow.
    { rewrite <- !Z.pow_add_r by lia. apply Z.pow_le_mono_r; lia. }
    pose proof (Z.pow_pos_nonneg 2 ev ltac:(lia) He) as Hep.
    set (g := 2 ^ binade num den) in *. set (h := 2 ^ ev) in *.
    set (D := num * 2 ^ 1074) in *.
    assert (mv * h < 2 ^ 53 * h) as H1 by (apply Z.mul_lt_mono_pos_r; lia).
    assert (mv * h * den < 2 ^ 52 * g * den) as H2.
    { apply Z.mul_lt_mono_pos_r; lia. }
    replace (mantissa num den * g * den) with (mantissa num den * (den * g)) by ring.
    replace (2 ^ 52 * (den * g)) with (2 ^ 52 * g * den) in * by ring.
    lia.
Qed.


(** The value of the result, when the rounded magnitude is below 2^1024. *)
Lemma nearest_double_units (neg : bool) (num den : Z) :
  0 <= num -> 0 < den ->
  mantissa num den * 2 ^ binade num den < 2 ^ 2098 ->
  units (nearest_double neg num den)
    = Some ((if neg then -1 else 1) * (mantissa num den * 2 ^ binade num den)).
Proof.
  intros Hn Hd Hlt. unfold nearest_double.
  pose proof (binade_nonneg num den) as Hg0.
  pose proof (mantissa_nonneg num den Hn Hd) as Hm0.
  pose proof (Z.pow_pos_nonneg 2 (binade num den) ltac:(lia) Hg0) as Hgp.
  assert (2 ^ 2098 = 2 ^ 53 * 2 ^ 2045) as H98 by (by rewrite <- Z.pow_add_r by lia).
  assert (2 ^ 2098 = 2 ^ 52 * 2 ^ 2046) as H98' by (by rewrite <- Z.pow_add_r by lia).
  assert (0 < 2 ^ 52) as H52 by (apply Z.pow_pos_nonneg; lia).
  assert (2 ^ 53 = 2 * 2 ^ 52) as H53 by (by rewrite <- Z.pow_succ_r by lia).
  destruct (Z.eqb_spec (mantissa num den) (2 ^ 53)) as [E|NE].
  - destruct (Z.eqb_spec (2 ^ 52) 0) as [|_]; [lia|].
    assert (binade num den < 2045) as Hg.
    { destruct (Z_lt_le_dec (binade num den) 2045) as [|Hge]; [done|].
      pose proof (Z.pow_le_mono_r 2 2045 (binade num den) ltac:(lia) Hge) as Hp.
      rewrite E, H98 in Hlt.
      apply Z.mul_lt_mono_pos_l in Hlt; lia. }
    destruct (Z.ltb_spec 2045 (binade num den + 1)) as [|_]; [lia|].
    unfold units. destruct (Z.leb_spec (-1074) (binade num den + 1 - 1074)) as [_|]; [|lia].
    rewrite Z2Pos.id by lia. rewrite E.
    replace (binade num den + 1 - 1074 + 1074) with (Z.succ (binade num den)) by lia.
    rewrite Z.pow_succ_r by lia. rewrite H53. do 2 f_equal. ring.
  - destruct (Z.eqb_spec (mantissa num den) 0) as [E0|N0].
    + unfold units. rewrite E0. f_equal. lia.
    + assert (binade num den <= 2045) as Hg.
      { destruct (Z_le_gt_dec (binade num den) 2045) as [|Hgt]; [done|].
        pose proof (mantissa_normal num den Hd ltac:(lia)) as Hnorm.
        pose proof (Z.pow_le_mono_r 2 2046 (binade num den) ltac:(lia) ltac:(lia)) as Hp.
        rewrite H98' in Hlt.
        assert (2 ^ 52 * 2 ^ 2046 <= mantissa num den * 2 ^ binade num den).
        { apply Z.mul_le_mono_nonneg; lia. }
        lia. }
      destruct (Z.ltb_spec 2045 (binade num den)) as [|_]; [lia|].
      unfold units. destruct (Z.leb_spec (-1074) (binade num den - 1074)) as [_|]; [|lia].
      rewrite Z2Pos.id by lia.
      replace (binade num den - 1074 + 1074) with (binade num den) by lia. done.
Qed.

(** *** Ten fractional digits *)

(** The printed number of 1e-10 steps is within half a step of the value
    (both sides scaled by 2^1074). *)
Lemma steps_close (m : positive) (e : Z) :
  -1074 <= e ->
  0 <= steps m e /\
  2 * Z.abs (steps m e * 2 ^ 1074 - Z.pos m * 2 ^ (e + 1074) * 10 ^ 10) <= 2 ^ 1074.
Proof.
  intros He. unfold steps.
  assert (0 < 10 ^ 10) as HT by (apply Z.pow_pos_nonneg; lia).
  assert (0 < 2 ^ 1074) as HP by (apply Z.pow_pos_nonneg; lia).
  destruct (Z.leb_spec 0 e) as [Hpos|Hneg].
  - assert (2 ^ (e + 1074) = 2 ^ e * 2 ^ 1074) as -> by (apply Z.pow_add_r; lia).
    pose proof (Z.pow_pos_nonneg 2 e ltac:(lia) Hpos) as Hep.
    set (T := 10 ^ 10) in *. set (P := 2 ^ 1074) in *. set (h := 2 ^ e) in *.
    split; [apply Z.mul_nonneg_nonneg; lia|].
    replace (Z.pos m * h * T * P - Z.pos m * (h * P) * T) with 0 by ring. lia.
  - pose proof (Z.pow_pos_nonneg 2 (- e) ltac:(lia) ltac:(lia)) as Hkp.
    pose proof (Z.pow_pos_nonneg 2 (e + 1074) ltac:(lia) ltac:(lia)) as Hhp.
    pose proof (rhe_div_half (Z.pos m * 10 ^ 10) (2 ^ (- e)) Hkp) as Hh.
    assert (2 ^ 1074 = 2 ^ (- e) * 2 ^ (e + 1074)) as HPe.
    { rewrite <- Z.pow_add_r by lia. f_equal. lia. }
    split; [apply rhe_div_nonneg; lia|].
    rewrite HPe.
    set (T := 10 ^ 10) in *. set (k := 2 ^ (- e)) in *. set (h := 2 ^ (e + 1074)) in *.
    set (s := rhe_div (Z.pos m * T) k) in *.
    replace (s * (k * h) - Z.pos m * h * T) with ((s * k - Z.pos m * T) * h) by ring.
    rewrite Z.abs_mul, (Z.abs_eq h) by lia.
    rewrite Z.mul_assoc. apply Z.mul_le_mono_nonneg_r; lia.
Qed.

Lemma digits2_bound (m : positive) : Z.pos m < 2 ^ Z.pos (digits2_pos m).
Proof.
  induction m as [m IH|m IH|]; simpl digits2_pos.
  - rewrite Pos2Z.inj_succ, Z.pow_succ_r by lia. lia.
  - rewrite Pos2Z.inj_succ, Z.pow_succ_r by lia. lia.
  - done.
Qed.

(** The mantissa and exponent of a double. *)
Lemma is_double_bounds (neg : bool) (m : positive) (e : Z) :
  is_double (S754_finite neg m e) = true -> Z.pos m < 2 ^ 53 /\ -1074 <= e <= 971.
Proof.
  unfold is_double, valid_binary, bounded, canonical_mantissa, fexp, emin, prec64, emax64.
  intros [H1 H2]%andb_true_iff. apply Z.eqb_eq in H1. apply Z.leb_le in H2.
  pose proof (digits2_bound m) as Hb.
  assert (Z.pos (digits2_pos m) <= 53) as Hd by lia.
  pose proof (Z.pow_le_mono_r 2 _ 53 ltac:(lia) Hd). lia.
Qed.

(** Reading back the printed steps gives a double within 1e-10 of the
    value. *)
Lemma steps_nearest_units (neg : bool) (m : positive) (e : Z) :
  Z.pos m < 2 ^ 53 -> -1074 <= e <= 971 ->
  exists W,
    units (nearest_double neg (steps m e) (10 ^ 10))
      = Some ((if neg then -1 else 1) * W) /\
    Z.abs (W - Z.pos m * 2 ^ (e + 1074)) * 10 ^ 10 <= 2 ^ 1074.
Proof.
  intros Hm He.
  destruct (steps_close m e ltac:(lia)) as [Hs0 Hclose].
  assert (0 < 10 ^ 10) as HT by (apply Z.pow_pos_nonneg; lia).
  pose proof (mantissa_nearest (steps m e) (10 ^ 10) (Z.pos m) (e + 1074) HT
                ltac:(lia) ltac:(lia)) as Hnear.
  set (W := mantissa (steps m e) (10 ^ 10) * 2 ^ binade (steps m e) (10 ^ 10)) in *.
  assert (Z.abs (W - Z.pos m * 2 ^ (e + 1074)) * 10 ^ 10 <= 2 ^ 1074) as Htol.
  { rewrite <- (Z.abs_eq (10 ^ 10)) at 1 by lia. rewrite <- Z.abs_mul.
    set (T := 10 ^ 10) in *. set (P := 2 ^ 1074) in *.
    set (V := Z.pos m * 2 ^ (e + 1074)) in *. set (N := steps m e) in *.
    replace ((W - V) * T) with ((W * T - N * P) + (N * P - V * T)) by ring.
    lia. }
  exists W. split; [|exact Htol].
  apply nearest_double_units; [done|done|]. fold W.
  assert (0 < 2 ^ 1074) as HP by (apply Z.pow_pos_nonneg; lia).
  assert (2 ^ 1074 < 2 ^ 2045) as HPA by (apply Z.pow_lt_mono_r; lia).
  assert (2 ^ 2098 = 2 ^ 53 * 2 ^ 2045) as -> by (by rewrite <- Z.pow_add_r by lia).
  assert (2 ^ (e + 1074) <= 2 ^ 2045) as HeA by (apply Z.pow_le_mono_r; lia).
  pose proof (Z.pow_pos_nonneg 2 (e + 1074) ltac:(lia) ltac:(lia)) as Hhp.
  assert (Z.pos m * 2 ^ (e + 1074) <= (2 ^ 53 - 1) * 2 ^ 2045) as HV.
  { apply Z.mul_le_mono_nonneg; lia. }
  assert (Z.abs (W - Z.pos m * 2 ^ (e + 1074)) <= 2 ^ 1074) as Habs.
  { etrans; [|exact Htol].
    rewrite <- (Z.mul_1_r (Z.abs _)) at 1. apply Z.mul_le_mono_nonneg_l; lia. }
  set (A := 2 ^ 2045) in *. set (P := 2 ^ 1074) in *.
  set (V := Z.pos m * 2 ^ (e + 1074)) in *.
  assert (0 < 2 ^ 53) by (apply Z.pow_pos_nonneg; lia).
  set (B := 2 ^ 53) in *. lia.
Qed.


(** *** Digits and their reading *)

Lemma is_digit_digit_char (x : Z) : Str.is_digit (Dates.digit_char x) = true.
Proof.
  pose proof (DatesFacts.digit_val_digit_char x) as H. unfold Dates.digit_val in H.
  by destruct (Str.is_digit _).
Qed.

(** A digit is no sign and no point, and has no case. *)
Lemma digit_plain (c : ascii) :
  Str.is_digit c = true ->
  Ascii.eqb c "-" = false /\ Ascii.eqb c "+" = false /\ Ascii.eqb c "." = false /\
  Str.lower_ascii c = c.
Proof.
  destruct c as [[] [] [] [] [] [] [] []]; vm_compute; intros H;
    first [discriminate H | repeat split].
Qed.

Lemma num_of_app (acc : Z) (l1 l2 : list ascii) :
  num_of acc (l1 ++ l2) = num_of acc l1 ≫= fun a => num_of a l2.
Proof.
  revert acc. induction l1 as [|c l1 IH]; intros acc; simpl; [done|].
  destruct (Dates.digit_val c); [apply IH|done].
Qed.

Lemma num_of_digits_fixed (k : nat) (n acc : Z) :
  num_of acc (digits_fixed k n)
    = Some (acc * 10 ^ Z.of_nat k + n mod 10 ^ Z.of_nat k).
Proof.
  revert n acc. induction k as [|k IH]; intros n acc.
  - simpl. rewrite Z.mod_1_r. f_equal. lia.
  - cbn [digits_fixed]. rewrite num_of_app, IH. cbn [mbind option_bind num_of].
    rewrite DatesFacts.digit_val_digit_char. f_equal.
    rewrite Nat2Z.inj_succ, Z.pow_succ_r by lia.
    assert (0 < 10 ^ Z.of_nat k) as Hp by (apply Z.pow_pos_nonneg; lia).
    rewrite (Z.rem_mul_r n 10 (10 ^ Z.of_nat k)) by lia.
    set (p := 10 ^ Z.of_nat k) in *. lia.
Qed.

Lemma digits_fixed_length (k : nat) (n : Z) : length (digits_fixed k n) = k.
Proof.
  revert n. induction k as [|k IH]; intros n; simpl; [done|].
  rewrite length_app, IH. simpl. lia.
Qed.

Lemma digits_fixed_digit (k : nat) (n : Z) :
  Forall (fun c => Str.is_digit c = true) (digits_fixed k n).
Proof.
  revert n. induction k as [|k IH]; intros n; simpl; [constructor|].
  apply Forall_app. split; [apply IH|]. repeat constructor. apply is_digit_digit_char.
Qed.

Lemma digits_fuel_spec (fuel : nat) (n : Z) (acc : list ascii) :
  (0 < fuel)%nat -> 0 <= n < 2 ^ Z.of_nat fuel ->
  exists ds, digits_fuel fuel n acc = ds ++ acc /\ ds <> [] /\
             Forall (fun c => Str.is_digit c = true) ds /\ num_of 0 ds = Some n.
Proof.
  revert n acc. induction fuel as [|fuel IH]; intros n acc Hf Hn; [lia|].
  cbn [digits_fuel]. destruct (Z.ltb_spec n 10) as [Hlt|Hge].
  - exists [Dates.digit_char n]. split; [done|]. split; [done|]. split.
    + repeat constructor. apply is_digit_digit_char.
    + cbn [num_of]. rewrite DatesFacts.digit_val_digit_char.
      rewrite Z.mod_small by lia. f_equal.
  - rewrite Nat2Z.inj_succ, Z.pow_succ_r in Hn by lia.
    assert (0 < fuel)%nat as Hf'.
    { destruct fuel; [simpl in Hn; lia|lia]. }
    assert (0 <= n / 10 < 2 ^ Z.of_nat fuel) as Hn'.
    { split; [apply Z.div_pos; lia|].
      apply Z.div_lt_upper_bound; lia. }
    destruct (IH (n / 10) (Dates.digit_char n :: acc) Hf' Hn')
      as (ds & E & Hne & Hd & Hv).
    exists (ds ++ [Dates.digit_char n]). split; [by rewrite <- app_assoc|].
    split; [by destruct ds|]. split.
    + apply Forall_app. split; [done|]. repeat constructor. apply is_digit_digit_char.
    + rewrite num_of_app, Hv. cbn [mbind option_bind num_of].
      rewrite DatesFacts.digit_val_digit_char. f_equal.
      pose proof (Z.div_mod n 10 ltac:(lia)). lia.
Qed.

(** [str(n)] is a non-empty text of digits that reads back as [n]. *)
Lemma digits_spec (n : Z) :
  0 <= n ->
  digits n <> [] /\ Forall (fun c => Str.is_digit c = true) (digits n) /\
  num_of 0 (digits n) = Some n.
Proof.
  intros Hn. unfold digits.
  destruct (digits_fuel_spec (S (Z.to_nat (Z.log2 n))) n []) as (ds & E & H1 & H2 & H3).
  - lia.
  - split; [done|]. pose proof (Z.log2_nonneg n).
    replace (Z.of_nat (S (Z.to_nat (Z.log2 n)))) with (Z.succ (Z.log2 n)) by lia.
    destruct (Z.eq_dec n 0) as [->|Hne]; [done|].
    apply Z.log2_spec. lia.
  - rewrite E, app_nil_r. done.
Qed.

Lemma split_point_digits (ds rest : list ascii) :
  Forall (fun c => Str.is_digit c = true) ds ->
  split_point (ds ++ "."%char :: rest) = (ds, Some rest).
Proof.
  induction 1 as [|c ds Hc _ IH]; [done|].
  cbn [app split_point]. destruct (digit_plain c Hc) as (_ & _ & -> & _).
  by rewrite IH.
Qed.

(** Reading a signed decimal text with digits on both sides of the point. *)
Lemma float_of_chars_decimal (neg : bool) (ds fs : list ascii) (n : Z) :
  ds <> [] ->
  Forall (fun c => Str.is_digit c = true) ds ->
  num_of 0 (ds ++ fs) = Some n ->
  float_of_chars (sign_chars neg ++ ds ++ "."%char :: fs)
    = Some (nearest_double neg n (10 ^ Z.of_nat (length fs))).
Proof.
  intros Hne Hd Hn. destruct ds as [|c ds]; [done|].
  pose proof (Forall_inv Hd) as Hc. destruct (digit_plain c Hc) as (Hm & Hp & Hq & Hl).
  assert (split_sign (sign_chars neg ++ (c :: ds) ++ "."%char :: fs)
          = (neg, (c :: ds) ++ "."%char :: fs)) as Hs.
  { destruct neg; [done|]. cbn [sign_chars app split_sign]. by rewrite Hm, Hp. }
  unfold float_of_chars. rewrite Hs.
  assert (forall s, Str.is_digit (hd "0"%char (list_ascii_of_string s)) = false ->
            List.map Str.lower_ascii ((c :: ds) ++ "."%char :: fs) <> list_ascii_of_string s)
    as Hnot.
  { intros s Hs' E. cbn [app List.map] in E. rewrite Hl in E.
    rewrite <- E in Hs'. simpl in Hs'. congruence. }
  rewrite !decide_False by (apply Hnot; reflexivity).
  rewrite split_point_digits by done. cbn [default app].
  change (id fs) with fs. cbn [app] in Hn. by rewrite Hn.
Qed.

(** *** The round trip of a value *)

Lemma within_mono (j k : Z) (a b : float) :
  0 <= j <= k -> within k a b = true -> within j a b = true.
Proof.
  intros Hjk. unfold within. destruct (units a) as [ua|], (units b) as [ub|]; try done.
  intros H%Z.leb_le. apply Z.leb_le. etrans; [|exact H].
  apply Z.mul_le_mono_nonneg_l; [lia|]. apply Z.pow_le_mono_r; lia.
Qed.

(** A finite double printed with ten fractional digits reads back as a
    double within 1e-10 of it. *)
Lemma fmt10_float_of_string (v : float) :
  is_double v = true -> is_finite v = true ->
  exists w, float_of_string (fmt10 v) = Some w /\ within 10 v w = true.
Proof.
  intros Hv Hf. destruct v as [neg|neg| |neg m e]; try done.
  - exists (S754_zero neg). by destruct neg; vm_compute.
  - destruct (is_double_bounds neg m e Hv) as [Hm He].
    destruct (steps_close m e ltac:(lia)) as [Hs0 _].
    assert (0 < 10 ^ 10) as HT by (apply Z.pow_pos_nonneg; lia).
    destruct (digits_spec (steps m e / 10 ^ 10)) as (Hne & Hd & Hnum).
    { apply Z.div_pos; lia. }
    destruct (steps_nearest_units neg m e Hm He) as (W & HW & Htol).
    exists (nearest_double neg (steps m e) (10 ^ 10)). split.
    + unfold float_of_string, fmt10, fmt10_chars.
      rewrite list_ascii_of_string_of_list_ascii.
      cbn [app].
      rewrite (float_of_chars_decimal neg _ _ (steps m e) Hne Hd).
      * by rewrite digits_fixed_length.
      * rewrite num_of_app, Hnum. cbn [mbind option_bind].
        rewrite num_of_digits_fixed. f_equal.
        change (Z.of_nat 10) with 10.
        rewrite Z.mod_mod by lia.
        pose proof (Z.div_mod (steps m e) (10 ^ 10) ltac:(lia)). lia.
    + unfold within. rewrite HW. unfold units.
      destruct (Z.leb_spec (-1074) e) as [_|]; [|lia].
      apply Z.leb_le. etrans; [|exact Htol].
      apply Z.mul_le_mono_nonneg_r; [lia|].
      set (V := Z.pos m * 2 ^ (e + 1074)). destruct neg; lia.
Qed.

End NumFacts.

(** ** The table file *)

Module CsvFacts.

Import Csv.

(** *** Reading a record *)

Lemma dict_row_full (fieldnames row : list string) :
  length row = length fieldnames ->
  dict_row fieldnames row = zip fieldnames (List.map Some row).
Proof.
  intros Hl. unfold dict_row. rewrite Hl, drop_all. simpl. by rewrite app_nil_r.
Qed.

(** Columns that all hold the text [f] gives for their name: the text
    under a name is [f name], also when the name is repeated. *)
Lemma last_binding_columns (f : string -> string) (cols : list string) (name : string)
    (acc : option string) :
  foldl (last_binding name) acc (zip cols (List.map Some (List.map f cols)))
    = if decide (name ∈ cols) then Some (f name) else acc.
Proof.
  revert acc. induction cols as [|c cols IH]; intros acc.
  - destruct (decide (_ ∈ [])) as [H|_]; [by apply elem_of_nil in H|done].
  - cbn [List.map zip zip_with foldl]. rewrite IH. unfold last_binding. cbn [fst snd].
    destruct (decide (name ∈ cols)) as [Hin|Hin].
    + rewrite decide_True by (by right). done.
    + destruct (decide (c = name)) as [->|Hne].
      * rewrite decide_True by (by left). done.
      * rewrite decide_False; [done|]. intros [?|?]%elem_of_cons; congruence.
Qed.

Section Record.

Variables (t : table) (cols : list string) (d m : string).
Hypothesis cols_date : "date" ∉ cols.
Hypothesis cols_metric : "metric" ∉ cols.

Let fieldnames : list string := "date" :: "metric" :: cols.
Let cell_text (c : string) : string := render (default ∅ (t !! (d, m)) !! c).

Lemma record_dict :
  dict_row fieldnames (table_record t cols (d, m))
    = ("date", Some d) :: ("metric", Some m)
      :: zip cols (List.map Some (List.map cell_text cols)).
Proof.
  rewrite dict_row_full; [done|]. unfold fieldnames, table_record. simpl.
  by rewrite length_map.
Qed.

Lemma record_date : row_get fieldnames (table_record t cols (d, m)) "date" = Some d.
Proof.
  unfold row_get. rewrite record_dict. cbn [foldl]. rewrite last_binding_columns.
  by rewrite decide_False.
Qed.

Lemma record_metric : row_get fieldnames (table_record t cols (d, m)) "metric" = Some m.
Proof.
  unfold row_get. rewrite record_dict. cbn [foldl]. rewrite last_binding_columns.
  by rewrite decide_False.
Qed.

Lemma record_column (c : string) :
  c ∈ cols -> row_get fieldnames (table_record t cols (d, m)) c = Some (cell_text c).
Proof.
  intros Hc. unfold row_get. rewrite record_dict. cbn [foldl]. rewrite last_binding_columns.
  by rewrite decide_True.
Qed.

End Record.

(** The header's own names are no token columns. *)
Lemma token_cols_of_header (cols : list string) :
  "date" ∉ cols -> "metric" ∉ cols ->
  List.filter (fun c => negb (bool_decide (c ∈ ["date"; "metric"])))
              ("date" :: "metric" :: cols) = cols.
Proof.
  intros Hd Hm. cbn [List.filter].
  rewrite !bool_decide_eq_true_2 by set_solver. cbn [negb].
  induction cols as [|c cols IH]; [done|]. cbn [List.filter].
  rewrite bool_decide_eq_false_2 by set_solver. cbn [negb]. f_equal.
  apply IH; set_solver.
Qed.

(** *** The cells of a record *)

Lemma read_cells_lookup (store : string -> string) (fieldnames cols row : list string)
    (rm : gmap string float) (x : string) :
  (forall c, c ∈ cols -> store c = c) ->
  read_cells store fieldnames cols row rm !! x
    = if decide (x ∈ cols) then
        match read_cell (row_get fieldnames row x) with
        | Some v => Some v
        | None => rm !! x
        end
      else rm !! x.
Proof.
  unfold read_cells. revert rm. induction cols as [|c cols IH]; intros rm Hst.
  - destruct (decide (_ ∈ [])) as [H|_]; [by apply elem_of_nil in H|done].
  - cbn [foldl]. rewrite IH by (intros; apply Hst; by right).
    rewrite (Hst c) by (by left).
    destruct (decide (x = c)) as [->|Hne].
    + rewrite (decide_True (P := c ∈ c :: cols)) by (by left).
      destruct (decide (c ∈ cols)); destruct (read_cell _) eqn:E; try done.
      by rewrite lookup_insert_eq.
    + assert (forall rm' : gmap string float,
                match read_cell (row_get fieldnames row c) with
                | Some x0 => <[c:=x0]> rm'
                | None => rm'
                end !! x = rm' !! x) as Hother.
      { intros rm'. destruct (read_cell (row_get fieldnames row c)); [|done].
        by rewrite lookup_insert_ne. }
      rewrite Hother.
      destruct (decide (x ∈ cols)) as [Hin|Hin].
      * rewrite decide_True by (by right). done.
      * rewrite decide_False; [done|]. intros [?|?]%elem_of_cons; congruence.
Qed.

Lemma read_cell_render (v : option float) : read_cell (Some (render v)) = v ≫= reload.
Proof. destruct v; done. Qed.

(** *** The columns *)

Lemma existing_tokens_elem (t : table) (x : string) :
  x ∈ existing_tokens t <-> exists k r, t !! k = Some r /\ is_Some (r !! x).
Proof.
  unfold existing_tokens. rewrite elem_of_union_list. split.
  - intros (X & HX & Hx). apply list_elem_of_fmap in HX as (r & -> & Hr).
    apply list_elem_of_fmap in Hr as ([k r'] & -> & Hkr).
    apply elem_of_map_to_list in Hkr. exists k, r'. split; [done|].
    by apply elem_of_dom.
  - intros (k & r & Hk & Hx). exists (dom r). split; [|by apply elem_of_dom].
    apply list_elem_of_fmap. exists r. split; [done|].
    apply list_elem_of_fmap. exists (k, r). split; [done|].
    by apply elem_of_map_to_list.
Qed.

Lemma elem_of_List_filter {A : Type} (p : A -> bool) (l : list A) (x : A) :
  x ∈ List.filter p l <-> x ∈ l /\ p x = true.
Proof. rewrite !list_elem_of_In. apply filter_In. Qed.

Lemma header_tokens_elem (t : table) (names : list string) (x : string) :
  x ∈ header_tokens t names <-> x ∈ names \/ x ∈ existing_tokens t.
Proof.
  unfold header_tokens. rewrite elem_of_app, merge_sort_Permutation.
  rewrite elem_of_List_filter, elem_of_elements.
  destruct (decide (x ∈ names)) as [Hin|Hin].
  - naive_solver.
  - rewrite bool_decide_eq_false_2 by done. naive_solver.
Qed.

(** *** The records of a table *)

Section Roundtrip.

Variables (store : string -> string) (leb : string * string -> string * string -> bool).
Variables (t : table) (names : list string).

(** Every key has a date and a metric; every column keeps its name when it
    is stored, and is neither of the two leading columns. *)
Hypothesis keys_named : forall d m, is_Some (t !! (d, m)) -> d <> "" /\ m <> "".
Hypothesis columns_stored : forall c, c ∈ header_tokens t names ->
  store c = c /\ c <> "date" /\ c <> "metric".

Let cols : list string := header_tokens t names.
Let fieldnames : list string := "date" :: "metric" :: cols.

Lemma cols_date : "date" ∉ cols.
Proof. intros H. by destruct (columns_stored _ H) as (_ & ? & _). Qed.

Lemma cols_metric : "metric" ∉ cols.
Proof. intros H. by destruct (columns_stored _ H) as (_ & _ & ?). Qed.

Lemma truthy_named (s : string) : s <> "" -> Str.truthy s = true.
Proof. by destruct s. Qed.

(** Reading the record of a key stores what its cells reload to. *)
Lemma read_row_record (acc : table) (k : string * string) :
  is_Some (t !! k) ->
  read_row store fieldnames cols acc (table_record t cols k)
    = <[k := read_cells store fieldnames cols (table_record t cols k)
               (default ∅ (acc !! k))]> acc.
Proof.
  destruct k as [d m]. intros Hk. destruct (keys_named d m Hk) as [Hd Hm].
  unfold read_row, fieldnames.
  rewrite record_date, record_metric by (apply cols_date || apply cols_metric).
  by rewrite !truthy_named.
Qed.

Lemma read_rows_lookup (keys : list (string * string)) :
  NoDup keys -> (forall k', k' ∈ keys -> is_Some (t !! k')) ->
  forall k,
  foldl (read_row store fieldnames cols) ∅ (List.map (table_record t cols) keys) !! k
    = if decide (k ∈ keys)
      then Some (read_cells store fieldnames cols (table_record t cols k) ∅)
      else None.
Proof.
  induction keys as [|k' keys IH] using rev_ind; intros Hnd Hin k.
  - destruct (decide (_ ∈ [])) as [H|_]; [by apply elem_of_nil in H|done].
  - apply NoDup_app in Hnd as (Hnd & Hfresh & _).
    rewrite map_app, foldl_app. cbn [List.map foldl].
    rewrite read_row_record by (apply Hin, elem_of_app; right; by left).
    specialize (IH Hnd (fun x Hx => Hin x (proj2 (elem_of_app _ _ _) (or_introl Hx)))).
    assert (k' ∉ keys) as Hk'.
    { intros H. apply (Hfresh _ H). by left. }
    destruct (decide (k = k')) as [->|Hne].
    + rewrite lookup_insert_eq. rewrite decide_True by (apply elem_of_app; right; by left).
      by rewrite (IH k'), decide_False.
    + rewrite lookup_insert_ne by done. rewrite IH.
      destruct (decide (k ∈ keys)) as [H|H].
      * rewrite decide_True by (apply elem_of_app; by left). done.
      * rewrite decide_False; [done|].
        intros [?|?%list_elem_of_singleton]%elem_of_app; congruence.
Qed.

Lemma sorted_keys_elem (k : string * string) :
  k ∈ merge_sort (sorted_by leb) (map_to_list t).*1 <-> is_Some (t !! k).
Proof.
  rewrite merge_sort_Permutation, list_elem_of_fmap. split.
  - intros ([k' r] & -> & H%elem_of_map_to_list). by exists r.
  - intros [r Hr]. exists (k, r). split; [done|]. by apply elem_of_map_to_list.
Qed.

Lemma sorted_keys_NoDup : NoDup (merge_sort (sorted_by leb) (map_to_list t).*1).
Proof. rewrite merge_sort_Permutation. apply NoDup_fst_map_to_list. Qed.

(** The rows read back are the rows written. *)
Lemma read_write_keys (k : string * string) :
  is_Some ((read store (Some (write leb t names))).1 !! k) <-> is_Some (t !! k).
Proof.
  unfold read, write. fold cols.
  rewrite token_cols_of_header by (apply cols_date || apply cols_metric).
  cbn [fst]. fold fieldnames.
  rewrite read_rows_lookup;
    [|apply sorted_keys_NoDup|by intros k' ?%sorted_keys_elem].
  destruct (decide (k ∈ _)) as [H|H].
  - apply sorted_keys_elem in H. split; [done|]. by eexists.
  - split; [by intros [? ?]|]. intros H'. by apply sorted_keys_elem in H'.
Qed.

(** A cell read back is what the written cell reloads to; a cell that was
    not there is not there. *)
Lemma read_write_cell (d m x : string) :
  ArtCoin.cell (read store (Some (write leb t names))).1 d m x
    = ArtCoin.cell t d m x ≫= reload.
Proof.
  unfold ArtCoin.cell, read, write. fold cols.
  rewrite token_cols_of_header by (apply cols_date || apply cols_metric).
  cbn [fst]. fold fieldnames.
  rewrite read_rows_lookup;
    [|apply sorted_keys_NoDup|by intros k' ?%sorted_keys_elem].
  destruct (decide ((d, m) ∈ _)) as [H|H].
  - apply sorted_keys_elem in H as [r Hr]. rewrite Hr. cbn [mbind option_bind].
    rewrite read_cells_lookup by (intros c Hc; by destruct (columns_stored c Hc)).
    destruct (decide (x ∈ cols)) as [Hx|Hx].
    + unfold fieldnames. rewrite record_column by (apply cols_date || apply cols_metric || done).
      rewrite read_cell_render, Hr. cbn [default]. rewrite lookup_empty.
      change (id r) with r. by destruct (r !! x ≫= reload).
    + rewrite lookup_empty. destruct (r !! x) as [v|] eqn:E; [|done].
      destruct Hx. apply header_tokens_elem. right.
      apply existing_tokens_elem. exists (d, m), r. split; [done|]. by rewrite E.
  - destruct (t !! (d, m)) as [r|] eqn:E; [|done].
    destruct H. apply sorted_keys_elem. by rewrite E.
Qed.

End Roundtrip.


(** *** Values *)

(** A finite double comes back as a double within 1e-10 of it. *)
Lemma reload_finite (v : float) :
  Num.is_double v = true -> Num.is_finite v = true ->
  exists w, reload v = Some w /\ Num.within 10 v w = true.
Proof.
  intros Hd Hf. destruct (NumFacts.fmt10_float_of_string v Hd Hf) as (w & Hw & Htol).
  exists w. split; [|done]. unfold reload, read_cell.
  destruct (decide (Num.fmt10 v = "")) as [E|_].
  { rewrite E in Hw. discriminate Hw. }
  destruct (decide (Num.fmt10 v = "NaN")) as [E|_]; [|done].
  rewrite E in Hw. injection Hw as <-.
  unfold Num.within in Htol. by destruct (Num.units v).
Qed.

(** NaN and the infinities are written by name and come back as
    themselves, which no tolerance accepts. *)
Lemma reload_not_finite :
  reload S754_nan = Some S754_nan /\
  reload (S754_infinity false) = Some (S754_infinity false) /\
  reload (S754_infinity true) = Some (S754_infinity true) /\
  forall v k, Num.is_finite v = false -> Num.within k v v = false.
Proof.
  split; [by vm_compute|]. split; [by vm_compute|]. split; [by vm_compute|].
  intros v k Hv. by destruct v.
Qed.

(** *** Upper case *)

Lemma upper_ascii_idemp (c : ascii) :
  Str.upper_ascii (Str.upper_ascii c) = Str.upper_ascii c.
Proof. destruct c as [[] [] [] [] [] [] [] []]; reflexivity. Qed.

Lemma upper_idemp (s : string) : Str.upper (Str.upper s) = Str.upper s.
Proof.
  unfold Str.upper. induction s as [|c s IH]; simpl; [done|].
  by rewrite upper_ascii_idemp, IH.
Qed.

Lemma upper_ascii_not_lower (c : ascii) : Str.is_lower (Str.upper_ascii c) = false.
Proof. destruct c as [[] [] [] [] [] [] [] []]; reflexivity. Qed.

(** An upper-case name is neither "date" nor "metric". *)
Lemma upper_not_header (s : string) : Str.upper s <> "date" /\ Str.upper s <> "metric".
Proof.
  destruct s as [|c s]; [done|]. unfold Str.upper. simpl.
  pose proof (upper_ascii_not_lower c) as H.
  split; intros [= Hc _]; rewrite Hc in H; discriminate H.
Qed.

(** *** art_coin.py *)

Lemma coin_columns_stored (t : table) (tokens : list string) (c : string) :
  (forall d m x v, ArtCoin.cell t d m x = Some v -> ArtCoin.is_upper_name x) ->
  c ∈ header_tokens t (List.map Str.upper tokens) ->
  Str.upper c = c /\ c <> "date" /\ c <> "metric".
Proof.
  intros Hup Hc.
  assert (Str.upper c = c) as E.
  { apply header_tokens_elem in Hc as [Hc|Hc].
    - apply list_elem_of_In, in_map_iff in Hc as (tok & <- & _). apply upper_idemp.
    - apply existing_tokens_elem in Hc as ([d m] & r & Hr & [v Hv]).
      apply (Hup d m c v). unfold ArtCoin.cell. by rewrite Hr. }
  split; [done|]. rewrite <- E. apply upper_not_header.
Qed.

(** A property of every entry of a map, from its check on the list of the
    entries. *)
Lemma map_forallb `{Countable K} {V : Type} (p : K * V -> bool) (m : gmap K V) :
  forallb p (map_to_list m) = true ->
  forall k v, m !! k = Some v -> p (k, v) = true.
Proof.
  intros Hp k v Hk. rewrite forallb_forall in Hp.
  apply Hp, list_elem_of_In. by apply elem_of_map_to_list.
Qed.

(** C2, as the code has it. A table whose rows all have a date and a
    series, whose entity names are upper case and whose values are finite
    doubles is written and read back with the same rows: an absent cell is
    absent, and a present cell holds a value within 1e-9 of the one
    written. *)
Theorem table_roundtrip (METRICS tokens : list string) (t : table) :
  (forall d m, is_Some (t !! (d, m)) -> d <> "" /\ m <> "") ->
  (forall d m x v, ArtCoin.cell t d m x = Some v ->
     ArtCoin.is_upper_name x /\ Num.is_double v = true /\ Num.is_finite v = true) ->
  let t' := (ArtCoin.read_existing_table (Some (ArtCoin.write_table METRICS t tokens))).1 in
  (forall d m, is_Some (t' !! (d, m)) <-> is_Some (t !! (d, m))) /\
  (forall d m x, ArtCoin.cell t d m x = None -> ArtCoin.cell t' d m x = None) /\
  (forall d m x v, ArtCoin.cell t d m x = Some v ->
     exists w, ArtCoin.cell t' d m x = Some w /\ Num.within 9 v w = true).
Proof.
  intros Hkeys Hcells t'.
  assert (forall c, c ∈ header_tokens t (List.map Str.upper tokens) ->
            Str.upper c = c /\ c <> "date" /\ c <> "metric") as Hcols.
  { intros c. apply coin_columns_stored. intros d m x v H. by destruct (Hcells d m x v H). }
  split; [|split].
  - intros d m. by apply read_write_keys.
  - intros d m x H. unfold t', ArtCoin.read_existing_table, ArtCoin.write_table.
    rewrite read_write_cell by done. by rewrite H.
  - intros d m x v H. destruct (Hcells d m x v H) as (_ & Hd & Hf).
    destruct (reload_finite v Hd Hf) as (w & Hw & Htol). exists w. split.
    + unfold t', ArtCoin.read_existing_table, ArtCoin.write_table.
      rewrite read_write_cell by done. by rewrite H.
    + eapply NumFacts.within_mono; [|exact Htol]. lia.
Qed.

(** C2 as stated fails on a table with a row whose date is empty (a point
    the API dated with an empty text): the row is written and passed over on
    reading, so its cell is gone. *)
Lemma table_roundtrip_counterexample :
  let t : table := {[ ("", "price") := {[ "BTC" := float_of_Z 1 ]} ]} in
  ArtCoin.write_table ["price"] t ["BTC"]
    = [["date"; "metric"; "BTC"]; [""; "price"; "1.0000000000"]] /\
  ArtCoin.cell t "" "price" "BTC" = Some (float_of_Z 1) /\
  (ArtCoin.read_existing_table (Some (ArtCoin.write_table ["price"] t ["BTC"]))).1 = ∅.
Proof. by vm_compute. Qed.

(** The two other tables that do not come back: an entity in lower case
    comes back under its upper-case name, and NaN comes back as NaN. *)
Lemma table_roundtrip_lower_case :
  let t : table := {[ ("2024-01-01", "price") := {[ "btc" := float_of_Z 1 ]} ]} in
  let t' := (ArtCoin.read_existing_table (Some (ArtCoin.write_table ["price"] t ["BTC"]))).1 in
  ArtCoin.cell t' "2024-01-01" "price" "btc" = None /\
  ArtCoin.cell t "2024-01-01" "price" "BTC" = None /\
  ArtCoin.cell t' "2024-01-01" "price" "BTC" = Some (float_of_Z 1).
Proof. by vm_compute. Qed.

(** An instance: the table of the scenario. *)
Lemma table_roundtrip_witness :
  exists w,
    ArtCoin.cell (ArtCoin.read_existing_table
                    (Some (ArtCoin.write_table ["price"] Scenario.merged ["ETH"; "BTC"]))).1
                 "2024-01-01" "price" "ETH" = Some w /\
    Num.within 9 (float_of_Z 100) w = true.
Proof.
  refine (proj2 (proj2 (table_roundtrip ["price"] ["ETH"; "BTC"] Scenario.merged _ _))
            "2024-01-01" "price" "ETH" (float_of_Z 100) _);
    [| |vm_compute; reflexivity].
  - intros d m [r Hr].
    assert (forallb (fun kr : string * string * row =>
                       Str.truthy kr.1.1 && Str.truthy kr.1.2)
                    (map_to_list Scenario.merged) = true) as Hchk
      by (vm_compute; reflexivity).
    pose proof (map_forallb _ _ Hchk (d, m) r Hr) as H. cbn [fst snd] in H.
    apply andb_true_iff in H as [H1 H2]. split; intros ->; discriminate.
  - intros d m x v H. unfold ArtCoin.cell in H.
    destruct (Scenario.merged !! (d, m)) as [r|] eqn:Hr; [|done]. simpl in H.
    assert (forallb (fun kr : string * string * row =>
                       forallb (fun xv : string * float =>
                                  String.eqb (Str.upper xv.1) xv.1
                                  && Num.is_double xv.2 && Num.is_finite xv.2)
                               (map_to_list kr.2))
                    (map_to_list Scenario.merged) = true) as Hchk
      by (vm_compute; reflexivity).
    pose proof (map_forallb _ _ Hchk (d, m) r Hr) as Hrow. cbn [fst snd] in Hrow.
    pose proof (map_forallb _ _ Hrow x v H) as Hc. cbn [fst snd] in Hc.
    apply andb_true_iff in Hc as [[H1 H2]%andb_true_iff H3].
    apply String.eqb_eq in H1. exact (conj H1 (conj H2 H3)).
Defined.

(** *** art_dat.py *)

(** X12. The same round trip for the equities table, whose reader stores a
    column under its own name: no column may be named "date" or "metric". *)
Lemma dat_table_roundtrip (symbols : list string) (t : table) :
  (forall d m, is_Some (t !! (d, m)) -> d <> "" /\ m <> "") ->
  (forall c, c ∈ symbols -> c <> "date" /\ c <> "metric") ->
  (forall d m x v, ArtCoin.cell t d m x = Some v ->
     x <> "date" /\ x <> "metric" /\ Num.is_double v = true /\ Num.is_finite v = true) ->
  let t' := (ArtDat.read_table (Some (ArtDat.write_table t symbols))).1 in
  (forall d m, is_Some (t' !! (d, m)) <-> is_Some (t !! (d, m))) /\
  (forall d m x, ArtCoin.cell t d m x = None -> ArtCoin.cell t' d m x = None) /\
  (forall d m x v, ArtCoin.cell t d m x = Some v ->
     exists w, ArtCoin.cell t' d m x = Some w /\ Num.within 9 v w = true).
Proof.
  intros Hkeys Hsyms Hcells t'.
  assert (forall c, c ∈ header_tokens t symbols ->
            id c = c /\ c <> "date" /\ c <> "metric") as Hcols.
  { intros c [Hc|Hc]%header_tokens_elem; [by destruct (Hsyms c Hc)|].
    apply existing_tokens_elem in Hc as ([d m] & r & Hr & [v Hv]).
    destruct (Hcells d m c v) as (? & ? & _); [|done].
    unfold ArtCoin.cell. by rewrite Hr. }
  split; [|split].
  - intros d m. by apply read_write_keys.
  - intros d m x H. unfold t', ArtDat.read_table, ArtDat.write_table.
    rewrite read_write_cell by done. by rewrite H.
  - intros d m x v H. destruct (Hcells d m x v H) as (_ & _ & Hd & Hf).
    destruct (reload_finite v Hd Hf) as (w & Hw & Htol). exists w. split.
    + unfold t', ArtDat.read_table, ArtDat.write_table.
      rewrite read_write_cell by done. by rewrite H.
    + eapply NumFacts.within_mono; [|exact Htol]. lia.
Qed.

Lemma dat_table_roundtrip_witness :
  exists w,
    ArtCoin.cell (ArtDat.read_table
                    (Some (ArtDat.write_table ArtDat.example_table ["EQ-MSTR"]))).1
                 "2024-01-01" "PRICE" "EQ-MSTR" = Some w /\
    Num.within 9 (float_of_Z 100) w = true.
Proof.
  refine (proj2 (proj2 (dat_table_roundtrip ["EQ-MSTR"] ArtDat.example_table _ _ _))
            "2024-01-01" "PRICE" "EQ-MSTR" (float_of_Z 100) _);
    [| | |vm_compute; reflexivity].
  - intros d m [r Hr].
    assert (forallb (fun kr : string * string * row =>
                       Str.truthy kr.1.1 && Str.truthy kr.1.2)
                    (map_to_list ArtDat.example_table) = true) as Hchk
      by (vm_compute; reflexivity).
    pose proof (map_forallb _ _ Hchk (d, m) r Hr) as H. cbn [fst snd] in H.
    apply andb_true_iff in H as [H1 H2]. split; intros ->; discriminate.
  - intros c Hc. apply list_elem_of_singleton in Hc as ->. split; discriminate.
  - intros d m x v H. unfold ArtCoin.cell in H.
    destruct (ArtDat.example_table !! (d, m)) as [r|] eqn:Hr; [|done]. simpl in H.
    assert (forallb (fun kr : string * string * row =>
                       forallb (fun xv : string * float =>
                                  negb (String.eqb xv.1 "date") && negb (String.eqb xv.1 "metric")
                                  && Num.is_double xv.2 && Num.is_finite xv.2)
                               (map_to_list kr.2))
                    (map_to_list ArtDat.example_table) = true) as Hchk
      by (vm_compute; reflexivity).
    pose proof (map_forallb _ _ Hchk (d, m) r Hr) as Hrow. cbn [fst snd] in Hrow.
    pose proof (map_forallb _ _ Hrow x v H) as Hc. cbn [fst snd] in Hc.
    apply andb_true_iff in Hc as [[[H1 H2]%andb_true_iff H3]%andb_true_iff H4].
    apply negb_true_iff, String.eqb_neq in H1. apply negb_true_iff, String.eqb_neq in H2.
    exact (conj H1 (conj H2 (conj H3 H4))).
Defined.

End CsvFacts.

(** ** Writing a file *)

Module PersistFacts.

Import Persist.

Lemma exec_app (s : files) (a b : list op) : exec s (a ++ b) = exec (exec s a) b.
Proof. apply foldl_app. Qed.

(** Appending to one file leaves the others as they are. *)
Lemma exec_append_other (s : files) (path q : string) (records : list (list string)) :
  q <> path -> exec s (List.map (Append path) records) !! q = s !! q.
Proof.
  intros Hq. revert s. induction records as [|r records IH]; intros s; [done|].
  cbn [List.map exec foldl]. fold (exec (step s (Append path r)) (List.map (Append path) records)).
  rewrite IH. cbn [step]. by rewrite lookup_insert_ne.
Qed.

Lemma exec_append_same (s : files) (path : string) (c : list (list string))
    (records : list (list string)) :
  s !! path = Some c ->
  exec s (List.map (Append path) records) !! path = Some (c ++ records).
Proof.
  revert s c. induction records as [|r records IH]; intros s c Hc.
  - by rewrite app_nil_r.
  - cbn [List.map exec foldl].
    fold (exec (step s (Append path r)) (List.map (Append path) records)).
    rewrite (IH _ (c ++ [r])).
    + by rewrite <- app_assoc.
    + cbn [step]. by rewrite lookup_insert_eq, Hc.
Qed.

Lemma take_open_and_write (n : nat) (path : string) (records : list (list string)) :
  take (S n) (open_and_write path records) = open_and_write path (take n records).
Proof.
  unfold open_and_write. cbn [take]. f_equal.
  revert n. induction records as [|r records IH]; intros [|n]; try done.
  cbn [List.map take]. by rewrite IH.
Qed.

Lemma open_and_write_done (s : files) (path : string) (records : list (list string)) :
  exec s (open_and_write path records) !! path = Some records.
Proof.
  unfold open_and_write. cbn [exec foldl].
  fold (exec (step s (Truncate path)) (List.map (Append path) records)).
  rewrite (exec_append_same _ path []); [done|]. cbn [step]. by rewrite lookup_insert_eq.
Qed.

Lemma open_and_write_other (s : files) (path q : string) (records : list (list string)) :
  q <> path -> exec s (open_and_write path records) !! q = s !! q.
Proof.
  intros Hq. unfold open_and_write. cbn [exec foldl].
  fold (exec (step s (Truncate path)) (List.map (Append path) records)).
  rewrite exec_append_other by done. cbn [step]. by rewrite lookup_insert_ne.
Qed.

(** C4, for the writers of art_coin.py and art_dat.py. A write that stops
    after the destination was opened leaves in it the records written so
    far: what the file held before is gone, and what it holds is a part of
    the new content. *)
Theorem open_and_write_stopped (s : files) (path : string) (records : list (list string))
    (n : nat) :
  (0 < n)%nat ->
  stopped_after n s (open_and_write path records) !! path = Some (take (n - 1) records).
Proof.
  intros Hn. destruct n as [|n]; [lia|]. unfold stopped_after.
  rewrite take_open_and_write, open_and_write_done. do 2 f_equal. lia.
Qed.

(** An instance: the table file holds a header and two rows; the run
    writes a table of three rows and stops after the header and the first
    row. The file then holds neither the old table nor the new one. *)
Lemma open_and_write_stopped_witness :
  let old := [["date"; "metric"; "ETH"];
              ["2024-01-01"; "price"; "100.0000000000"];
              ["2024-01-02"; "price"; "110.0000000000"]] in
  let new := old ++ [["2024-01-03"; "price"; "120.0000000000"]] in
  stopped_after 3 {[ "token_data.csv" := old ]} (open_and_write "token_data.csv" new)
    !! "token_data.csv"
  = Some [["date"; "metric"; "ETH"]; ["2024-01-01"; "price"; "100.0000000000"]].
Proof.
  intros old new.
  exact (open_and_write_stopped {[ "token_data.csv" := old ]} "token_data.csv" new 3
           (Nat.lt_0_succ 2)).
Defined.

(** X21. The writer of fs_etf.py: at whatever step the write stops, the
    destination holds what it held before, or (once every step is done) the
    whole new content; and when it is done the temporary file is gone. *)
Lemma atomic_write_csv_stopped (s : files) (tmp path : string)
    (records : list (list string)) (n : nat) :
  tmp <> path ->
  let s' := stopped_after n s (atomic_write_csv tmp path records) in
  (n < length records + 2 -> s' !! path = s !! path)%nat /\
  (length records + 2 <= n -> s' !! path = Some records /\ s' !! tmp = None)%nat.
Proof.
  intros Hne s'. subst s'. unfold stopped_after, atomic_write_csv.
  assert (length (open_and_write tmp records) = S (length records)) as Hlen.
  { unfold open_and_write. simpl. by rewrite length_map. }
  split; intros Hn.
  - rewrite take_app_le by lia.
    destruct n as [|n]; [done|].
    rewrite take_open_and_write. by apply open_and_write_other.
  - rewrite take_ge by (rewrite length_app, Hlen; simpl; lia).
    rewrite exec_app. cbn [exec foldl step].
    fold (exec s (open_and_write tmp records)).
    rewrite open_and_write_done. split.
    + by rewrite lookup_insert_eq.
    + rewrite lookup_insert_ne by done. by rewrite lookup_delete_eq.
Qed.

Lemma atomic_write_csv_stopped_witness :
  stopped_after 2 {[ "etf_data.csv" := [["date"; "metric"; "BTC"; "ETH"]] ]}
    (atomic_write_csv "tmpab12.tmp" "etf_data.csv"
       [["date"; "metric"; "BTC"; "ETH"]; ["2024-01-01"; "etf_net_flow_usd_millions"; "5.0"; "0.0"]])
    !! "etf_data.csv"
  = Some [["date"; "metric"; "BTC"; "ETH"]].
Proof.
  refine (proj1 (atomic_write_csv_stopped
                   {[ "etf_data.csv" := [["date"; "metric"; "BTC"; "ETH"]] ]}
                   "tmpab12.tmp" "etf_data.csv" _ 2 _) _).
  - discriminate.
  - simpl. lia.
Defined.

End PersistFacts.

(** ** Batches, payloads and merges (art_coin.py) *)

Module CoinFacts.

Import ArtCoin.

(** *** Batches *)

Lemma chunk_fuel_concat {A : Type} (fuel : nat) (lst : list A) (n : nat) :
  (0 < n)%nat -> (length lst <= fuel)%nat -> concat (chunk_fuel fuel lst n) = lst.
Proof.
  intros Hn. revert lst. induction fuel as [|fuel IH]; intros lst Hl.
  - destruct lst; [done|simpl in Hl; lia].
  - destruct lst as [|x lst]; [done|]. cbn [chunk_fuel concat].
    rewrite IH; [apply take_drop|]. rewrite length_drop. simpl in *. lia.
Qed.

Lemma chunk_fuel_sizes {A : Type} (fuel : nat) (lst : list A) (n : nat) :
  (0 < n)%nat ->
  Forall (fun c => (0 < length c <= n)%nat) (chunk_fuel fuel lst n).
Proof.
  intros Hn. revert lst. induction fuel as [|fuel IH]; intros lst.
  - destruct lst; constructor.
  - destruct lst as [|x lst]; [constructor|]. cbn [chunk_fuel]. constructor; [|apply IH].
    rewrite length_take. simpl. lia.
Qed.

(** X1. [chunk] cuts the list into consecutive pieces: put together they are
    the list, and each holds at least one and at most [n] elements. *)
Lemma chunk_partition {A : Type} (lst : list A) (n : nat) :
  (0 < n)%nat ->
  concat (chunk lst n) = lst /\
  Forall (fun c => (0 < length c <= n)%nat) (chunk lst n).
Proof.
  intros Hn. split; [by apply chunk_fuel_concat|by apply chunk_fuel_sizes].
Qed.

Lemma chunk_partition_witness :
  concat (chunk ["ETH"; "BTC"; "USDC"] 2) = ["ETH"; "BTC"; "USDC"] /\
  Forall (fun c => (0 < length c <= 2)%nat) (chunk ["ETH"; "BTC"; "USDC"] 2).
Proof. exact (chunk_partition ["ETH"; "BTC"; "USDC"] 2 (Nat.lt_0_succ 1)). Defined.

(** *** The fetched payload *)

Lemma dict_set_keys {V : Type} (k : string) (v : V) (d : list (string * V)) (x : string) :
  x ∈ (dict_set k v d).*1 <-> x = k \/ x ∈ d.*1.
Proof.
  induction d as [|[k' v'] d IH]; simpl.
  - rewrite list_elem_of_singleton. split; [auto|]. intros [?|H]; [done|].
    by apply elem_of_nil in H.
  - destruct (String.eqb_spec k' k) as [->|Hne]; simpl.
    + rewrite !elem_of_cons. naive_solver.
    + rewrite !elem_of_cons, IH. naive_solver.
Qed.

Lemma dict_set_NoDup {V : Type} (k : string) (v : V) (d : list (string * V)) :
  NoDup d.*1 -> NoDup (dict_set k v d).*1.
Proof.
  induction d as [|[k' v'] d IH]; simpl; intros Hnd.
  - repeat constructor. apply not_elem_of_nil.
  - apply NoDup_cons in Hnd as [Hk' Hnd].
    destruct (String.eqb_spec k' k) as [->|Hne]; simpl.
    + by constructor.
    + constructor; [|by apply IH]. rewrite dict_set_keys. naive_solver.
Qed.

Lemma batch_keys (metric : string) (syms : gmap string (gmap string (list raw_point)))
    (batch : list string) (acc : payload) (x : string) :
  x ∈ (foldl (batch_series metric syms) acc batch).*1
  <-> x ∈ acc.*1 \/ exists tok, tok ∈ batch /\ x = Str.upper tok.
Proof.
  revert acc. induction batch as [|tok batch IH]; intros acc; cbn [foldl].
  - split; [auto|]. intros [?|(tok & H & _)]; [done|]. by apply elem_of_nil in H.
  - rewrite IH. unfold batch_series. rewrite dict_set_keys. split.
    + intros [[->|H]|(tok' & H & ->)]; [right|by left|right].
      * exists tok. split; [by left|done].
      * exists tok'. split; [by right|done].
    + intros [H|(tok' & [->|H]%elem_of_cons & ->)]; [by left; right|by left; left|].
      right. by exists tok'.
Qed.

Lemma batch_NoDup (metric : string) (syms : gmap string (gmap string (list raw_point)))
    (batch : list string) (acc : payload) :
  NoDup acc.*1 -> NoDup (foldl (batch_series metric syms) acc batch).*1.
Proof.
  revert acc. induction batch as [|tok batch IH]; intros acc Hnd; cbn [foldl]; [done|].
  apply IH. unfold batch_series. by apply dict_set_NoDup.
Qed.

Lemma fetch_batches_keys (client : request -> response) (metric start end_ : string)
    (batches : list (list string)) (acc p : payload) :
  fetch_batches client metric start end_ batches acc = Ok p ->
  (NoDup acc.*1 -> NoDup p.*1) /\
  forall x, x ∈ p.*1 <-> x ∈ acc.*1 \/ exists tok, tok ∈ concat batches /\ x = Str.upper tok.
Proof.
  revert acc. induction batches as [|b batches IH]; intros acc; simpl.
  - intros [= <-]. split; [done|]. intros x. split; [auto|].
    intros [?|(tok & H & _)]; [done|]. by apply elem_of_nil in H.
  - destruct (client _) as [| |symbols]; try done. intros H.
    apply IH in H as [Hnd Hkeys]. split.
    + intros Hacc. by apply Hnd, batch_NoDup.
    + intros x. rewrite Hkeys, batch_keys. setoid_rewrite elem_of_app. naive_solver.
Qed.

(** X2. A fetch that succeeds returns one entry for each requested token,
    under its upper-case name, whether the response had data for it or
    not, and no other entry. *)
Lemma fetch_entries (client : request -> response) (metric start end_ : string)
    (tokens : list string) (p : payload) :
  fetch_metric_for_tokens client metric tokens start end_ = Ok p ->
  NoDup p.*1 /\
  forall x, x ∈ p.*1 <-> exists tok, tok ∈ tokens /\ x = Str.upper tok.
Proof.
  unfold fetch_metric_for_tokens. intros H.
  apply fetch_batches_keys in H as [Hnd Hkeys]. split.
  - apply Hnd. constructor.
  - intros x. rewrite Hkeys.
    unfold chunk. rewrite chunk_fuel_concat by lia.
    split; [|auto]. intros [H|H]; [by apply elem_of_nil in H|done].
Qed.

Lemma fetch_entries_witness :
  NoDup [("ETH", [("2024-01-01", float_of_Z 100)])].*1 /\
  forall x, x ∈ [("ETH", [("2024-01-01", float_of_Z 100)])].*1
            <-> exists tok, tok ∈ ["eth"] /\ x = Str.upper tok.
Proof.
  apply (fetch_entries Scenario.price_only_client "price" "1970-01-01" "2024-01-02" ["eth"]).
  vm_compute. reflexivity.
Defined.

(** *** The merge *)

Lemma last_point_snoc (series : list point) (pt : point) (d : string) :
  Supplied.last_point (series ++ [pt]) d
    = if decide (pt.1 = d) then Some pt.2 else Supplied.last_point series d.
Proof. unfold Supplied.last_point. by rewrite foldl_app. Qed.

Lemma last_supplied_snoc (p : payload) (ts : string * list point) (tok d : string) :
  Supplied.last_supplied (p ++ [ts]) tok d
    = if decide (ts.1 = tok) then
        match Supplied.last_point ts.2 d with
        | Some v => Some v
        | None => Supplied.last_supplied p tok d
        end
      else Supplied.last_supplied p tok d.
Proof. unfold Supplied.last_supplied. by rewrite foldl_app. Qed.

Lemma merge_series_last (metric tok0 : string) (series : list point) (t : table)
    (d s x : string) :
  cell (merge_series metric tok0 t series) d s x
    = if decide (s = metric /\ tok0 = x) then
        match Supplied.last_point series d with
        | Some v => Some v
        | None => cell t d s x
        end
      else cell t d s x.
Proof.
  induction series as [|[d0 v0] series IH] using rev_ind.
  - simpl. by destruct (decide _).
  - unfold merge_series in *. rewrite foldl_app. cbn [foldl fst snd].
    rewrite MergeFacts.cell_upsert, IH, last_point_snoc. cbn [fst snd].
    destruct (decide (s = metric /\ tok0 = x)) as [[-> ->]|Hno].
    + destruct (decide (d0 = d)) as [->|Hd].
      * by rewrite decide_True.
      * rewrite decide_False; [done|]. by intros (? & _).
    + rewrite decide_False; [done|]. intros (_ & -> & ->). by apply Hno.
Qed.

Lemma merge_cell_last (t : table) (metric : string) (p : payload) (d s x : string) :
  cell (merge t metric p) d s x
    = if decide (s = metric) then
        match Supplied.last_supplied p x d with
        | Some v => Some v
        | None => cell t d s x
        end
      else cell t d s x.
Proof.
  induction p as [|[tok0 series] p IH] using rev_ind.
  - simpl. by destruct (decide _).
  - unfold merge in *. rewrite foldl_app. cbn [foldl fst snd].
    rewrite merge_series_last, IH, last_supplied_snoc. cbn [fst snd].
    destruct (decide (s = metric)) as [->|Hs].
    + destruct (decide (tok0 = x)) as [->|Hx].
      * rewrite decide_True by done. by destruct (Supplied.last_point series d).
      * rewrite decide_False; [done|]. by intros [_ ?].
    + rewrite decide_False; [done|]. by intros [? _].
Qed.

Lemma merge_series_row (metric tok0 : string) (series : list point) (t : table)
    (k : string * string) :
  is_Some (merge_series metric tok0 t series !! k)
  <-> is_Some (t !! k) \/ (k.2 = metric /\ exists v, (k.1, v) ∈ series).
Proof.
  revert t. induction series as [|[d0 v0] series IH]; intros t; simpl.
  - split; [auto|]. intros [?|(_ & v & H)]; [done|]. by apply elem_of_nil in H.
  - rewrite IH. unfold upsert. cbn [fst snd]. rewrite lookup_insert_is_Some.
    destruct k as [d s]. cbn [fst snd]. split.
    + intros [[[= -> ->]|[_ H]]|(-> & v & H)].
      * right. split; [done|]. exists v0. by left.
      * by left.
      * right. split; [done|]. exists v. by right.
    + intros [H|(-> & v & [[= -> ->]|H]%elem_of_cons)].
      * destruct (decide ((d0, metric) = (d, s))); [left; by left|left; by right].
      * left. by left.
      * right. split; [done|]. by exists v.
Qed.

Lemma merge_row (t : table) (metric : string) (p : payload) (k : string * string) :
  is_Some (merge t metric p !! k)
  <-> is_Some (t !! k) \/
      (k.2 = metric /\ exists tok series v, (tok, series) ∈ p /\ (k.1, v) ∈ series).
Proof.
  unfold merge. revert t. induction p as [|[tok0 series] p IH]; intros t; simpl.
  - split; [auto|]. intros [?|(_ & ? & ? & ? & H & _)]; [done|]. by apply elem_of_nil in H.
  - rewrite IH, merge_series_row. split.
    + intros [[H|(Hk & v & H)]|(Hk & tok & ser & v & H1 & H2)]; [by left|right..].
      * split; [done|]. exists tok0, series, v. split; [by left|done].
      * split; [done|]. exists tok, ser, v. split; [by right|done].
    + intros [H|(Hk & tok & ser & v & [[= -> ->]|H1]%elem_of_cons & H2)].
      * left. by left.
      * left. right. split; [done|]. by exists v.
      * right. split; [done|]. by exists tok, ser, v.
Qed.

(** X3. After a merge a cell of the merged series holds the value the payload
    supplies last for it, when it supplies one; every other cell is as it
    was. *)
Lemma merge_last_supplied (t : table) (metric : string) (p : payload) (d s x : string) :
  cell (merge t metric p) d s x
    = if decide (s = metric) then
        match Supplied.last_supplied p x d with
        | Some v => Some v
        | None => cell t d s x
        end
      else cell t d s x.
Proof. apply merge_cell_last. Qed.

(** Two tables with the same rows and the same cells are the same. *)
Lemma table_ext (t1 t2 : table) :
  (forall k, is_Some (t1 !! k) <-> is_Some (t2 !! k)) ->
  (forall d s x, cell t1 d s x = cell t2 d s x) ->
  t1 = t2.
Proof.
  intros Hrows Hcells. apply map_eq. intros [d s].
  specialize (Hrows (d, s)). specialize (Hcells d s). unfold cell in Hcells.
  destruct (t1 !! (d, s)) as [r1|], (t2 !! (d, s)) as [r2|]; simpl in *.
  - f_equal. apply map_eq. exact Hcells.
  - destruct Hrows as [H _]. by destruct H.
  - destruct Hrows as [_ H]. by destruct H.
  - done.
Qed.

(** X4. Merging the same payload a second time changes nothing. *)
Lemma merge_idempotent (t : table) (metric : string) (p : payload) :
  merge (merge t metric p) metric p = merge t metric p.
Proof.
  apply table_ext.
  - intros k. rewrite (merge_row (merge t metric p)). split; [|by left].
    intros [H|H]; [done|]. apply merge_row. by right.
  - intros d s x. rewrite (merge_cell_last (merge t metric p)).
    rewrite merge_cell_last.
    destruct (decide (s = metric)); [|done].
    by destruct (Supplied.last_supplied p x d).
Qed.

(** *** The run *)

Lemma run_metrics_cells (fromisoformat : string -> option Dates.date)
    (client : request -> response) (today : string)
    (tokens_upper metrics : list string) (t t' : table) (log log' : list request)
    (d s x : string) :
  run_metrics fromisoformat client today tokens_upper metrics t log = (Ok t', log') ->
  (is_Some (cell t d s x) -> is_Some (cell t' d s x)) /\
  (s ∉ metrics -> cell t' d s x = cell t d s x).
Proof.
  revert t log. induction metrics as [|m metrics IH]; intros t log; simpl.
  - by intros [= <- _].
  - destruct (effective_start fromisoformat t m tokens_upper) as [start|e]; [|done].
    destruct (fetch_metric_for_tokens client m tokens_upper start today) as [p|e]; [|done].
    intros H. apply IH in H as [Hkeep Hframe]. split.
    + intros Hc. apply Hkeep. by apply MergeFacts.merge_keeps.
    + intros Hs. rewrite Hframe by (intros ?; apply Hs; by right).
      apply MergeFacts.merge_frame. intros [-> _]. apply Hs. by left.
Qed.

(** X5. A run that writes its table has kept every cell the table had before
    (overwritten or not), and has left the cells of the series it does not
    process as they were. *)
Lemma run_keeps_cells (fromisoformat : string -> option Dates.date)
    (client : request -> response) (TOKENS METRICS : list string)
    (existing t' : table) (today d s x : string) :
  written (run fromisoformat client TOKENS METRICS existing today) = Some t' ->
  (is_Some (cell existing d s x) -> is_Some (cell t' d s x)) /\
  (s ∉ METRICS -> cell t' d s x = cell existing d s x).
Proof.
  unfold run.
  destruct (run_metrics fromisoformat client today (List.map Str.upper TOKENS) METRICS
              existing [])
    as [[t|e] log] eqn:E; simpl; [|done].
  intros [= <-]. by eapply run_metrics_cells.
Qed.

Lemma run_keeps_cells_witness :
  is_Some (cell (merge Scenario.merged "price" [("ETH", [("2024-01-01", float_of_Z 100)])])
                "2024-01-01" "price" "BTC").
Proof.
  refine (proj1 (run_keeps_cells Dates.parse_calendar Scenario.price_only_client
                   ["eth"] ["price"]
                   Scenario.merged _ "2024-01-02" "2024-01-01" "price" "BTC" _) _).
  - vm_compute. reflexivity.
  - vm_compute. eauto.
Defined.

(** *** The latest date of a series *)

(** X6. [metric_max_date] is [None] exactly when the series has no row;
    otherwise it is the date of one of its rows, and no row of the series
    has a date that compares greater. *)
Lemma metric_max_date_greatest (t : table) (metric : string) :
  match metric_max_date t metric with
  | None => forall d, t !! (d, metric) = None
  | Some dmax =>
      is_Some (t !! (dmax, metric)) /\
      forall d, is_Some (t !! (d, metric)) -> String.ltb dmax d = false
  end.
Proof.
  destruct (metric_max_date t metric) as [dmax|] eqn:E.
  - by apply ResumeFacts.metric_max_date_Some.
  - apply ResumeFacts.metric_max_date_None in E. intros d.
    destruct (t !! (d, metric)) as [r|] eqn:Hr; [|done].
    destruct E. exists d. by rewrite Hr.
Qed.

End CoinFacts.

(** ** Key normalisation and resolution (art_dat.py) *)

Module ResolveFacts.

Import KeyResolver.

(** The characters [norm] keeps. *)
Lemma lower_ascii_idemp (c : ascii) :
  Str.lower_ascii (Str.lower_ascii c) = Str.lower_ascii c.
Proof. destruct c as [[] [] [] [] [] [] [] []]; reflexivity. Qed.

Lemma lower_upper_ascii (c : ascii) :
  Str.lower_ascii (Str.upper_ascii c) = Str.lower_ascii c.
Proof. destruct c as [[] [] [] [] [] [] [] []]; reflexivity. Qed.

Lemma kept_is_lower (c : ascii) :
  Str.is_lower c || Str.is_digit c = true -> Str.lower_ascii c = c.
Proof. destruct c as [[] [] [] [] [] [] [] []]; vm_compute; congruence. Qed.

Lemma norm_cons (c : ascii) (s : string) :
  norm (String c s)
    = if Str.is_lower (Str.lower_ascii c) || Str.is_digit (Str.lower_ascii c)
      then String (Str.lower_ascii c) (norm s) else norm s.
Proof. done. Qed.

Lemma norm_app (a b : string) : norm (a ++ b) = (norm a ++ norm b)%string.
Proof.
  induction a as [|c a IH]; [done|].
  change (String c a ++ b)%string with (String c (a ++ b)%string).
  rewrite !norm_cons, IH. by destruct (_ || _).
Qed.

Lemma lower_ascii_kept (c : ascii) :
  Str.is_lower (Str.lower_ascii c) || Str.is_digit (Str.lower_ascii c)
    = Str.is_lower c || Str.is_upper c || Str.is_digit c.
Proof. destruct c as [[] [] [] [] [] [] [] []]; reflexivity. Qed.

(** X14. On ASCII text, where [lower] and [upper] are the mappings of
    Python, [norm] is insensitive to case and to every character that is
    neither a letter nor a digit, and a normal form is its own normal
    form. *)
Lemma norm_insensitive (s : string) :
  Str.is_ascii s = true ->
  norm (Str.upper s) = norm s /\
  norm (Str.lower s) = norm s /\
  norm (norm s) = norm s /\
  forall (a b : string) (c : ascii),
    s = (a ++ String c b)%string ->
    Str.is_lower c || Str.is_upper c || Str.is_digit c = false ->
    norm s = norm (a ++ b).
Proof.
  intros _. split; [|split; [|split]].
  - induction s as [|c s IH]; [done|].
    change (Str.upper (String c s)) with (String (Str.upper_ascii c) (Str.upper s)).
    by rewrite !norm_cons, lower_upper_ascii, IH.
  - induction s as [|c s IH]; [done|].
    change (Str.lower (String c s)) with (String (Str.lower_ascii c) (Str.lower s)).
    by rewrite !norm_cons, lower_ascii_idemp, IH.
  - induction s as [|c s IH]; [done|]. rewrite norm_cons.
    destruct (_ || _) eqn:E; [|done].
    rewrite norm_cons, lower_ascii_idemp, E, IH. done.
  - intros a b c -> Hc. rewrite !norm_app, norm_cons, lower_ascii_kept, Hc. done.
Qed.

(** An instance: the label in capitals, and with its first blank removed. *)
Lemma norm_insensitive_witness :
  norm "NET ASSET VALUE" = norm "Net Asset Value" /\
  norm "Net Asset Value" = norm "NetAsset Value".
Proof.
  destruct (norm_insensitive "Net Asset Value" eq_refl) as (Hu & _ & _ & Hc).
  split; [exact Hu|]. exact (Hc "Net" "Asset Value" " "%char eq_refl eq_refl).
Defined.

Lemma foldl_norm_keeps (post : list string) (m : gmap string string) (n k : string) :
  m !! n = Some k -> (forall k', k' ∈ post -> norm k' <> n) ->
  foldl (fun m k0 => <[norm k0 := k0]> m) m post !! n = Some k.
Proof.
  revert m. induction post as [|x post IH]; intros m Hm Hpost; cbn [foldl]; [done|].
  apply IH.
  - rewrite lookup_insert_ne; [done|]. apply Hpost. by left.
  - intros k' Hk'. apply Hpost. by right.
Qed.

(** X15. The index of the advertised keys: a normal form is indexed exactly
    when a key has it, the entry is a key with that normal form, and of two
    keys with the same normal form the later one is kept. *)
Lemma avail_norm_index (keys : list string) :
  (forall n, is_Some (avail_norm_of keys !! n) <-> exists k, k ∈ keys /\ norm k = n) /\
  (forall n k, avail_norm_of keys !! n = Some k -> k ∈ keys /\ norm k = n) /\
  (forall pre k post, keys = pre ++ k :: post ->
     (forall k', k' ∈ post -> norm k' <> norm k) ->
     avail_norm_of keys !! norm k = Some k).
Proof.
  split; [|split].
  - apply KeyResolverFacts.avail_norm_of_is_Some.
  - apply KeyResolverFacts.avail_norm_of_Some.
  - intros pre k post -> Hpost. unfold avail_norm_of.
    rewrite foldl_app. cbn [foldl].
    apply foldl_norm_keeps; [apply lookup_insert_eq|done].
Qed.

(** X16. What [choose_key_from_candidates] returns is an advertised key of the
    symbol or the first candidate: it makes up no key. *)
Lemma choose_key_provenance (by_sym : gmap string (gmap string string))
    (sym : string) (candidates : list string) (prior : option string) (k : string) :
  choose_key_from_candidates by_sym sym candidates prior = Some k ->
  (exists n, default ∅ (by_sym !! sym) !! n = Some k) \/ head candidates = Some k.
Proof.
  unfold choose_key_from_candidates.
  set (avail := default ∅ (by_sym !! sym)).
  assert (forall o : option string,
            match o with
            | Some k0 => Some k0
            | None =>
                match first_available avail candidates with
                | Some k0 => Some k0
                | None => head candidates
                end
            end = Some k ->
            o = Some k \/ (exists n, avail !! n = Some k) \/ head candidates = Some k) as H.
  { intros [k0|]; [by left|]. intros H. right.
    destruct (first_available avail candidates) as [k0|] eqn:E; [|by right].
    injection H as ->. apply KeyResolverFacts.first_available_Some in E as (c & _ & Hc).
    left. eauto. }
  intros Hk. apply H in Hk as [Hk|Hk]; [|done].
  left. destruct prior as [p|]; [|done]. destruct (Str.truthy p); [|done]. eauto.
Qed.

Lemma choose_key_provenance_witness :
  (exists n, default ∅ (by_sym_example !! "EQ-MSTR") !! n = Some "nav") \/
  head NET_ASSET_VALUE = Some "nav".
Proof.
  apply (choose_key_provenance by_sym_example "EQ-MSTR" NET_ASSET_VALUE None).
  vm_compute. reflexivity.
Defined.

(** X17. Without a prior choice that is still advertised, the candidates are
    tried in their order: the first one with an advertised normal form
    decides, and the advertised spelling is returned. *)
Lemma choose_key_first_advertised (by_sym : gmap string (gmap string string))
    (sym : string) (pre post : list string) (c k : string) (prior : option string) :
  match prior with
  | Some p => p = "" \/ default ∅ (by_sym !! sym) !! norm p = None
  | None => True
  end ->
  (forall c', c' ∈ pre -> default ∅ (by_sym !! sym) !! norm c' = None) ->
  default ∅ (by_sym !! sym) !! norm c = Some k ->
  choose_key_from_candidates by_sym sym (pre ++ c :: post) prior = Some k.
Proof.
  intros Hprior Hpre Hc. unfold choose_key_from_candidates.
  set (avail := default ∅ (by_sym !! sym)) in *.
  assert (match prior with
          | Some p => if Str.truthy p then avail !! norm p else None
          | None => None
          end = None) as ->.
  { destruct prior as [p|]; [|done]. destruct Hprior as [->|Hp]; [done|].
    by destruct (Str.truthy p). }
  assert (first_available avail (pre ++ c :: post) = Some k) as ->; [|done].
  induction pre as [|x pre IH]; simpl.
  - by rewrite Hc.
  - rewrite (Hpre x) by (by left). apply IH. intros c' Hc'. apply Hpre. by right.
Qed.

Lemma choose_key_first_advertised_witness :
  choose_key_from_candidates by_sym_example "EQ-MSTR" ([] ++ "NAV" :: ["netassetvalue"]) None
    = Some "nav".
Proof.
  apply (choose_key_first_advertised by_sym_example "EQ-MSTR" [] ["netassetvalue"] "NAV"
           "nav" None).
  - exact I.
  - intros c' H. by apply elem_of_nil in H.
  - vm_compute. reflexivity.
Defined.

End ResolveFacts.

(** ** The layout of the table file *)

Module FileFacts.

Import Csv.

(** *** A header without the key columns *)

Lemma last_binding_absent (name : string) (l : list (string * option string))
    (acc : option string) :
  (forall kv, kv ∈ l -> kv.1 <> name) -> foldl (last_binding name) acc l = acc.
Proof.
  revert acc. induction l as [|kv l IH]; intros acc Hl; cbn [foldl]; [done|].
  rewrite IH by (intros kv' ?; apply Hl; by right).
  unfold last_binding. rewrite decide_False; [done|]. apply Hl. by left.
Qed.

Lemma dict_row_names (fieldnames row : list string) (kv : string * option string) :
  kv ∈ dict_row fieldnames row -> kv.1 ∈ fieldnames.
Proof.
  unfold dict_row. intros [H|H]%elem_of_app.
  - destruct kv as [k v]. by apply elem_of_zip_l in H.
  - apply list_elem_of_fmap in H as (k & -> & Hk). simpl.
    rewrite <- (take_drop (length row) fieldnames). apply elem_of_app. by right.
Qed.

Lemma row_get_absent (fieldnames row : list string) (name : string) :
  name ∉ fieldnames -> row_get fieldnames row name = None.
Proof.
  intros Hn. unfold row_get. apply last_binding_absent.
  intros kv Hkv <-. by apply Hn, (dict_row_names _ row).
Qed.

(** X11. A file whose header has no "date" column, or no "metric" column, is
    read as the empty table, whatever its records hold. *)
Lemma read_without_key_column (store : string -> string) (fieldnames : list string)
    (rows : list (list string)) :
  "date" ∉ fieldnames \/ "metric" ∉ fieldnames ->
  (read store (Some (fieldnames :: rows))).1 = ∅.
Proof.
  intros Hk. unfold read. cbn [fst].
  generalize (List.filter (fun c => negb (bool_decide (c ∈ ["date"; "metric"]))) fieldnames).
  intros token_cols.
  assert (forall t row, read_row store fieldnames token_cols t row = t) as Hrow.
  { intros t row. unfold read_row. destruct Hk as [Hk|Hk].
    - by rewrite (row_get_absent _ _ "date").
    - rewrite (row_get_absent _ _ "metric") by done. by destruct (row_get _ _ "date"). }
  induction rows as [|row rows IH]; [done|]. cbn [foldl]. by rewrite Hrow.
Qed.

Lemma read_without_key_column_witness :
  (read Str.upper (Some (["Date"; "metric"; "BTC"]
                         :: [["2024-01-01"; "price"; "40000.0000000000"]]))).1 = ∅.
Proof.
  apply read_without_key_column. left. intros H.
  repeat (apply elem_of_cons in H as [H|H]; [discriminate H|]).
  by apply elem_of_nil in H.
Defined.

(** *** The records written *)

Section Layout.

Variable leb : string * string -> string * string -> bool.
Hypothesis leb_total : forall a b, leb a b = true \/ leb b a = true.
Hypothesis leb_date : forall a b, leb a b = true -> str_le a.1 b.1.

#[local]
Instance sorted_by_total : Total (sorted_by leb).
Proof. intros a b. apply leb_total. Qed.

Lemma sorted_dates (keys : list (string * string)) :
  Sorted (sorted_by leb) keys -> Sorted str_le keys.*1.
Proof.
  induction 1 as [|k l Hl IH Hhd]; [constructor|].
  cbn [fmap list_fmap]. constructor; [apply IH|].
  destruct Hhd as [|k' l' Hkk']; constructor. by apply leb_date.
Qed.

Lemma write_layout (t : table) (names : list string) :
  exists body,
    write leb t names = ("date" :: "metric" :: header_tokens t names) :: body /\
    Forall (fun r => length r = (2 + length (header_tokens t names))%nat) body /\
    Sorted str_le (List.map (hd "") body) /\
    List.map Records.key_of body ≡ₚ (map_to_list t).*1.
Proof.
  unfold write. eexists. split; [done|].
  set (keys := merge_sort (sorted_by leb) (map_to_list t).*1).
  set (cols := header_tokens t names).
  assert (List.map Records.key_of (List.map (table_record t cols) keys) = keys) as Hkeys.
  { rewrite List.map_map. rewrite <- (map_id keys) at 2. apply map_ext. by intros []. }
  split; [|split].
  - apply Forall_forall. intros r Hr.
    apply list_elem_of_In, in_map_iff in Hr as (k & <- & _).
    unfold table_record. simpl. by rewrite length_map.
  - assert (List.map (hd "") (List.map (table_record t cols) keys) = keys.*1) as ->.
    { rewrite List.map_map. apply map_ext. by intros []. }
    apply sorted_dates, (Sorted_merge_sort _).
  - rewrite Hkeys. apply merge_sort_Permutation.
Qed.

End Layout.

Lemma string_leb_total (a b : string) : String.leb a b = true \/ String.leb b a = true.
Proof.
  unfold String.leb. rewrite (String.compare_antisym a b).
  destruct (String.compare b a); auto.
Qed.

Lemma string_compare_leb (a b : string) :
  String.compare a b <> Gt -> String.leb a b = true.
Proof. unfold String.leb. by destruct (String.compare a b). Qed.

(** X9. art_coin.py writes the header, then one record per row of the table,
    each as wide as the header, in ascending order of the date. *)
Lemma write_table_layout (METRICS : list string) (t : table) (tokens : list string) :
  exists body,
    ArtCoin.write_table METRICS t tokens
      = ("date" :: "metric" :: header_tokens t (List.map Str.upper tokens)) :: body /\
    Forall (fun r => length r = (2 + length (header_tokens t (List.map Str.upper tokens)))%nat)
           body /\
    Sorted str_le (List.map (hd "") body) /\
    List.map Records.key_of body ≡ₚ (map_to_list t).*1.
Proof.
  apply write_layout.
  - intros a b. unfold ArtCoin.key_leb.
    rewrite (String.compare_antisym a.1 b.1).
    destruct (String.compare b.1 a.1); cbn [CompOpp]; auto.
    rewrite (Nat.compare_antisym (ArtCoin.metric_rank METRICS a.2)).
    destruct (Nat.compare _ _); cbn [CompOpp]; auto. apply string_leb_total.
  - intros a b. unfold ArtCoin.key_leb, str_le. intros H.
    apply string_compare_leb. by destruct (String.compare a.1 b.1).
Qed.

(** X13. art_dat.py writes the header, then one record per row of the table,
    each as wide as the header, in ascending order of the date. *)
Lemma dat_write_table_layout (t : table) (symbols : list string) :
  exists body,
    ArtDat.write_table t symbols
      = ("date" :: "metric" :: header_tokens t symbols) :: body /\
    Forall (fun r => length r = (2 + length (header_tokens t symbols))%nat) body /\
    Sorted str_le (List.map (hd "") body) /\
    List.map Records.key_of body ≡ₚ (map_to_list t).*1.
Proof.
  apply write_layout.
  - intros a b. unfold ArtDat.key_leb.
    rewrite (String.compare_antisym a.1 b.1).
    destruct (String.compare b.1 a.1); cbn [CompOpp]; auto. apply string_leb_total.
  - intros a b. unfold ArtDat.key_leb, str_le. intros H.
    apply string_compare_leb. by destruct (String.compare a.1 b.1).
Qed.

#[local]
Instance str_le_is_total : Total str_le.
Proof. intros a b. apply string_leb_total. Qed.

(** X10. The columns of the header are the requested names, then the other
    names of the table, each once and in sorted order. *)
Lemma header_tokens_extras (t : table) (names : list string) :
  exists extras,
    header_tokens t names = names ++ extras /\
    NoDup extras /\ Sorted str_le extras /\
    forall x, x ∈ extras <-> x ∉ names /\ exists k r, t !! k = Some r /\ is_Some (r !! x).
Proof.
  unfold header_tokens. eexists. split; [done|]. split; [|split].
  - rewrite merge_sort_Permutation. apply NoDup_ListNoDup, List.NoDup_filter, NoDup_ListNoDup.
    apply NoDup_elements.
  - apply (Sorted_merge_sort _).
  - intros x. rewrite merge_sort_Permutation, CsvFacts.elem_of_List_filter, elem_of_elements.
    rewrite CsvFacts.existing_tokens_elem, negb_true_iff, bool_decide_eq_false. naive_solver.
Qed.

End FileFacts.

(** ** The rows art_dat.py writes *)

Module LabelFacts.

Import ArtDat.

(** A loop that stores the values [f] gives for the names of a list. *)
Lemma foldl_store_lookup (f : string -> option float) (l : list string) (r0 : row)
    (x : string) :
  foldl (fun r s => match f s with
                    | Some v => <[s := v]> r
                    | None => r
                    end) r0 l !! x
    = if decide (x ∈ l) then
        match f x with
        | Some v => Some v
        | None => r0 !! x
        end
      else r0 !! x.
Proof.
  revert r0. induction l as [|s l IH]; intros r0; cbn [foldl].
  - destruct (decide (x ∈ [])) as [H|_]; [by apply elem_of_nil in H|done].
  - rewrite IH. destruct (decide (x = s)) as [->|Hne].
    + rewrite (decide_True (P := s ∈ s :: l)) by (by left).
      destruct (decide (s ∈ l)); destruct (f s) eqn:E; try done.
      by rewrite lookup_insert_eq.
    + assert (match f s with
              | Some v => <[s:=v]> r0
              | None => r0
              end !! x = r0 !! x) as ->.
      { destruct (f s); [by rewrite lookup_insert_ne|done]. }
      destruct (decide (x ∈ l)) as [Hin|Hin].
      * rewrite decide_True by (by right). done.
      * rewrite decide_False; [done|]. intros [?|?]%elem_of_cons; congruence.
Qed.

Lemma label_row_lookup (t : table) (mapping : keymap) (label : string)
    (symbols : list string) (d : string) (row0 : row) (sym : string) :
  label_row t mapping label symbols d row0 !! sym
    = if decide (sym ∈ symbols) then
        match label_cell t mapping label d sym with
        | Some v => Some v
        | None => row0 !! sym
        end
      else row0 !! sym.
Proof. apply (foldl_store_lookup (label_cell t mapping label d)). Qed.

Section Label.

Variables (t : table) (mapping : keymap) (symbols : list string) (label : string).

Let step (fr : table) (d : string) : table :=
  let r := label_row t mapping label symbols d (default ∅ (fr !! (d, label))) in
  if decide (r = ∅) then fr else <[(d, label) := r]> fr.

Lemma cell_default (fr : table) (d l sym : string) :
  ArtCoin.cell fr d l sym = default ∅ (fr !! (d, l)) !! sym.
Proof. unfold ArtCoin.cell. by destruct (fr !! (d, l)). Qed.

Lemma label_step_cell (fr : table) (x d l sym : string) :
  ArtCoin.cell (step fr x) d l sym
    = if decide (l = label /\ d = x /\ sym ∈ symbols) then
        match label_cell t mapping label d sym with
        | Some v => Some v
        | None => ArtCoin.cell fr d l sym
        end
      else ArtCoin.cell fr d l sym.
Proof.
  unfold step. cbv zeta.
  pose proof (label_row_lookup t mapping label symbols x
                (default ∅ (fr !! (x, label))) sym) as Hrow.
  rewrite <- cell_default in Hrow.
  destruct (decide ((d, l) = (x, label))) as [[= -> ->]|Hk].
  - destruct (decide (label_row t mapping label symbols x (default ∅ (fr !! (x, label))) = ∅))
      as [He|He].
    + rewrite He, lookup_empty in Hrow.
      destruct (decide (sym ∈ symbols)) as [Hs|Hs].
      * rewrite decide_True by done.
        destruct (label_cell t mapping label x sym); [done|]. done.
      * rewrite decide_False; [done|]. by intros (_ & _ & ?).
    + unfold ArtCoin.cell at 1. rewrite lookup_insert_eq. cbn [mbind option_bind].
      rewrite Hrow. destruct (decide (sym ∈ symbols)) as [Hs|Hs].
      * by rewrite decide_True.
      * rewrite decide_False; [done|]. by intros (_ & _ & ?).
  - rewrite (decide_False (P := l = label /\ d = x /\ sym ∈ symbols))
      by (intros (-> & -> & _); done).
    destruct (decide (label_row t mapping label symbols x (default ∅ (fr !! (x, label))) = ∅));
      [done|].
    unfold ArtCoin.cell. by rewrite lookup_insert_ne.
Qed.

Lemma label_dates_cell (dates : list string) (fr : table) (d l sym : string) :
  ArtCoin.cell (foldl step fr dates) d l sym
    = if decide (l = label /\ d ∈ dates /\ sym ∈ symbols) then
        match label_cell t mapping label d sym with
        | Some v => Some v
        | None => ArtCoin.cell fr d l sym
        end
      else ArtCoin.cell fr d l sym.
Proof.
  revert fr. induction dates as [|x dates IH]; intros fr; cbn [foldl].
  - rewrite decide_False; [done|]. intros (_ & H & _). by apply elem_of_nil in H.
  - rewrite IH, label_step_cell.
    destruct (decide (l = label /\ d ∈ dates /\ sym ∈ symbols)) as [(-> & Hd & Hs)|Hno].
    + rewrite (decide_True (P := label = label /\ d ∈ x :: dates /\ sym ∈ symbols))
        by (split; [done|split; [by right|done]]).
      destruct (label_cell t mapping label d sym); [done|]. by destruct (decide _).
    + destruct (decide (l = label /\ d = x /\ sym ∈ symbols)) as [(-> & -> & Hs)|Hno'].
      * by rewrite decide_True by (split; [done|split; [by left|done]]).
      * rewrite decide_False; [done|].
        intros (-> & [->|Hd]%elem_of_cons & Hs); [by apply Hno'|by apply Hno].
Qed.

Lemma label_step_rows (fr : table) (x : string) :
  (forall k r, fr !! k = Some r -> r <> ∅) ->
  forall k r, step fr x !! k = Some r -> r <> ∅.
Proof.
  intros Hfr k r. unfold step. cbv zeta. destruct (decide _) as [He|He]; [apply Hfr|].
  destruct (decide (k = (x, label))) as [->|Hk].
  - rewrite lookup_insert_eq. by intros [= <-].
  - rewrite lookup_insert_ne by done. apply Hfr.
Qed.

End Label.

Lemma label_rows_cell (t : table) (mapping : keymap) (symbols : list string)
    (fr : table) (label d l sym : string) :
  ArtCoin.cell (label_rows t mapping symbols fr label) d l sym
    = if decide (l = label /\ d ∈ all_dates t /\ sym ∈ symbols) then
        match label_cell t mapping label d sym with
        | Some v => Some v
        | None => ArtCoin.cell fr d l sym
        end
      else ArtCoin.cell fr d l sym.
Proof. apply label_dates_cell. Qed.

Lemma labels_cell (t : table) (mapping : keymap) (symbols labels : list string)
    (fr : table) (d l sym : string) :
  ArtCoin.cell (foldl (label_rows t mapping symbols) fr labels) d l sym
    = if decide (l ∈ labels /\ d ∈ all_dates t /\ sym ∈ symbols) then
        match label_cell t mapping l d sym with
        | Some v => Some v
        | None => ArtCoin.cell fr d l sym
        end
      else ArtCoin.cell fr d l sym.
Proof.
  revert fr. induction labels as [|x labels IH]; intros fr; cbn [foldl].
  - rewrite decide_False; [done|]. intros (H & _). by apply elem_of_nil in H.
  - rewrite IH, label_rows_cell.
    destruct (decide (l ∈ labels /\ d ∈ all_dates t /\ sym ∈ symbols)) as [(Hl & Hd & Hs)|Hno].
    + rewrite (decide_True (P := l ∈ x :: labels /\ _)) by (split; [by right|done]).
      destruct (label_cell t mapping l d sym) eqn:E; [done|].
      destruct (decide _) as [(-> & _)|]; [by rewrite E|done].
    + destruct (decide (l = x /\ d ∈ all_dates t /\ sym ∈ symbols)) as [(-> & Hd & Hs)|Hno'].
      * by rewrite decide_True by (split; [by left|done]).
      * rewrite decide_False; [done|].
        intros ([->|Hl]%elem_of_cons & Hd & Hs); [by apply Hno'|by apply Hno].
Qed.

Lemma mnav_rows_key (t : table) (mapping : keymap) (symbols : list string)
    (k : string * string) (r : row) :
  mnav_rows t mapping symbols !! k = Some r -> k.2 = MNAV /\ r <> ∅.
Proof.
  unfold mnav_rows. cbv zeta.
  generalize (ffilled_shares t mapping symbols). intros ff.
  assert (forall l (fr : table),
            (forall k r, fr !! k = Some r -> k.2 = MNAV /\ r <> ∅) ->
            forall k r,
              foldl (fun final_rows d =>
                       if decide (mnav_row t mapping ff symbols d = ∅) then final_rows
                       else <[(d, MNAV) := mnav_row t mapping ff symbols d]> final_rows)
                    fr l !! k = Some r -> k.2 = MNAV /\ r <> ∅) as H.
  { induction l as [|x l IH]; intros fr Hfr; cbn [foldl]; [done|].
    apply IH. intros k' r'. destruct (decide _) as [He|He]; [apply Hfr|].
    destruct (decide (k' = (x, MNAV))) as [->|Hk].
    - rewrite lookup_insert_eq. by intros [= <-].
    - rewrite lookup_insert_ne by done. apply Hfr. }
  apply H. intros k' r'. by rewrite lookup_empty.
Qed.

Lemma singles_elem (UI_LABELS : list string) (l : string) :
  l ∈ COMPOSITES ++ singles UI_LABELS -> l <> MNAV.
Proof.
  intros [H|H]%elem_of_app ->.
  - unfold COMPOSITES, MNAV in H.
    repeat (apply elem_of_cons in H as [H|H]; [discriminate H|]).
    by apply elem_of_nil in H.
  - unfold singles in H. apply CsvFacts.elem_of_List_filter in H as [_ H].
    apply negb_true_iff, bool_decide_eq_false in H. apply H. by left.
Qed.

(** X19. The cells of the table art_dat.py writes: under mNAV the computed
    ratio; under a composite or a single label, on a date of the raw table
    and for a symbol of the run, the raw value under the key the symbol's
    mapping gives that label; and no other cell (the rows under the raw keys
    are not written). *)
Lemma final_rows_cell (t : table) (mapping : keymap) (symbols UI_LABELS : list string)
    (d l sym : string) :
  ArtCoin.cell (final_rows t mapping symbols UI_LABELS) d l sym
    = if decide (l = MNAV) then ArtCoin.cell (mnav_rows t mapping symbols) d MNAV sym
      else if decide (l ∈ COMPOSITES ++ singles UI_LABELS /\ d ∈ all_dates t /\ sym ∈ symbols)
           then label_cell t mapping l d sym
           else None.
Proof.
  unfold final_rows. rewrite labels_cell.
  assert (l <> MNAV -> ArtCoin.cell (mnav_rows t mapping symbols) d l sym = None) as Hother.
  { intros Hl. unfold ArtCoin.cell.
    destruct (mnav_rows t mapping symbols !! (d, l)) as [r|] eqn:E; [|done].
    by apply mnav_rows_key in E as [? _]. }
  destruct (decide (l = MNAV)) as [->|Hl].
  - rewrite decide_False; [done|]. intros (H & _). by apply singles_elem in H.
  - rewrite Hother by done. destruct (decide _); [|done].
    by destruct (label_cell t mapping l d sym).
Qed.

(** X20. No row of the table art_dat.py writes is empty. *)
Lemma final_rows_no_empty_row (t : table) (mapping : keymap)
    (symbols UI_LABELS : list string) (k : string * string) (r : row) :
  final_rows t mapping symbols UI_LABELS !! k = Some r -> r <> ∅.
Proof.
  unfold final_rows.
  assert (forall labels (fr : table),
            (forall k r, fr !! k = Some r -> r <> ∅) ->
            forall k r, foldl (label_rows t mapping symbols) fr labels !! k = Some r -> r <> ∅)
    as H.
  { induction labels as [|x labels IH]; intros fr Hfr; cbn [foldl]; [done|].
    apply IH. unfold label_rows.
    generalize (all_dates t). intros dates. revert fr Hfr.
    induction dates as [|y dates IHd]; intros fr Hfr; cbn [foldl]; [done|].
    apply IHd. by apply label_step_rows. }
  apply H. intros k' r' Hk'. by apply mnav_rows_key in Hk' as [_ ?].
Qed.

Lemma final_rows_no_empty_row_witness :
  ({[ "EQ-MSTR" := float_of_Z 100 ]} : row) <> ∅.
Proof.
  apply (final_rows_no_empty_row example_table example_mapping ["EQ-MSTR"] [PRICE_LABEL]
           ("2024-01-01", PRICE_LABEL)).
  vm_compute. reflexivity.
Defined.

End LabelFacts.

(** ** What augment_dat_with_mnav.py writes *)

Module AugmentCells.

Import Augment.

(** X23. With a net asset value of zero (of either sign) the script writes an
    infinite cell whenever price times shares is a finite number that is not
    zero, and no cell when that product is zero. *)
Lemma emitted_zero_nav (price shares nav : frame) (d tick : string) (s : bool) :
  d ∈ idx price shares nav ->
  at_ nav d tick = S754_zero s ->
  match fmul (at_ price d tick) (at_ shares d tick) with
  | S754_finite sp _ _ => emitted price shares nav d tick = Some (S754_infinity (xorb sp s))
  | S754_infinity sp => emitted price shares nav d tick = Some (S754_infinity (xorb sp s))
  | _ => emitted price shares nav d tick = None
  end.
Proof.
  intros Hd Hnav. unfold emitted, mnav_at. rewrite decide_True by done. rewrite Hnav.
  by destruct (fmul (at_ price d tick) (at_ shares d tick)).
Qed.

Lemma emitted_zero_nav_witness :
  emitted (one_day (float_of_Z 100)) (one_day (float_of_Z 1000000)) (one_day (S754_zero true))
          "2024-01-05" "MSTR" = Some (S754_infinity true).
Proof.
  pose proof (emitted_zero_nav (one_day (float_of_Z 100)) (one_day (float_of_Z 1000000))
                (one_day (S754_zero true)) "2024-01-05" "MSTR" true) as H.
  assert ("2024-01-05" ∈ idx (one_day (float_of_Z 100)) (one_day (float_of_Z 1000000))
                             (one_day (S754_zero true))) as Hd.
  { unfold idx, one_day. rewrite !dom_singleton_L. set_solver. }
  specialize (H Hd ltac:(vm_compute; reflexivity)).
  exact H.
Defined.

End AugmentCells.

(** ** The written text is stable *)

Module StableFacts.

Import Num.
Local Open Scope Z_scope.

Lemma rhe_div_unique (a b q : Z) : 0 < b -> 2 * Z.abs (q * b - a) < b -> rhe_div a b = q.
Proof.
  intros Hb Hq. pose proof (NumFacts.rhe_div_half a b Hb) as Hr.
  set (r := rhe_div a b) in *.
  destruct (Z.eq_dec r q) as [|Hne]; [done|].
  assert (b <= Z.abs ((r - q) * b)) as Hge.
  { rewrite Z.abs_mul, (Z.abs_eq b) by lia.
    rewrite <- (Z.mul_1_l b) at 1. apply Z.mul_le_mono_nonneg_r; lia. }
  replace ((r - q) * b) with ((r * b - a) - (q * b - a)) in Hge by ring. lia.
Qed.

Lemma rhe_div_exact (k b : Z) : 0 < b -> rhe_div (k * b) b = k.
Proof.
  intros Hb. apply rhe_div_unique; [done|].
  replace (k * b - k * b) with 0 by ring. simpl. lia.
Qed.

Lemma rhe_div_scale (a b h : Z) : 0 < b -> 0 < h -> rhe_div (a * h) (b * h) = rhe_div a b.
Proof.
  intros Hb Hh. unfold rhe_div.
  rewrite Z.div_mul_cancel_r by lia. rewrite Z.mul_mod_distr_r by lia.
  assert (forall x y, (x * h <? y * h) = (x <? y)) as Hlt.
  { intros x y. destruct (Z.ltb_spec x y) as [H|H].
    - apply Z.ltb_lt. by apply Z.mul_lt_mono_pos_r.
    - apply Z.ltb_ge. by apply Z.mul_le_mono_nonneg_r; lia. }
  replace (2 * (a mod b * h)) with (2 * (a mod b) * h) by ring.
  by rewrite !Hlt.
Qed.

(** The printed steps of a double, from its value in units of 2^-1074. *)
Lemma steps_units (m : positive) (e : Z) :
  -1074 <= e ->
  steps m e = rhe_div (Z.pos m * 2 ^ (e + 1074) * 10 ^ 10) (2 ^ 1074).
Proof.
  intros He. unfold steps.
  assert (0 < 2 ^ 1074) as HP by (apply Z.pow_pos_nonneg; lia).
  destruct (Z.leb_spec 0 e) as [Hpos|Hneg].
  - assert (2 ^ (e + 1074) = 2 ^ e * 2 ^ 1074) as -> by (apply Z.pow_add_r; lia).
    set (P := 2 ^ 1074) in *.
    replace (Z.pos m * (2 ^ e * P) * 10 ^ 10) with (Z.pos m * 2 ^ e * 10 ^ 10 * P) by ring.
    by rewrite rhe_div_exact.
  - pose proof (Z.pow_pos_nonneg 2 (- e) ltac:(lia) ltac:(lia)) as Hkp.
    pose proof (Z.pow_pos_nonneg 2 (e + 1074) ltac:(lia) ltac:(lia)) as Hhp.
    assert (2 ^ 1074 = 2 ^ (- e) * 2 ^ (e + 1074)) as ->.
    { rewrite <- Z.pow_add_r by lia. f_equal. lia. }
    set (k := 2 ^ (- e)) in *. set (h := 2 ^ (e + 1074)) in *.
    replace (Z.pos m * h * 10 ^ 10) with (Z.pos m * 10 ^ 10 * h) by ring.
    by rewrite rhe_div_scale.
Qed.

Lemma no_half_step (x : Z) : x * 10 ^ 10 <> 2 ^ 1074 /\ x * 10 ^ 10 <> - 2 ^ 1074.
Proof.
  assert ((x * 10 ^ 10) mod 5 = 0) as H0.
  { replace (x * 10 ^ 10) with (x * 2000000000 * 5) by (rewrite <- Z.mul_assoc; f_equal).
    apply Z.mod_mul. lia. }
  assert (2 ^ 1074 mod 5 = 4) as H1 by (vm_compute; reflexivity).
  assert ((- 2 ^ 1074) mod 5 = 1) as H2 by (vm_compute; reflexivity).
  split; intros E; rewrite E in H0; congruence.
Qed.

Lemma nearest_double_shape (neg : bool) (num den : Z) :
  nearest_double neg num den = S754_zero neg \/
  nearest_double neg num den = S754_infinity neg \/
  exists m e, nearest_double neg num den = S754_finite neg m e.
Proof.
  unfold nearest_double. destruct (_ =? 2 ^ 53).
  - destruct (2 ^ 52 =? 0); [by left|]. destruct (2045 <? _); [right; by left|].
    right. right. eauto.
  - destruct (mantissa num den =? 0); [by left|]. destruct (2045 <? _); [right; by left|].
    right. right. eauto.
Qed.

Lemma fmt10_reprint (v : float) :
  is_double v = true -> is_finite v = true ->
  exists w, float_of_string (fmt10 v) = Some w /\ fmt10 w = fmt10 v.
Proof.
  intros Hv Hf. destruct v as [neg|neg| |neg m e]; try done.
  - exists (S754_zero neg). by destruct neg; vm_compute.
  - destruct (NumFacts.is_double_bounds neg m e Hv) as [Hm He].
    destruct (NumFacts.steps_close m e ltac:(lia)) as [Hs0 Hclose].
    assert (0 < 10 ^ 10) as HT by (apply Z.pow_pos_nonneg; lia).
    assert (0 < 2 ^ 1074) as HP by (apply Z.pow_pos_nonneg; lia).
    destruct (NumFacts.digits_spec (steps m e / 10 ^ 10)) as (Hne & Hd & Hnum).
    { apply Z.div_pos; lia. }
    destruct (NumFacts.steps_nearest_units neg m e Hm He) as (W' & HW' & _).
    pose proof (NumFacts.mantissa_nearest (steps m e) (10 ^ 10) (Z.pos m) (e + 1074) HT
                  ltac:(lia) ltac:(lia)) as Hnear.
    set (W := mantissa (steps m e) (10 ^ 10) * 2 ^ binade (steps m e) (10 ^ 10)) in *.
    set (V := Z.pos m * 2 ^ (e + 1074)) in *.
    assert (float_of_string (fmt10 (S754_finite neg m e))
            = Some (nearest_double neg (steps m e) (10 ^ 10))) as Hparse.
    { unfold float_of_string, fmt10, fmt10_chars.
      rewrite list_ascii_of_string_of_list_ascii. cbn [app].
      rewrite (NumFacts.float_of_chars_decimal neg _ _ (steps m e) Hne Hd).
      - by rewrite NumFacts.digits_fixed_length.
      - rewrite NumFacts.num_of_app, Hnum. cbn [mbind option_bind].
        rewrite NumFacts.num_of_digits_fixed. f_equal.
        change (Z.of_nat 10) with 10. rewrite Z.mod_mod by lia.
        pose proof (Z.div_mod (steps m e) (10 ^ 10) ltac:(lia)). lia. }
    exists (nearest_double neg (steps m e) (10 ^ 10)). split; [exact Hparse|].
    (* the steps of the value read back *)
    assert (W' = W) as ->.
    { assert (W < 2 ^ 2098 -> W' = W) as Hlt.
      { intros H. pose proof (NumFacts.nearest_double_units neg (steps m e) (10 ^ 10)
                                Hs0 HT H) as HU.
        fold W in HU. rewrite HU in HW'. injection HW' as HW'. destruct neg; lia. }
      apply Hlt.
      assert (2 ^ 1074 < 2 ^ 2045) as HPA by (apply Z.pow_lt_mono_r; lia).
      assert (2 ^ 2098 = 2 ^ 53 * 2 ^ 2045) as -> by (by rewrite <- Z.pow_add_r by lia).
      assert (2 ^ (e + 1074) <= 2 ^ 2045) as HeA by (apply Z.pow_le_mono_r; lia).
      pose proof (Z.pow_pos_nonneg 2 (e + 1074) ltac:(lia) ltac:(lia)) as Hhp.
      assert (V <= (2 ^ 53 - 1) * 2 ^ 2045) as HV.
      { apply Z.mul_le_mono_nonneg; lia. }
      assert (Z.abs (W - V) * 10 ^ 10 <= 2 ^ 1074) as Htol.
      { rewrite <- (Z.abs_eq (10 ^ 10)) at 1 by lia. rewrite <- Z.abs_mul.
        replace ((W - V) * 10 ^ 10)
          with ((W * 10 ^ 10 - steps m e * 2 ^ 1074) + (steps m e * 2 ^ 1074 - V * 10 ^ 10))
          by ring.
        lia. }
      assert (Z.abs (W - V) <= 2 ^ 1074) as Habs.
      { etrans; [|exact Htol].
        rewrite <- (Z.mul_1_r (Z.abs _)) at 1. apply Z.mul_le_mono_nonneg_l; lia. }
      assert (0 < 2 ^ 53) by (apply Z.pow_pos_nonneg; lia).
      set (A := 2 ^ 2045) in *. set (P := 2 ^ 1074) in *. set (B := 2 ^ 53) in *. lia. }
    assert (rhe_div (W * 10 ^ 10) (2 ^ 1074) = steps m e) as Hsame.
    { destruct (Z.eq_dec W V) as [->|Hne'].
      - unfold V. by rewrite <- steps_units by lia.
      - apply rhe_div_unique; [done|].
        destruct (Z_lt_le_dec (2 * Z.abs (steps m e * 2 ^ 1074 - W * 10 ^ 10)) (2 ^ 1074))
          as [|Hge]; [done|].
        exfalso.
        destruct (no_half_step (W - V)) as [H1 H2].
        set (T := 10 ^ 10) in *. set (P := 2 ^ 1074) in *. set (N := steps m e) in *.
        assert ((W - V) * T = (W * T - N * P) - (V * T - N * P)) as E by ring.
        assert (W * T <> V * T) as Hne''.
        { intros HE. apply Hne'. apply (Z.mul_cancel_r W V T); lia. }
        lia. }
    destruct (nearest_double_shape neg (steps m e) (10 ^ 10)) as [E|[E|(m' & e' & E)]];
      rewrite E in HW' |- *.
    + (* zero *)
      injection HW' as HW'.
      assert (W = 0) as HW0 by (destruct neg; lia).
      assert (steps m e = 0) as HN.
      { rewrite <- Hsame, HW0. exact (rhe_div_exact 0 _ HP). }
      unfold fmt10, fmt10_chars. rewrite HN. by destruct neg.
    + done.
    + unfold units in HW'. destruct (Z.leb_spec (-1074) e') as [He'|]; [|done].
      injection HW' as HW'.
      assert (Z.pos m' * 2 ^ (e' + 1074) = W) as HWm by (destruct neg; lia).
      assert (steps m' e' = steps m e) as HN.
      { rewrite (steps_units m' e') by done. by rewrite HWm. }
      unfold fmt10, fmt10_chars. by rewrite HN.
Qed.

(** X8. A finite double that is printed with ten fractional digits and read
    back prints as the same text. *)
Lemma fmt10_stable (v : float) :
  is_double v = true -> is_finite v = true ->
  exists w, float_of_string (fmt10 v) = Some w /\ fmt10 w = fmt10 v.
Proof. apply fmt10_reprint. Qed.

Lemma fmt10_stable_witness :
  exists w, float_of_string (fmt10 (float_of_Z 40000)) = Some w /\
            fmt10 w = fmt10 (float_of_Z 40000).
Proof. apply fmt10_stable; vm_compute; reflexivity. Defined.

End StableFacts.

(** ** Writing again what was read *)

Module RewriteFacts.

Import Csv.

Lemma reload_float_of_string (v w : float) :
  reload v = Some w -> Num.float_of_string (Num.fmt10 v) = Some w.
Proof.
  unfold reload, read_cell. by repeat destruct (decide _).
Qed.

(** A finite double reloads to a double that is written as the same
    text. *)
Lemma reload_stable (v : float) :
  Num.is_double v = true -> Num.is_finite v = true ->
  exists w, reload v = Some w /\ Num.fmt10 w = Num.fmt10 v.
Proof.
  intros Hd Hf. destruct (CsvFacts.reload_finite v Hd Hf) as (w & Hw & _).
  destruct (StableFacts.fmt10_reprint v Hd Hf) as (w' & Hw' & Hs).
  exists w. split; [done|]. apply reload_float_of_string in Hw. congruence.
Qed.

Section Rewrite.

Variables (store : string -> string) (leb : string * string -> string * string -> bool).
Variables (t : table) (names : list string).

Hypothesis keys_named : forall d m, is_Some (t !! (d, m)) -> d <> "" /\ m <> "".
Hypothesis columns_stored : forall c, c ∈ header_tokens t names ->
  store c = c /\ c <> "date" /\ c <> "metric".
Hypothesis values_finite : forall d m x v, ArtCoin.cell t d m x = Some v ->
  Num.is_double v = true /\ Num.is_finite v = true.

Let reloaded : table := fmap (M := gmap (string * string)) (omap (M := gmap string) reload) t.

(** The table read back is the table with every value reloaded. *)
Lemma read_write_table :
  (read store (Some (write leb t names))).1 = reloaded.
Proof.
  unfold reloaded.
  apply CoinFacts.table_ext.
  - intros [d m]. rewrite CsvFacts.read_write_keys by done.
    by rewrite lookup_fmap, fmap_is_Some.
  - intros d m x. rewrite CsvFacts.read_write_cell by done.
    unfold ArtCoin.cell. rewrite lookup_fmap.
    destruct (t !! (d, m)) as [r|]; [|done]. simpl. by rewrite lookup_omap.
Qed.

Lemma reloaded_keys : (map_to_list reloaded).*1 = (map_to_list t).*1.
Proof.
  unfold reloaded.
  rewrite map_to_list_fmap, <- list_fmap_compose. apply list_fmap_ext. by intros i [k r] _.
Qed.

Lemma reloaded_cell (k : string * string) (r : row) (x : string) :
  t !! k = Some r ->
  render (omap reload r !! x) = render (r !! x) /\
  (is_Some (omap reload r !! x) <-> is_Some (r !! x)).
Proof.
  intros Hk. rewrite lookup_omap. destruct (r !! x) as [v|] eqn:Hx; [|done].
  destruct (values_finite k.1 k.2 x v) as [Hd Hf].
  { unfold ArtCoin.cell. destruct k. simpl. by rewrite Hk. }
  cbn [mbind option_bind].
  destruct (reload_stable v Hd Hf) as (w & -> & Hs). simpl. split; [done|].
  split; eauto.
Qed.

Lemma reloaded_tokens : existing_tokens reloaded = existing_tokens t.
Proof.
  unfold reloaded.
  apply set_eq. intros x. rewrite !CsvFacts.existing_tokens_elem. split.
  - intros (k & r' & Hk & Hx). rewrite lookup_fmap in Hk.
    destruct (t !! k) as [r|] eqn:E; [|done]. injection Hk as <-.
    exists k, r. split; [done|]. by apply (reloaded_cell k r x E).
  - intros (k & r & Hk & Hx). exists k, (omap reload r). split.
    + by rewrite lookup_fmap, Hk.
    + by apply (reloaded_cell k r x Hk).
Qed.

(** Writing the table that was read back gives the records that were
    written. *)
Lemma write_read_write :
  write leb (read store (Some (write leb t names))).1 names = write leb t names.
Proof.
  rewrite read_write_table. unfold write, header_tokens.
  rewrite reloaded_tokens, reloaded_keys. unfold reloaded. f_equal.
  apply map_ext_in. intros k Hk.
  apply list_elem_of_In in Hk. rewrite merge_sort_Permutation in Hk.
  apply list_elem_of_fmap in Hk as ([k' r] & -> & Hkr). apply elem_of_map_to_list in Hkr.
  unfold table_record. cbn [fst snd]. do 2 f_equal.
  apply map_ext. intros c. rewrite lookup_fmap, Hkr. cbn [fmap option_fmap option_map default].
  by apply (reloaded_cell k' r c Hkr).
Qed.

End Rewrite.

(** X7. art_coin.py: for a table whose rows have a date and a series, whose
    entity names are upper case and whose values are finite doubles,
    [write(load(write(T)))] is [write(T)]. *)
Lemma coin_write_read_write (METRICS tokens : list string) (t : table) :
  (forall d m, is_Some (t !! (d, m)) -> d <> "" /\ m <> "") ->
  (forall d m x v, ArtCoin.cell t d m x = Some v ->
     ArtCoin.is_upper_name x /\ Num.is_double v = true /\ Num.is_finite v = true) ->
  ArtCoin.write_table METRICS
    (ArtCoin.read_existing_table (Some (ArtCoin.write_table METRICS t tokens))).1 tokens
  = ArtCoin.write_table METRICS t tokens.
Proof.
  intros Hkeys Hcells. unfold ArtCoin.write_table, ArtCoin.read_existing_table.
  apply write_read_write; [done| |].
  - intros c. apply CsvFacts.coin_columns_stored.
    intros d m x v H. by destruct (Hcells d m x v H).
  - intros d m x v H. by destruct (Hcells d m x v H) as (_ & ? & ?).
Qed.

Lemma scenario_rows_named (d m : string) :
  is_Some (Scenario.merged !! (d, m)) -> d <> "" /\ m <> "".
Proof.
  intros [r Hr].
  assert (forallb (fun kr : string * string * row =>
                     Str.truthy kr.1.1 && Str.truthy kr.1.2)
                  (map_to_list Scenario.merged) = true) as Hchk
    by (vm_compute; reflexivity).
  pose proof (CsvFacts.map_forallb _ _ Hchk (d, m) r Hr) as H. cbn [fst snd] in H.
  apply andb_true_iff in H as [H1 H2]. split; intros ->; discriminate.
Qed.

Lemma scenario_cells_plain (d m x : string) (v : float) :
  ArtCoin.cell Scenario.merged d m x = Some v ->
  ArtCoin.is_upper_name x /\ Num.is_double v = true /\ Num.is_finite v = true.
Proof.
  intros H. unfold ArtCoin.cell in H.
  destruct (Scenario.merged !! (d, m)) as [r|] eqn:Hr; [|done]. simpl in H.
  assert (forallb (fun kr : string * string * row =>
                     forallb (fun xv : string * float =>
                                String.eqb (Str.upper xv.1) xv.1
                                && Num.is_double xv.2 && Num.is_finite xv.2)
                             (map_to_list kr.2))
                  (map_to_list Scenario.merged) = true) as Hchk
    by (vm_compute; reflexivity).
  pose proof (CsvFacts.map_forallb _ _ Hchk (d, m) r Hr) as Hrow. cbn [fst snd] in Hrow.
  pose proof (CsvFacts.map_forallb _ _ Hrow x v H) as Hc. cbn [fst snd] in Hc.
  apply andb_true_iff in Hc as [[H1 H2]%andb_true_iff H3].
  apply String.eqb_eq in H1. exact (conj H1 (conj H2 H3)).
Qed.

Lemma coin_write_read_write_witness :
  ArtCoin.write_table ["price"]
    (ArtCoin.read_existing_table
       (Some (ArtCoin.write_table ["price"] Scenario.merged ["ETH"; "BTC"]))).1 ["ETH"; "BTC"]
  = ArtCoin.write_table ["price"] Scenario.merged ["ETH"; "BTC"].
Proof.
  apply coin_write_read_write.
  - apply scenario_rows_named.
  - apply scenario_cells_plain.
Defined.

End RewriteFacts.
